(** * Kabada: the GitHub repository importer (backend/routes/github.js)

    A shallow embedding of the importer route and the theorems that relate
    it to its specification.

    Conventions of the model.
    - JavaScript strings are [string]s: sequences of code units below 256.
    - JavaScript numbers that count bytes, entries or milliseconds are [Z].
    - [null] / [undefined] results are [None].
    - Node library modules ([path], [https], [adm-zip], [cloudinary],
      [mongoose], [crypto]) and the remote servers are not part of the
      repository; they are fields of the environment record [Env], and every
      theorem holds for every environment unless it names one. *)

From Stdlib Require Import ZArith Ascii String List Bool Lia.
From stdpp Require Import gmap strings list pretty.

Local Open Scope Z_scope.

(** ** JavaScript string primitives used by the route *)

Module JsString.

(** Code unit of a character. *)
Definition code (c : ascii) : Z := Z.of_nat (nat_of_ascii c).

Definition in_range (lo hi : Z) (c : ascii) : bool :=
  (lo <=? code c) && (code c <=? hi).

(** The character classes of the route's regular expressions. *)
Definition is_upper (c : ascii) : bool := in_range 65 90 c.
Definition is_lower (c : ascii) : bool := in_range 97 122 c.
Definition is_letter (c : ascii) : bool := is_upper c || is_lower c.
Definition is_digit (c : ascii) : bool := in_range 48 57 c.

(** White space removed by [String.prototype.trim], among code units
    below 256: TAB, LF, VT, FF, CR, SPACE and NBSP. *)
Definition is_space (c : ascii) : bool :=
  in_range 9 13 c || (code c =? 32) || (code c =? 160).

Definition slash : ascii := "/"%char.
Definition backslash : ascii := "\"%char.
Definition dot : ascii := "."%char.
Definition colon : ascii := ":"%char.

(** [s.startsWith(p)] *)
Fixpoint startsWith (p s : string) : bool :=
  match p, s with
  | EmptyString, _ => true
  | String a p', String b s' => Ascii.eqb a b && startsWith p' s'
  | String _ _, EmptyString => false
  end.

(** [s.substring(n)] for [0 <= n]. *)
Fixpoint substring_from (n : nat) (s : string) : string :=
  match n, s with
  | O, _ => s
  | S n', String _ s' => substring_from n' s'
  | S _, EmptyString => EmptyString
  end.

(** [s.substring(0, n)] for [0 <= n]. *)
Fixpoint substring_to (n : nat) (s : string) : string :=
  match n, s with
  | O, _ => EmptyString
  | S n', String c s' => String c (substring_to n' s')
  | S _, EmptyString => EmptyString
  end.

(** [s.endsWith(p)] *)
Definition endsWith (p s : string) : bool :=
  (String.length p <=? String.length s)%nat &&
  String.eqb (substring_from (String.length s - String.length p) s) p.

(** [s.replace(p, r)] with a string pattern: the first occurrence only. *)
Fixpoint replace_first (p r s : string) : string :=
  if startsWith p s then r +:+ substring_from (String.length p) s
  else match s with
       | EmptyString => EmptyString
       | String c s' => String c (replace_first p r s')
       end.

(** [s.replace(/c/g, d)] for single characters [c] and [d]. *)
Fixpoint replace_all_char (c d : ascii) (s : string) : string :=
  match s with
  | EmptyString => EmptyString
  | String a s' =>
      String (if Ascii.eqb a c then d else a) (replace_all_char c d s')
  end.

(** [s.split(sep)] for a single-character separator: never empty,
    [''.split('/')] is [['']]. *)
Fixpoint split (sep : ascii) (s : string) : list string :=
  match s with
  | EmptyString => [EmptyString]
  | String c s' =>
      if Ascii.eqb c sep then EmptyString :: split sep s'
      else match split sep s' with
           | seg :: rest => String c seg :: rest
           | [] => [String c EmptyString]
           end
  end.

(** [l.join(sep)] *)
Fixpoint join (sep : string) (l : list string) : string :=
  match l with
  | [] => EmptyString
  | [x] => x
  | x :: rest => x +:+ sep +:+ join sep rest
  end.

(** Truthiness of a string: [Boolean(s)]. *)
Definition truthy (s : string) : bool :=
  match s with EmptyString => false | String _ _ => true end.

Fixpoint trimStart (s : string) : string :=
  match s with
  | String c s' => if is_space c then trimStart s' else s
  | EmptyString => EmptyString
  end.

Fixpoint trimEnd (s : string) : string :=
  match s with
  | EmptyString => EmptyString
  | String c s' =>
      match trimEnd s' with
      | EmptyString => if is_space c then EmptyString else String c EmptyString
      | t => String c t
      end
  end.

(** [s.trim()] *)
Definition trim (s : string) : string := trimEnd (trimStart s).

Fixpoint forallb_string (f : ascii -> bool) (s : string) : bool :=
  match s with
  | EmptyString => true
  | String c s' => f c && forallb_string f s'
  end.

Fixpoint existsb_string (f : ascii -> bool) (s : string) : bool :=
  match s with
  | EmptyString => false
  | String c s' => f c || existsb_string f s'
  end.

(** [s.toLowerCase()] on code units below 256. *)
Definition lower_char (c : ascii) : ascii :=
  if is_upper c || (in_range 192 222 c && negb (code c =? 215))
  then ascii_of_nat (nat_of_ascii c + 32) else c.

Fixpoint toLowerCase (s : string) : string :=
  match s with
  | EmptyString => EmptyString
  | String c s' => String (lower_char c) (toLowerCase s')
  end.

End JsString.

Import JsString.

(** ** Constants *)

(** [parseInt(process.env.MAX_REPO_SIZE_MB) || 100] is read from the
    environment; see [Env]. *)
Definition MAX_SINGLE_FILE_BYTES : Z := 10 * 1024 * 1024.
Definition MAX_FILE_COUNT : Z := 500.

Definition BLOCKED_EXTENSIONS : list string :=
  [".exe"; ".bat"; ".cmd"; ".sh"; ".msi"; ".dll"; ".so";
   ".bin"; ".com"; ".scr"; ".pif"; ".vbs"; ".wsf"; ".ps1"].

Definition RATE_LIMIT_MAX : Z := 5.
Definition RATE_LIMIT_WINDOW : Z := 60000.

(** ** Reference parser: [parseGitHubUrl] *)

Record RepoReference := mkRef {
  owner : string;
  repo : string;
  branch : string
}.

(** [url.replace(/^https?:\/\//, '')] *)
Definition strip_protocol (url : string) : string :=
  if startsWith "https://" url then substring_from 8 url
  else if startsWith "http://" url then substring_from 7 url
  else url.

(** [s.replace(/\.git$/, '')] *)
Definition strip_dot_git (s : string) : string :=
  if endsWith ".git" s then substring_to (String.length s - 4) s else s.

(** The class [[a-zA-Z0-9._-]]. *)
Definition ident_char (c : ascii) : bool :=
  is_letter c || is_digit c ||
  Ascii.eqb c "."%char || Ascii.eqb c "_"%char || Ascii.eqb c "-"%char.

(** [/^[a-zA-Z0-9._-]+$/.test(s)] *)
Definition validPattern_test (s : string) : bool :=
  truthy s && forallb_string ident_char s.

Definition parseGitHubUrl (rawUrl : string) : option RepoReference :=
  let url := trim rawUrl in
  let url := strip_protocol url in
  if negb (startsWith "github.com/" url) then None
  else
    let url := replace_first "github.com/" "" url in
    let parts := List.filter truthy (split slash url) in
    if (length parts <? 2)%nat then None
    else
      let owner := nth 0 parts EmptyString in
      let repo := strip_dot_git (nth 1 parts EmptyString) in
      let branch :=
        if (4 <=? length parts)%nat && String.eqb (nth 2 parts EmptyString) "tree"
        then join "/" (skipn 3 parts)
        else "main" in
      if negb (validPattern_test owner) || negb (validPattern_test repo)
      then None
      else Some (mkRef owner repo branch).

(** The schemes [/^https?:\/\// ] removes, and none. *)
Definition schemes : list string := [""; "http://"; "https://"].

(** A character other than the separator, and a string made of such
    characters: one path segment. *)
Definition not_slash (c : ascii) : bool := negb (Ascii.eqb c slash).
Definition slash_free (s : string) : bool := forallb_string not_slash s.

(** ** Policy engine: [sanitizePath] *)

(** The path starts at a root: a leading slash, or a drive letter and a
    colon. *)
Definition absolute (s : string) : Prop :=
  (exists r, s = String slash r) \/
  (exists c r, is_letter c = true /\ s = String c (String colon r)).

(** [seg] is a segment of [s]: it is delimited on each side by a
    separator or by the end of the string. *)
Definition has_segment (seg s : string) : Prop :=
  exists pre post,
    s = pre +:+ seg +:+ post /\
    (pre = "" \/ exists p, pre = p +:+ "/") /\
    (post = "" \/ exists q, post = "/" +:+ q).

(** [/^[a-zA-Z]:/.test(s)] *)
Definition drive_letter_test (s : string) : bool :=
  match s with
  | String c (String d _) => is_letter c && Ascii.eqb d colon
  | _ => false
  end.

Definition sanitizePath (filePath : string) : option string :=
  let normalized := replace_all_char backslash slash filePath in
  if startsWith "/" normalized || drive_letter_test normalized then None
  else
    let segments := split slash normalized in
    if existsb (fun s => String.eqb s "..") segments then None
    else Some normalized.

(** [isBlockedFile] is below, after the environment that provides
    [path.extname]. *)

(** ** The environment of the route *)

Inductive Proto := Https | Http.

(** How a response body stream finishes: the ['end'] or the ['error']
    event. *)
Inductive BodyEnd := EndOk | EndError.

(** What the callback of [proto.get] observes. *)
Record HttpReply := mkReply {
  statusCode : Z;
  location : option string;          (* response.headers.location *)
  chunks : list (list Byte.byte);    (* the 'data' events, in order *)
  body_end : BodyEnd
}.

(** A request either fails to connect (the ['error'] event of the request)
    or gets a reply. *)
Inductive NetReply := ConnectionError | Response (r : HttpReply).

(** The fields of the repository metadata that the route reads; a falsy or
    absent field reads as [0] or [''], which is what [x || 0] and [x || '']
    produce. *)
Record RepoMeta := mkMeta {
  meta_size : Z;                 (* repoMeta.size || 0, in KB *)
  meta_description : string;     (* repoMeta.description || '' *)
  meta_stargazers_count : Z;     (* repoMeta.stargazers_count || 0 *)
  meta_language : string         (* repoMeta.language || '' *)
}.

(** What [JSON.parse] returns, as far as the routes tell values apart:
    [null], on which reading a field throws a [TypeError], or any other
    value, which the routes read through the fields of [RepoMeta]. *)
Inductive Json :=
| JsonNull
| JsonValue (repoMeta : RepoMeta).

(** An entry of the archive as adm-zip presents it. [getData] is [None]
    when decompression throws. *)
Record ZipEntry := mkEntry {
  entryName : string;
  isDirectory : bool;
  header_size : Z;                         (* entry.header.size *)
  getData : option (list Byte.byte)        (* entry.getData() *)
}.

(** What Cloudinary's upload callback hands back on success. *)
Record CloudinaryResult := mkCloud {
  public_id : string;
  secure_url : string
}.

Record Env := mkEnv {
  (** [parseInt(process.env.MAX_REPO_SIZE_MB)]; [None] is [NaN]. *)
  env_MAX_REPO_SIZE_MB : option Z;
  (** [process.env.GITHUB_TOKEN] *)
  env_GITHUB_TOKEN : option string;
  (** [Date.now()] when the request is rate-checked. *)
  Date_now : Z;
  path_extname : string -> string;
  path_basename : string -> string;
  (** The remote servers: protocol, URL and request headers. *)
  net : Proto -> string -> list (string * string) -> NetReply;
  (** [JSON.parse]; [None] when the text does not parse. *)
  JSON_parse : list Byte.byte -> option Json;
  (** [new AdmZip(buffer).getEntries()]; [None] when the constructor
      throws. *)
  AdmZip_getEntries : list Byte.byte -> option (list ZipEntry);
  (** The outcome of the [i]-th call of [cloudinary.uploader.upload_stream]
      with the [public_id] of its options and the buffer piped into it;
      [None] is an error. *)
  cloudinary_upload : nat -> string -> list Byte.byte -> option CloudinaryResult;
  (** [Container.findOne] on the container name: [None] when the query
      rejects, [Some true] when a container of that name exists. *)
  Container_findOne : string -> option bool;
  (** [crypto.randomBytes(n).toString('hex')] *)
  randomBytes_hex : nat -> string;
  (** [container._id] *)
  container_id : string;
  (** Whether [container.save()] resolves. *)
  container_save : bool;
  (** [Date.now()] and [Math.round(Math.random() * 1E9)] in the [i]-th call
      of [uploadToCloudinary]. *)
  upload_Date_now : nat -> Z;
  upload_random : nat -> Z
}.

Definition MAX_REPO_SIZE_MB (E : Env) : Z :=
  match env_MAX_REPO_SIZE_MB E with
  | Some n => if n =? 0 then 100 else n
  | None => 100
  end.

Definition MAX_REPO_SIZE_BYTES (E : Env) : Z := MAX_REPO_SIZE_MB E * 1024 * 1024.

(** ** Policy engine: [isBlockedFile], [getMimeType] *)

Definition isBlockedFile (E : Env) (filename : string) : bool :=
  let ext := toLowerCase (path_extname E filename) in
  existsb (String.eqb ext) BLOCKED_EXTENSIONS.

Definition mimeMap : list (string * string) :=
  [(".js", "text/javascript"); (".jsx", "text/javascript");
   (".ts", "application/typescript"); (".tsx", "application/typescript");
   (".json", "application/json"); (".html", "text/html");
   (".css", "text/css"); (".scss", "text/css");
   (".md", "text/markdown"); (".txt", "text/plain");
   (".xml", "application/xml"); (".svg", "image/svg+xml");
   (".png", "image/png"); (".jpg", "image/jpeg"); (".jpeg", "image/jpeg");
   (".gif", "image/gif"); (".webp", "image/webp");
   (".pdf", "application/pdf"); (".zip", "application/zip");
   (".yaml", "text/yaml"); (".yml", "text/yaml");
   (".toml", "text/plain"); (".lock", "text/plain");
   (".py", "text/x-python"); (".rb", "text/x-ruby");
   (".go", "text/x-go"); (".rs", "text/x-rust");
   (".java", "text/x-java"); (".c", "text/x-c"); (".cpp", "text/x-c");
   (".h", "text/x-c"); (".sh", "text/x-shellscript");
   (".env", "text/plain"); (".gitignore", "text/plain")].

Fixpoint assoc (k : string) (l : list (string * string)) : option string :=
  match l with
  | [] => None
  | (k', v) :: l' => if String.eqb k k' then Some v else assoc k l'
  end.

Definition getMimeType (E : Env) (filename : string) : string :=
  let ext := toLowerCase (path_extname E filename) in
  match assoc ext mimeMap with
  | Some m => if truthy m then m else "application/octet-stream"
  | None => "application/octet-stream"
  end.

(** ** Remote fetcher: [fetchBuffer], [fetchJson] *)

Inductive FetchError :=
| HTTPStatus (code : Z)        (* new Error(`HTTP ${statusCode}`) *)
| SizeExceeded                 (* 'Repository archive exceeds ...MB limit' *)
| InvalidJSON                  (* 'Invalid JSON response' *)
| Transport.                   (* an 'error' event *)

(** A promise that resolved, rejected, or has not settled within the
    number of requests the model was given. *)
Inductive Settled (A : Type) :=
| Resolved (a : A)
| Rejected (e : FetchError)
| Pending.
Arguments Resolved {A} a.
Arguments Rejected {A} e.
Arguments Pending {A}.

Definition proto_of (url : string) : Proto :=
  if startsWith "https" url then Https else Http.

Definition location_truthy (r : HttpReply) : option string :=
  match location r with
  | Some l => if truthy l then Some l else None
  | None => None
  end.

(** The [options] of the two fetchers. *)
Definition buffer_options (headers : list (string * string))
    : list (string * string) :=
  ("User-Agent", "Kabada-GitHub-Import/1.0") :: headers.

Definition json_options (headers : list (string * string))
    : list (string * string) :=
  ("User-Agent", "Kabada-GitHub-Import/1.0")
  :: ("Accept", "application/vnd.github.v3+json") :: headers.

(** The ['data'] handler of [fetchBuffer]: the running size is checked
    against the cap before the chunk is kept. *)
Fixpoint read_capped (cap totalSize : Z) (acc : list Byte.byte)
    (cs : list (list Byte.byte)) (fin : BodyEnd) : Settled (list Byte.byte) :=
  match cs with
  | [] => match fin with
          | EndOk => Resolved acc
          | EndError => Rejected Transport
          end
  | chunk :: cs' =>
      let totalSize := totalSize + Z.of_nat (length chunk) in
      if totalSize >? cap then Rejected SizeExceeded
      else read_capped cap totalSize (acc ++ chunk) cs' fin
  end.

(** [fuel] bounds the number of requests: the source recurses on every
    redirect without a bound. *)
Fixpoint fetchBuffer (E : Env) (fuel : nat) (url : string)
    (headers : list (string * string)) : Settled (list Byte.byte) :=
  match fuel with
  | O => Pending
  | S fuel' =>
      match net E (proto_of url) url (buffer_options headers) with
      | ConnectionError => Rejected Transport
      | Response response =>
          match
            (if (statusCode response >=? 300) && (statusCode response <? 400)
             then location_truthy response else None)
          with
          | Some target => fetchBuffer E fuel' target headers
          | None =>
              if negb (statusCode response =? 200)
              then Rejected (HTTPStatus (statusCode response))
              else read_capped (MAX_REPO_SIZE_BYTES E) 0 []
                     (chunks response) (body_end response)
          end
      end
  end.

Definition fetchJson (E : Env) (url : string)
    (headers : list (string * string)) : Settled Json :=
  match net E (proto_of url) url (json_options headers) with
  | ConnectionError => Rejected Transport
  | Response response =>
      if negb (statusCode response =? 200)
      then Rejected (HTTPStatus (statusCode response))
      else
        match body_end response with
        | EndError => Rejected Transport
        | EndOk =>
            match JSON_parse E (concat (chunks response)) with
            | Some v => Resolved v
            | None => Rejected InvalidJSON
            end
        end
  end.

(** The reply to a [fetchBuffer] request for [url] is a redirect to
    [target]: a 3xx status and a non-empty [Location]. *)
Definition redirects (E : Env) (headers : list (string * string))
    (url target : string) : Prop :=
  exists r,
    net E (proto_of url) url (buffer_options headers) = Response r /\
    300 <= statusCode r < 400 /\
    location r = Some target /\ truthy target = true.

(** [n] redirects lead from [url] to [final]. *)
Inductive redirect_chain (E : Env) (headers : list (string * string))
    : nat -> string -> string -> Prop :=
| chain_end (url : string) : redirect_chain E headers 0 url url
| chain_hop (n : nat) (url target final : string) :
    redirects E headers url target ->
    redirect_chain E headers n target final ->
    redirect_chain E headers (S n) url final.

(** ** Rate limiter: [checkRateLimit] and the periodic sweep *)

Record RateEntry := mkEntryRL {
  count : Z;
  resetTime : Z
}.

(** [rateLimitMap]: the result is the returned boolean and the map after
    the call. *)
Definition checkRateLimit (now : Z) (ip : string)
    (rateLimitMap : gmap string RateEntry) : bool * gmap string RateEntry :=
  let fresh := <[ip := mkEntryRL 1 (now + RATE_LIMIT_WINDOW)]> rateLimitMap in
  match rateLimitMap !! ip with
  | None => (true, fresh)
  | Some entry =>
      if now >? resetTime entry then (true, fresh)
      else if count entry >=? RATE_LIMIT_MAX then (false, rateLimitMap)
      else (true, <[ip := mkEntryRL (count entry + 1) (resetTime entry)]> rateLimitMap)
  end.

(** No entry for the client, or an entry whose window is over at [now]. *)
Definition window_over (now : Z) (ip : string)
    (rateLimitMap : gmap string RateEntry) : Prop :=
  forall e, rateLimitMap !! ip = Some e -> now > resetTime e.

(** Successive checks by one client at the given times, each on the map
    the previous one left. *)
Fixpoint check_sequence (ip : string) (times : list Z)
    (rateLimitMap : gmap string RateEntry) : list bool * gmap string RateEntry :=
  match times with
  | [] => ([], rateLimitMap)
  | now :: rest =>
      let '(allowed, rateLimitMap') := checkRateLimit now ip rateLimitMap in
      let '(answers, final) := check_sequence ip rest rateLimitMap' in
      (allowed :: answers, final)
  end.

(** The body of the [setInterval] callback. *)
Definition sweep (now : Z) (rateLimitMap : gmap string RateEntry)
    : gmap string RateEntry :=
  filter (fun kv => negb (now >? resetTime (snd kv))) rateLimitMap.

(** ** Archive extractor: the loop over [zip.getEntries()] *)

(** An element of the local array [files]. *)
Record ExtractedFile := mkFile {
  relativePath : string;
  filename : string;
  buffer : list Byte.byte;
  size : Z;
  mimetype : string
}.

(** The local variables the loop updates. *)
Record Extraction := mkExtraction {
  files : list ExtractedFile;
  totalSize : Z;
  skippedCount : Z
}.

(** How one iteration ends. *)
Inductive Iteration :=
| Continued (st : Extraction)   (* [continue], or the end of the body *)
| Thrown.                       (* [entry.getData()] threw *)

(** [entries.length > 0 ? entries[0].entryName.split('/')[0] + '/' : ''] *)
Definition rootPrefix_of (entries : list ZipEntry) : string :=
  match entries with
  | [] => ""
  | e :: _ => nth 0 (split slash (entryName e)) EmptyString +:+ "/"
  end.

Definition strip_root (rootPrefix : string) (name : string) : string :=
  if truthy rootPrefix && startsWith rootPrefix name
  then substring_from (String.length rootPrefix) name
  else name.

Definition skip (st : Extraction) : Extraction :=
  mkExtraction (files st) (totalSize st) (skippedCount st + 1).

(** The body of [for (const entry of entries)]. *)
Definition extract_entry (E : Env) (rootPrefix : string)
    (st : Extraction) (entry : ZipEntry) : Iteration :=
  if isDirectory entry then Continued st
  else
    let relativePath := strip_root rootPrefix (entryName entry) in
    if negb (truthy relativePath) then Continued st
    else
      match sanitizePath relativePath with
      | None => Continued (skip st)
      | Some safePath =>
          if negb (truthy safePath) then Continued (skip st)
          else if isBlockedFile E safePath then Continued (skip st)
          else if header_size entry >? MAX_SINGLE_FILE_BYTES then Continued (skip st)
          else if Z.of_nat (length (files st)) >=? MAX_FILE_COUNT then Continued (skip st)
          else
            match getData entry with
            | None => Thrown
            | Some buffer =>
                if Z.of_nat (length buffer) =? 0 then Continued (skip st)
                else
                  Continued
                    (mkExtraction
                       (files st ++
                          [mkFile safePath (path_basename E safePath) buffer
                             (Z.of_nat (length buffer)) (getMimeType E safePath)])
                       (totalSize st + Z.of_nat (length buffer))
                       (skippedCount st))
            end
      end.

(** The loop: the state when it is left, and whether it was left by an
    exception. *)
Fixpoint extract_loop (E : Env) (rootPrefix : string) (st : Extraction)
    (entries : list ZipEntry) : Extraction * bool :=
  match entries with
  | [] => (st, false)
  | entry :: rest =>
      match extract_entry E rootPrefix st entry with
      | Continued st' => extract_loop E rootPrefix st' rest
      | Thrown => (st, true)
      end
  end.

Definition extract (E : Env) (entries : list ZipEntry) : Extraction * bool :=
  extract_loop E (rootPrefix_of entries) (mkExtraction [] 0 0) entries.

(** The entry reaches the policy engine: it is not a directory and its
    path is not empty once the root folder is removed. *)
Definition candidate (rootPrefix : string) (entry : ZipEntry) : bool :=
  negb (isDirectory entry) && truthy (strip_root rootPrefix (entryName entry)).

(** One of the five checks rejects the entry, [admitted] files having
    been kept so far: the path, the extension, the declared size, the
    number of files, the empty content. *)
Definition policy_rejects (E : Env) (rootPrefix : string) (admitted : nat)
    (entry : ZipEntry) : bool :=
  match sanitizePath (strip_root rootPrefix (entryName entry)) with
  | None => true
  | Some safePath =>
      isBlockedFile E safePath
      || (header_size entry >? MAX_SINGLE_FILE_BYTES)
      || (Z.of_nat admitted >=? MAX_FILE_COUNT)
      || match getData entry with
         | Some buffer => Z.of_nat (length buffer) =? 0
         | None => false
         end
  end.

(** The bytes of a list of extracted files. *)
Definition sum_sizes (fs : list ExtractedFile) : Z :=
  fold_right (fun f acc => size f + acc) 0 fs.

(** What one iteration does to the local variables. *)
Inductive step_spec (E : Env) (rootPrefix : string) (st : Extraction)
    (entry : ZipEntry) : Iteration -> Prop :=
| step_silent :
    candidate rootPrefix entry = false ->
    step_spec E rootPrefix st entry (Continued st)
| step_rejected :
    candidate rootPrefix entry = true ->
    policy_rejects E rootPrefix (length (files st)) entry = true ->
    step_spec E rootPrefix st entry (Continued (skip st))
| step_thrown :
    candidate rootPrefix entry = true ->
    policy_rejects E rootPrefix (length (files st)) entry = false ->
    getData entry = None ->
    step_spec E rootPrefix st entry Thrown
| step_admitted (f : ExtractedFile) :
    candidate rootPrefix entry = true ->
    policy_rejects E rootPrefix (length (files st)) entry = false ->
    getData entry = Some (buffer f) ->
    sanitizePath (strip_root rootPrefix (entryName entry)) = Some (relativePath f) ->
    size f = Z.of_nat (length (buffer f)) ->
    0 < size f ->
    step_spec E rootPrefix st entry
      (Continued (mkExtraction (files st ++ [f]) (totalSize st + size f)
                    (skippedCount st))).

(** What holds of the local variables throughout the loop. *)
Record invariant (rootPrefix : string) (seen : list ZipEntry)
    (st : Extraction) : Prop := {
  inv_count : Z.of_nat (length (files st)) <= MAX_FILE_COUNT;
  inv_seen :
    Z.of_nat (length (files st)) + skippedCount st
    = Z.of_nat (length (List.filter (candidate rootPrefix) seen));
  inv_size : totalSize st = sum_sizes (files st);
  inv_nonempty : Forall (fun f => 0 < size f) (files st)
}.

(** ** Bulk uploader *)

(** An element of [container.files]. *)
Record UploadedFile := mkUploaded {
  up_filename : string;
  up_originalName : string;
  up_mimetype : string;
  up_size : Z;
  up_path : string;
  up_publicId : string;
  up_resourceType : string;
  up_relativePath : string
}.

(** [s.replace(/\.[^/.]+$/, '')] *)
Fixpoint strip_extension (s : string) : string :=
  match s with
  | EmptyString => EmptyString
  | String c s' =>
      if Ascii.eqb c dot && truthy s' &&
         forallb_string (fun a => negb (Ascii.eqb a slash || Ascii.eqb a dot)) s'
      then EmptyString
      else String c (strip_extension s')
  end.

(** [s.replace(/[^a-zA-Z0-9_-]/g, '_')] *)
Fixpoint replace_unsafe (s : string) : string :=
  match s with
  | EmptyString => EmptyString
  | String c s' =>
      String (if is_letter c || is_digit c || Ascii.eqb c "_"%char || Ascii.eqb c "-"%char
              then c else "_"%char)
             (replace_unsafe s')
  end.

(** [uploadToCloudinary(buffer, filename)] as the [i]-th upload of the
    request: [None] is a rejected promise. The two numbers of the public id
    are integers below 10^21, which a template literal prints in decimal. *)
Definition uploadToCloudinary (E : Env) (i : nat) (buffer : list Byte.byte)
    (filename : string) : option CloudinaryResult :=
  let sanitizedName :=
    substring_to 100 (replace_unsafe (strip_extension filename)) in
  let publicId :=
    pretty (upload_Date_now E i) +:+ "-" +:+ pretty (upload_random E i)
    +:+ "-" +:+ sanitizedName in
  cloudinary_upload E i publicId buffer.

(** The async arrow function given to [files.map]: the value its promise
    resolves to ([None] is [null]). *)
Definition upload_one (E : Env) (i : nat) (file : ExtractedFile)
    : option UploadedFile :=
  match uploadToCloudinary E i (buffer file) (filename file) with
  | Some result =>
      Some (mkUploaded (public_id result) (filename file) (mimetype file)
              (size file) (secure_url result) (public_id result) "raw"
              (relativePath file))
  | None => None
  end.

(** ** What the handler does, in order *)

Inductive Event :=
| EvFetchJson (url : string)       (* fetchJson is called *)
| EvFetchBuffer (url : string)     (* fetchBuffer is called by the handler *)
| EvUploadIssued (i : nat)         (* uploadToCloudinary is called for files[i] *)
| EvBatchAwaited (i : nat).        (* await Promise.all(slice(i, i + 10)) returned *)

(** The [error] of a response that is not the 201: one constructor for
    each message of the route, with what the message is built from. *)
Inductive ImportError :=
| ErrTooManyRequests      (* 'Too many import requests. Please wait ...' *)
| ErrUrlRequired          (* 'Repository URL is required' *)
| ErrInvalidUrl           (* 'Invalid GitHub URL. Use format: ...' *)
| ErrRepoNotFound (owner repo : string)
                          (* 'Repository not found: owner/repo. ...' *)
| ErrRepoTooLarge (repoSizeBytes : Z)
                          (* 'Repository is too large (..MB). ...' *)
| ErrBranchNotFound (branch : string) (tryHint : bool)
                          (* 'Could not download repository. Branch ...
                             not found.', with 'Try specifying a branch.'
                             when [tryHint] *)
| ErrArchive              (* 'Failed to process repository archive' *)
| ErrNoValidFiles         (* 'No valid files found in the repository' *)
| ErrUploadFailed         (* 'Failed to upload repository files' *)
| ErrInternal.            (* 'Failed to import repository. Please try again.' *)

Record RepoInfo := mkInfo {
  info_owner : string;
  info_repo : string;
  info_branch : string;
  info_description : string;
  info_stars : Z;
  info_language : string
}.

(** The body of the 201 response. *)
Record ImportResult := mkResult {
  res_containerId : string;
  res_containerName : string;
  res_password : string;
  res_sandboxUrl : string;
  res_fileCount : Z;
  res_skippedCount : Z;
  res_totalSize : Z;
  res_repoInfo : RepoInfo
}.

Inductive ResponseBody :=
| ErrorBody (e : ImportError)
| ResultBody (r : ImportResult).

(** [res.status(status).json(body)] *)
Record HttpResponse := mkResponse {
  status : Z;
  body : ResponseBody
}.

(** A computation of the handler: the events so far, and whether it goes
    on with a value, has sent the response, or waits for a promise that
    does not settle. *)
Inductive Outcome (A : Type) :=
| Next (a : A)
| Sent (r : HttpResponse)
| Hang.
Arguments Next {A} a.
Arguments Sent {A} r.
Arguments Hang {A}.

Definition Handler (A : Type) : Type := list Event * Outcome A.

Definition ret {A} (a : A) : Handler A := ([], Next a).

Definition bind {A B} (c : Handler A) (k : A -> Handler B) : Handler B :=
  match c with
  | (l, Next a) => let '(l', o) := k a in (l ++ l', o)
  | (l, Sent r) => (l, Sent r)
  | (l, Hang) => (l, Hang)
  end.

Notation "'let*' x ':=' c 'in' k" := (bind c (fun x => k))
  (at level 10, x name, c at level 100, k at level 200).

Definition emit (e : Event) : Handler unit := ([e], Next tt).

Definition respond {A} (status : Z) (e : ImportError) : Handler A :=
  ([], Sent (mkResponse status (ErrorBody e))).

(** An exception caught by the outer [try]. *)
Definition throw {A} : Handler A := respond 500 ErrInternal.

(** [try { x = await p } catch (err) { ... }]: the handler sees how the
    promise settled. *)
Definition await {A} (p : Settled A) : Handler (FetchError + A) :=
  match p with
  | Resolved a => ret (inr a)
  | Rejected e => ret (inl e)
  | Pending => ([], Hang)
  end.

(** [files.map(async (file) => ...)]: an async function runs up to its
    first [await] when it is called, so [map] calls [uploadToCloudinary]
    for every file, in order, before it returns the array of promises.
    The list holds what each promise resolves to. *)
Fixpoint start_uploads (E : Env) (i : nat) (files : list ExtractedFile)
    : Handler (list (option UploadedFile)) :=
  match files with
  | [] => ret []
  | file :: rest =>
      let* _ := emit (EvUploadIssued i) in
      let* promises := start_uploads E (S i) rest in
      ret (upload_one E i file :: promises)
  end.

Definition BATCH_SIZE : nat := 10.

(** [a.slice(i, j)] for [0 <= i <= j]. *)
Definition slice {A} (i j : nat) (a : list A) : list A :=
  firstn (j - i) (skipn i a).

(** [results.filter(Boolean)] *)
Fixpoint filter_Boolean {A} (results : list (option A)) : list A :=
  match results with
  | [] => []
  | Some a :: rest => a :: filter_Boolean rest
  | None :: rest => filter_Boolean rest
  end.

(** [for (let i = 0; i < uploadPromises.length; i += BATCH_SIZE)]; [fuel]
    bounds the number of iterations. *)
Fixpoint await_batches (fuel i : nat)
    (uploadPromises : list (option UploadedFile))
    (uploadedFiles : list UploadedFile) : Handler (list UploadedFile) :=
  if (i <? length uploadPromises)%nat then
    match fuel with
    | O => ([], Hang)
    | S fuel' =>
        let batch := slice i (i + BATCH_SIZE) uploadPromises in
        let* _ := emit (EvBatchAwaited i) in
        let results := batch in
        await_batches fuel' (i + BATCH_SIZE) uploadPromises
          (uploadedFiles ++ filter_Boolean results)
    end
  else ret uploadedFiles.

(** Step 6 of the route. *)
Definition upload_files (E : Env) (files : list ExtractedFile)
    : Handler (list UploadedFile) :=
  let* uploadPromises := start_uploads E 0 files in
  await_batches (length uploadPromises) 0 uploadPromises [].

(** What the promises of [uploadPromises] resolve to, the first file being
    the [i]-th upload. *)
Fixpoint outcomes (E : Env) (i : nat) (files : list ExtractedFile)
    : list (option UploadedFile) :=
  match files with
  | [] => []
  | file :: rest => upload_one E i file :: outcomes E (S i) rest
  end.

(** The values of [i] in the loop over the batches of [n] promises. *)
Fixpoint batch_starts (fuel i n : nat) : list nat :=
  if (i <? n)%nat then
    match fuel with
    | O => []
    | S fuel' => i :: batch_starts fuel' (i + BATCH_SIZE) n
    end
  else [].

(** The position of the first event of a trace that satisfies [p]. *)
Fixpoint position (p : Event -> bool) (trace : list Event) : option nat :=
  match trace with
  | [] => None
  | e :: rest => if p e then Some O else option_map S (position p rest)
  end.

Definition is_issue (i : nat) (e : Event) : bool :=
  match e with EvUploadIssued j => (i =? j)%nat | _ => false end.

Definition is_batch_awaited (i : nat) (e : Event) : bool :=
  match e with EvBatchAwaited j => (i =? j)%nat | _ => false end.

(** ** Import orchestrator: [router.post('/import')] *)

Record Request := mkRequest {
  req_ip : option string;              (* req.ip *)
  req_remoteAddress : option string;   (* req.connection.remoteAddress *)
  body_repoUrl : option string;        (* req.body.repoUrl *)
  body_branch : option string          (* req.body.branch *)
}.

(** [a || b] on strings that may be absent. *)
Definition or_else (a : option string) (b : string) : string :=
  match a with
  | Some s => if truthy s then s else b
  | None => b
  end.

Definition clientIp (req : Request) : string :=
  or_else (req_ip req) (or_else (req_remoteAddress req) "unknown").

Definition githubHeaders (E : Env) : list (string * string) :=
  match env_GITHUB_TOKEN E with
  | Some t => if truthy t then [("Authorization", "token " +:+ t)] else []
  | None => []
  end.

(** [`https://github.com/${owner}/${repo}/archive/refs/heads/${branch}.zip`] *)
Definition zipUrl_of (owner repo branch : string) : string :=
  "https://github.com/" +:+ owner +:+ "/" +:+ repo +:+
  "/archive/refs/heads/" +:+ branch +:+ ".zip".

(** [`https://github.com/${owner}/${repo}/archive/refs/heads/master.zip`] *)
Definition masterUrl_of (owner repo : string) : string :=
  "https://github.com/" +:+ owner +:+ "/" +:+ repo +:+
  "/archive/refs/heads/master.zip".

(** Step 3 of the route. *)
Definition download_archive (E : Env) (fuel : nat) (owner repo branch : string)
    : Handler (list Byte.byte) :=
  let zipUrl := zipUrl_of owner repo branch in
  let* _ := emit (EvFetchBuffer zipUrl) in
  let* r := await (fetchBuffer E fuel zipUrl (githubHeaders E)) in
  match r with
  | inr zipBuffer => ret zipBuffer
  | inl _ =>
      if String.eqb branch "main" then
        let* _ := emit (EvFetchBuffer (masterUrl_of owner repo)) in
        let* r2 := await (fetchBuffer E fuel (masterUrl_of owner repo) (githubHeaders E)) in
        match r2 with
        | inr zipBuffer => ret zipBuffer
        | inl _ => respond 404 (ErrBranchNotFound branch true)
        end
      else respond 404 (ErrBranchNotFound branch false)
  end.

(** How the archive stage ends. *)
Inductive download_spec (E : Env) (fuel : nat) (owner repo branch : string)
  : Handler (list Byte.byte) -> Prop :=
| download_first (zipBuffer : list Byte.byte) :
    fetchBuffer E fuel (zipUrl_of owner repo branch) (githubHeaders E)
      = Resolved zipBuffer ->
    download_spec E fuel owner repo branch
      ([EvFetchBuffer (zipUrl_of owner repo branch)], Next zipBuffer)
| download_fallback (e : FetchError) (zipBuffer : list Byte.byte) :
    fetchBuffer E fuel (zipUrl_of owner repo branch) (githubHeaders E)
      = Rejected e ->
    branch = "main" ->
    fetchBuffer E fuel (masterUrl_of owner repo) (githubHeaders E)
      = Resolved zipBuffer ->
    download_spec E fuel owner repo branch
      ([EvFetchBuffer (zipUrl_of owner repo branch);
        EvFetchBuffer (masterUrl_of owner repo)], Next zipBuffer)
| download_fallback_fails (e e2 : FetchError) :
    fetchBuffer E fuel (zipUrl_of owner repo branch) (githubHeaders E)
      = Rejected e ->
    branch = "main" ->
    fetchBuffer E fuel (masterUrl_of owner repo) (githubHeaders E)
      = Rejected e2 ->
    download_spec E fuel owner repo branch
      ([EvFetchBuffer (zipUrl_of owner repo branch);
        EvFetchBuffer (masterUrl_of owner repo)],
       Sent (mkResponse 404 (ErrorBody (ErrBranchNotFound branch true))))
| download_fails (e : FetchError) :
    fetchBuffer E fuel (zipUrl_of owner repo branch) (githubHeaders E)
      = Rejected e ->
    branch <> "main" ->
    download_spec E fuel owner repo branch
      ([EvFetchBuffer (zipUrl_of owner repo branch)],
       Sent (mkResponse 404 (ErrorBody (ErrBranchNotFound branch false))))
| download_hangs :
    fetchBuffer E fuel (zipUrl_of owner repo branch) (githubHeaders E)
      = Pending ->
    download_spec E fuel owner repo branch
      ([EvFetchBuffer (zipUrl_of owner repo branch)], Hang)
| download_fallback_hangs (e : FetchError) :
    fetchBuffer E fuel (zipUrl_of owner repo branch) (githubHeaders E)
      = Rejected e ->
    branch = "main" ->
    fetchBuffer E fuel (masterUrl_of owner repo) (githubHeaders E)
      = Pending ->
    download_spec E fuel owner repo branch
      ([EvFetchBuffer (zipUrl_of owner repo branch);
        EvFetchBuffer (masterUrl_of owner repo)], Hang).

(** [`gh-${owner}-${repo}`.substring(0, 50)] *)
Definition containerName_of (owner repo : string) : string :=
  substring_to 50 ("gh-" +:+ owner +:+ "-" +:+ repo).

(** Steps 4 to 7 of the route: from the downloaded archive to the
    response. *)
Definition process_archive (E : Env) (owner repo branch : string)
    (repoMeta : RepoMeta) (zipBuffer : list Byte.byte) : Handler Empty_set :=
  match AdmZip_getEntries E zipBuffer with
  | None => respond 500 ErrArchive
  | Some entries =>
      match extract E entries with
      | (_, true) => throw
      | (ex, false) =>
          if Z.of_nat (length (files ex)) =? 0
          then respond 400 ErrNoValidFiles
          else
            let containerName := containerName_of owner repo in
            let autoPassword := randomBytes_hex E 6 in
            match Container_findOne E containerName with
            | None => throw
            | Some existing =>
                let finalName :=
                  if existing
                  then containerName +:+ "-" +:+ randomBytes_hex E 3
                  else containerName in
                let* uploadedFiles := upload_files E (files ex) in
                if Z.of_nat (length uploadedFiles) =? 0
                then respond 500 ErrUploadFailed
                else if negb (container_save E) then throw
                else
                  ([], Sent (mkResponse 201 (ResultBody
                     (mkResult (container_id E) finalName autoPassword
                        ("#/sandbox/" +:+ container_id E)
                        (Z.of_nat (length uploadedFiles))
                        (skippedCount ex)
                        (totalSize ex)
                        (mkInfo owner repo branch
                           (meta_description repoMeta)
                           (meta_stargazers_count repoMeta)
                           (meta_language repoMeta))))))
            end
      end
  end.

(** [`https://api.github.com/repos/${owner}/${repo}`] *)
Definition metaUrl_of (owner repo : string) : string :=
  "https://api.github.com/repos/" +:+ owner +:+ "/" +:+ repo.

(** The handler after the rate limit check: steps 1 to 3, then the
    rest. *)
Definition import_body (E : Env) (fuel : nat) (req : Request)
    : Handler Empty_set :=
  let repoUrl := or_else (body_repoUrl req) "" in
  if negb (truthy repoUrl) then respond 400 ErrUrlRequired
  else
    match parseGitHubUrl repoUrl with
    | None => respond 400 ErrInvalidUrl
    | Some parsed =>
        let owner := owner parsed in
        let repo := repo parsed in
        let branch := or_else (body_branch req) (branch parsed) in
        let* _ := emit (EvFetchJson (metaUrl_of owner repo)) in
        let* m := await (fetchJson E (metaUrl_of owner repo) (githubHeaders E)) in
        match m with
        | inl _ => respond 404 (ErrRepoNotFound owner repo)
        | inr JsonNull => throw    (* [repoMeta.size] throws a [TypeError] *)
        | inr (JsonValue repoMeta) =>
            let repoSizeBytes := meta_size repoMeta * 1024 in
            if repoSizeBytes >? MAX_REPO_SIZE_BYTES E
            then respond 413 (ErrRepoTooLarge repoSizeBytes)
            else
              let* zipBuffer := download_archive E fuel owner repo branch in
              process_archive E owner repo branch repoMeta zipBuffer
        end
    end.

(** The route: the rate limit map after the request, and what the handler
    did. *)
Definition import (E : Env) (fuel : nat)
    (rateLimitMap : gmap string RateEntry) (req : Request)
    : gmap string RateEntry * Handler Empty_set :=
  let '(allowed, rateLimitMap') :=
    checkRateLimit (Date_now E) (clientIp req) rateLimitMap in
  if negb allowed then (rateLimitMap', respond 429 ErrTooManyRequests)
  else (rateLimitMap', import_body E fuel req).

(** The events and the response of a run. *)
Definition events {A} (h : Handler A) : list Event := fst h.

Definition response {A} (h : Handler A) : option HttpResponse :=
  match snd h with
  | Sent r => Some r
  | _ => None
  end.

(** The 201 body of a run, when there is one. *)
Definition result {A} (h : Handler A) : option ImportResult :=
  match response h with
  | Some (mkResponse _ (ResultBody r)) => Some r
  | _ => None
  end.

(** The branch the handler downloads: [requestedBranch || parsed.branch]. *)
Definition effective_branch (req : Request) (parsed : RepoReference) : string :=
  or_else (body_branch req) (branch parsed).

(** The request passes steps 1 and 2 of the route: the locator parses, the
    metadata is fetched, is not [null], and the reported size is within the
    limit. *)
Record reaches_archive (E : Env) (req : Request) (parsed : RepoReference)
    (repoMeta : RepoMeta) : Prop := mkReaches {
  ra_url : truthy (or_else (body_repoUrl req) "") = true;
  ra_parsed : parseGitHubUrl (or_else (body_repoUrl req) "") = Some parsed;
  ra_meta :
    fetchJson E (metaUrl_of (owner parsed) (repo parsed)) (githubHeaders E)
    = Resolved (JsonValue repoMeta);
  ra_size : meta_size repoMeta * 1024 <= MAX_REPO_SIZE_BYTES E
}.

(** The addresses the handler gave to [fetchBuffer], in order. *)
Definition archive_fetches {A} (h : Handler A) : list string :=
  omap (fun e => match e with EvFetchBuffer url => Some url | _ => None end)
       (events h).

(** The environment with another content store. *)
Definition with_upload (E : Env)
    (upload : nat -> string -> list Byte.byte -> option CloudinaryResult) : Env :=
  mkEnv (env_MAX_REPO_SIZE_MB E) (env_GITHUB_TOKEN E) (Date_now E)
    (path_extname E) (path_basename E) (net E) (JSON_parse E)
    (AdmZip_getEntries E) upload (Container_findOne E) (randomBytes_hex E)
    (container_id E) (container_save E) (upload_Date_now E) (upload_random E).

(** The uploads that failed. *)
Definition failed_uploads (E : Env) (files : list ExtractedFile) : nat :=
  length (List.filter (fun o => match o with None => true | Some _ => false end)
            (outcomes E 0 files)).

(** ** Sample environments

    Concrete environments on which the route is evaluated in the examples
    below. *)

Module Sample.

(** [path.posix.basename] and [path.posix.extname] on relative paths
    without a trailing slash and without a [..] component. *)
Definition basename (p : string) : string := List.last (split slash p) "".

Fixpoint last_dot_suffix (s : string) : option string :=
  match s with
  | EmptyString => None
  | String c s' =>
      match last_dot_suffix s' with
      | Some x => Some x
      | None => if Ascii.eqb c dot then Some s else None
      end
  end.

Definition extname (p : string) : string :=
  match basename p with
  | EmptyString => ""
  | String _ rest =>
      match last_dot_suffix rest with
      | Some x => x
      | None => ""
      end
  end.

Definition bytes (s : string) : list Byte.byte := String.list_byte_of_string s.

Definition reply_ok (content : string) : NetReply :=
  Response (mkReply 200 None [bytes content] EndOk).

Definition reply_status (code : Z) : NetReply :=
  Response (mkReply code None [] EndOk).

Definition reply_redirect (code : Z) (target : string) : NetReply :=
  Response (mkReply code (Some target) [] EndOk).

Definition meta : RepoMeta := mkMeta 120 "a demo" 7 "JavaScript".

Definition dir (name : string) : ZipEntry := mkEntry name true 0 (Some []).

Definition file (name content : string) : ZipEntry :=
  mkEntry name false (Z.of_nat (String.length content)) (Some (bytes content)).

(** The archive of a small repository. *)
Definition entries : list ZipEntry :=
  [dir "demo-master/";
   file "demo-master/README.md" "# demo";
   dir "demo-master/src/";
   file "demo-master/src/app.js" "console.log(1)";
   file "demo-master/notes.exe" "MZ"].

(** An archive of [n] one-byte text files. *)
Definition many_entries (n : nat) : list ZipEntry :=
  dir "demo-master/"
  :: map (fun i => file ("demo-master/f" +:+ pretty i +:+ ".txt") "x") (seq 0 n).

Definition upload_ok (_ : nat) (publicId : string) (_ : list Byte.byte)
    : option CloudinaryResult :=
  Some (mkCloud ("kabada-uploads/" +:+ publicId)
                ("https://res.cloudinary.com/raw/upload/kabada-uploads/" +:+ publicId)).

Definition env (net : Proto -> string -> list (string * string) -> NetReply)
    (entries : list ZipEntry)
    (upload : nat -> string -> list Byte.byte -> option CloudinaryResult) : Env :=
  mkEnv None None 1700000000000 extname basename net
    (fun _ => Some (JsonValue meta)) (fun _ => Some entries) upload
    (fun _ => Some false)
    (fun n => if (n =? 6)%nat then "a1b2c3d4e5f6" else "0f0f0f")
    "65f0c0ffee" true
    (fun i => 1700000002000 + Z.of_nat i) (fun i => 104729 * Z.of_nat (S i)).

(** The repository [acme/demo] has no [main] branch; its [master]
    archive is served through a redirect. *)
Definition net_master_only (_ : Proto) (url : string)
    (_ : list (string * string)) : NetReply :=
  if String.eqb url "https://api.github.com/repos/acme/demo"
  then reply_ok "{}"
  else if String.eqb url "https://github.com/acme/demo/archive/refs/heads/master.zip"
  then reply_redirect 302 "https://codeload.github.com/acme/demo/zip/refs/heads/master"
  else if String.eqb url "https://codeload.github.com/acme/demo/zip/refs/heads/master"
  then reply_ok "PK"
  else reply_status 404.

Definition master_only : Env := env net_master_only entries upload_ok.

(** The metadata of [acme/demo] has moved: the API answers with a
    redirect to the new address. *)
Definition net_moved (_ : Proto) (url : string)
    (_ : list (string * string)) : NetReply :=
  if String.eqb url "https://api.github.com/repos/acme/demo"
  then reply_redirect 301 "https://api.github.com/repositories/42"
  else if String.eqb url "https://api.github.com/repositories/42"
  then reply_ok "{}"
  else reply_status 404.

Definition moved : Env := env net_moved entries upload_ok.

(** Every archive is served; the archive holds eleven files. *)
Definition net_all (_ : Proto) (url : string)
    (_ : list (string * string)) : NetReply :=
  reply_ok "PK".

Definition eleven : Env := env net_all (many_entries 11) upload_ok.

(** As [master_only] on a repository with [main], where the second
    upload fails. *)
Definition upload_second_fails (i : nat) (name : string) (b : list Byte.byte)
    : option CloudinaryResult :=
  if (i =? 1)%nat then None else upload_ok i name b.

Definition flaky : Env := env net_all entries upload_second_fails.

Definition request (url : string) (branch : option string) : Request :=
  mkRequest (Some "203.0.113.9") None (Some url) branch.

End Sample.

(** ** Definitions for the further properties *)

(** A branch as the parser builds it from a [/tree/] suffix: one or more
    non-empty segments joined by single slashes. *)
Definition segmented (b : string) : Prop :=
  exists segs,
    segs <> [] /\
    Forall (fun s => truthy s = true /\ slash_free s = true) segs /\
    b = join "/" segs.

(** The locator the route would print for a reference. *)
Definition canonical_url (r : RepoReference) : string :=
  "https://github.com/" +:+ owner r +:+ "/" +:+ repo r +:+ "/tree/" +:+ branch r.

(** The reply is final for [fetchBuffer]: not a 3xx with a non-empty
    [Location]. *)
Definition final_reply (r : HttpReply) : Prop :=
  ~ (300 <= statusCode r < 400) \/ location_truthy r = None.

(** The bytes of a list of chunks. *)
Definition body_size (cs : list (list Byte.byte)) : Z :=
  Z.of_nat (length (concat cs)).

(** Every count of the map is between 1 and the limit. *)
Definition counts_bounded (rateLimitMap : gmap string RateEntry) : Prop :=
  forall ip e, rateLimitMap !! ip = Some e -> 1 <= count e <= RATE_LIMIT_MAX.

(** [f] is the element of [files] that the loop builds from [entry]. *)
Record kept_of (E : Env) (rootPrefix : string) (entry : ZipEntry)
    (f : ExtractedFile) : Prop := mkKept {
  kept_file : isDirectory entry = false;
  kept_path :
    sanitizePath (strip_root rootPrefix (entryName entry)) = Some (relativePath f);
  kept_truthy : truthy (relativePath f) = true;
  kept_allowed : isBlockedFile E (relativePath f) = false;
  kept_declared : header_size entry <= MAX_SINGLE_FILE_BYTES;
  kept_data : getData entry = Some (buffer f);
  kept_size : size f = Z.of_nat (length (buffer f));
  kept_nonempty : 0 < size f;
  kept_name : filename f = path_basename E (relativePath f);
  kept_mime : mimetype f = getMimeType E (relativePath f)
}.

(** The header of the entry declares the size its data has. *)
Definition honest (entry : ZipEntry) : Prop :=
  forall data, getData entry = Some data ->
               header_size entry = Z.of_nat (length data).

(** The class [[a-zA-Z0-9_-]] kept by [uploadToCloudinary]. *)
Definition name_char (c : ascii) : bool :=
  is_letter c || is_digit c || Ascii.eqb c "_"%char || Ascii.eqb c "-"%char.

(** A character that may stand in an extension for [/\.[^/.]+$/]. *)
Definition ext_char (c : ascii) : bool :=
  negb (Ascii.eqb c slash || Ascii.eqb c dot).

(** The status codes the import route answers with. *)
Definition import_statuses : list Z := [201; 400; 404; 413; 429; 500].

(** The record of [container.files] that belongs to an extracted file. *)
Definition uploaded_of (f : ExtractedFile) (u : UploadedFile) : Prop :=
  up_relativePath u = relativePath f /\
  up_originalName u = filename f /\
  up_mimetype u = mimetype f /\
  up_size u = size f /\
  up_filename u = up_publicId u /\
  up_resourceType u = "raw".

(** The files whose upload resolved, each with what the content store
    handed back, in the order of the files; the first file is the [i]-th
    upload. *)
Fixpoint succeeded (E : Env) (i : nat) (fs : list ExtractedFile)
    : list (ExtractedFile * CloudinaryResult) :=
  match fs with
  | [] => []
  | f :: rest =>
      match uploadToCloudinary E i (buffer f) (filename f) with
      | Some result => (f, result) :: succeeded E (S i) rest
      | None => succeeded E (S i) rest
      end
  end.

(** The record of [container.files] for a file and the result of its
    upload: every field of the record is given. *)
Definition recorded (fr : ExtractedFile * CloudinaryResult) (u : UploadedFile)
    : Prop :=
  uploaded_of (fst fr) u /\
  up_publicId u = public_id (snd fr) /\
  up_path u = secure_url (snd fr).

(** Where the batches of [n] promises start: 0, 10, 20, ... below [n]. *)
Definition batch_indices (n : nat) : list nat :=
  map (fun k => (k * BATCH_SIZE)%nat) (seq 0 ((n + BATCH_SIZE - 1) / BATCH_SIZE)).

(** The handler answers, with one of the codes, and the answer is the
    result exactly when the code is 201. *)
Definition answers_with (codes : list Z) (h : Handler Empty_set) : Prop :=
  exists resp,
    snd h = Sent resp /\
    In (status resp) codes /\
    (status resp = 201 <-> exists r, body resp = ResultBody r).

(** ** Further sample environments *)

Module Cases.

(** Two addresses that redirect to each other. *)
Definition net_loop (_ : Proto) (url : string)
    (_ : list (string * string)) : NetReply :=
  if String.eqb url "https://a.example/x"
  then Sample.reply_redirect 302 "https://b.example/y"
  else if String.eqb url "https://b.example/y"
  then Sample.reply_redirect 301 "https://a.example/x"
  else Sample.reply_status 404.

Definition looping : Env := Sample.env net_loop Sample.entries Sample.upload_ok.

(** An address that redirects to one answering 204, and one answering
    302 without a [Location]. *)
Definition net_odd (_ : Proto) (url : string)
    (_ : list (string * string)) : NetReply :=
  if String.eqb url "https://a.example/x"
  then Sample.reply_redirect 302 "https://b.example/empty"
  else if String.eqb url "https://b.example/empty"
  then Sample.reply_status 204
  else Sample.reply_status 302.

Definition odd : Env := Sample.env net_odd Sample.entries Sample.upload_ok.

(** One byte more than a mebibyte. *)
Definition big_chunk : list Byte.byte := repeat Byte.x00 (Z.to_nat 1048577).

(** A server with a small archive and one larger than 1 MiB, sent in two
    chunks. *)
Definition net_sizes (_ : Proto) (url : string)
    (_ : list (string * string)) : NetReply :=
  if String.eqb url "https://a.example/small.zip"
  then Response (mkReply 200 None [Sample.bytes "PK"; Sample.bytes "data"] EndOk)
  else Response (mkReply 200 None [big_chunk; Sample.bytes "more"] EndError).

(** An environment whose limit is 1 MB. *)
Definition one_megabyte : Env :=
  mkEnv (Some 1) None 1700000000000 Sample.extname Sample.basename net_sizes
    (fun _ => Some (JsonValue Sample.meta)) (fun _ => Some Sample.entries)
    Sample.upload_ok
    (fun _ => Some false) (fun _ => "a1b2c3") "65f0c0ffee" true
    (fun _ => 1700000002000) (fun i => Z.of_nat i).

(** The API answers every request with the text [null]. *)
Definition null_metadata : Env :=
  mkEnv None None 1700000000000 Sample.extname Sample.basename Sample.net_all
    (fun _ => Some JsonNull) (fun _ => Some Sample.entries) Sample.upload_ok
    (fun _ => Some false) (fun _ => "a1b2c3") "65f0c0ffee" true
    (fun _ => 1700000002000) (fun i => Z.of_nat i).

(** A content store that refuses everything. *)
Definition upload_none (_ : nat) (_ : string) (_ : list Byte.byte)
    : option CloudinaryResult := None.

Definition refusing : Env := Sample.env Sample.net_all Sample.entries upload_none.

(** An archive of folders only. *)
Definition folders : list ZipEntry :=
  [Sample.dir "demo-main/"; Sample.dir "demo-main/src/"; Sample.dir "demo-main/docs/"].

Definition hollow : Env := Sample.env Sample.net_all folders Sample.upload_ok.

End Cases.

(** ** Info route: [router.get('/info')] *)

(** The body of the 200 response. *)
Record InfoResult := mkInfoResult {
  inf_owner : string;
  inf_repo : string;
  inf_branch : string;
  inf_description : string;
  inf_stars : Z;
  inf_forks : Z;
  inf_language : string;
  inf_size : Z;               (* KB *)
  inf_sizeHuman : string;
  inf_isTooBig : bool;
  inf_defaultBranch : string
}.

Inductive InfoError :=
| InfoUrlRequired            (* 'URL parameter is required' *)
| InfoInvalidUrl             (* 'Invalid GitHub URL' *)
| InfoFailed.                (* 'Failed to fetch repository info' *)

Inductive InfoBody :=
| InfoErrorBody (e : InfoError)
| InfoResultBody (r : InfoResult).

Record InfoResponse := mkInfoResponse {
  inf_status : Z;
  inf_body : InfoBody
}.

(** [Math.round(n / d)] for integers [n] and [d > 0]: the nearest
    integer, a half going up. *)
Definition Math_round_div (n d : Z) : Z := (2 * n + d) / (2 * d).

(** The handler of the route on [req.query.url]. [forks_count] and
    [default_branch] are the two fields of the parsed metadata that
    [RepoMeta] does not keep: [repoMeta.forks_count || 0] and
    [repoMeta.default_branch]. The result is the events and the response,
    [None] while the fetch has not settled. A number is printed in decimal
    (it is below 10^21). *)
Definition info (E : Env) (query_url : option string) (forks_count : Z)
    (default_branch : option string) : list Event * option InfoResponse :=
  let repoUrl := or_else query_url "" in
  if negb (truthy repoUrl)
  then ([], Some (mkInfoResponse 400 (InfoErrorBody InfoUrlRequired)))
  else
    match parseGitHubUrl repoUrl with
    | None => ([], Some (mkInfoResponse 400 (InfoErrorBody InfoInvalidUrl)))
    | Some parsed =>
        let url := metaUrl_of (owner parsed) (repo parsed) in
        match fetchJson E url (githubHeaders E) with
        | Pending => ([EvFetchJson url], None)
        | Rejected _ =>
            ([EvFetchJson url], Some (mkInfoResponse 500 (InfoErrorBody InfoFailed)))
        | Resolved JsonNull =>
            (* [repoMeta.description] throws a [TypeError] *)
            ([EvFetchJson url], Some (mkInfoResponse 500 (InfoErrorBody InfoFailed)))
        | Resolved (JsonValue repoMeta) =>
            ([EvFetchJson url],
             Some (mkInfoResponse 200 (InfoResultBody
               (mkInfoResult (owner parsed) (repo parsed) (branch parsed)
                  (meta_description repoMeta)
                  (meta_stargazers_count repoMeta)
                  forks_count
                  (meta_language repoMeta)
                  (meta_size repoMeta)
                  (pretty (Math_round_div (meta_size repoMeta) 1024) +:+ "MB")
                  (meta_size repoMeta * 1024 >? MAX_REPO_SIZE_BYTES E)
                  (or_else default_branch "main")))))
        end
    end.

(** * Theorems *)

(** ** Strings *)

#[local] Arguments String.append !s1 s2 : simpl nomatch.

Section StringFacts.

Lemma append_empty_r (s : string) : s +:+ "" = s.
Proof. induction s as [|c s IH]; simpl; [reflexivity | now rewrite IH]. Qed.

Lemma append_assoc (a b c : string) : (a +:+ b) +:+ c = a +:+ b +:+ c.
Proof. induction a as [|x a IH]; simpl; [reflexivity | now rewrite IH]. Qed.

Lemma forallb_string_impl (f g : ascii -> bool) (s : string) :
  (forall c, f c = true -> g c = true) ->
  forallb_string f s = true -> forallb_string g s = true.
Proof.
  intros Hfg. induction s as [|c s IH]; simpl; [reflexivity |].
  intros [Hc Hs]%andb_prop. rewrite (Hfg _ Hc). now apply IH.
Qed.

Lemma forallb_string_substring_to (f : ascii -> bool) (n : nat) (s : string) :
  forallb_string f s = true -> forallb_string f (substring_to n s) = true.
Proof.
  revert n. induction s as [|c s IH]; intros [|n]; simpl; try reflexivity.
  intros [Hc Hs]%andb_prop. rewrite Hc. now apply IH.
Qed.

Lemma length_substring_to (n : nat) (s : string) :
  (n <= String.length s)%nat -> String.length (substring_to n s) = n.
Proof.
  revert n. induction s as [|c s IH]; intros [|n]; simpl; intros H;
    try reflexivity; try lia.
  rewrite IH; lia.
Qed.

Lemma truthy_length (s : string) :
  truthy s = true <-> (0 < String.length s)%nat.
Proof. destruct s; simpl; split; intros; (lia || congruence). Qed.

Lemma truthy_append_r (a b : string) : truthy b = true -> truthy (a +:+ b) = true.
Proof. destruct a; simpl; auto. Qed.

(** *** Segments *)

Lemma split_nonempty (sep : ascii) (s : string) : split sep s <> [].
Proof.
  induction s as [|c s IH]; simpl; [discriminate |].
  destruct (Ascii.eqb c sep); [discriminate |].
  destruct (split sep s); discriminate.
Qed.

Lemma split_slash_free (s : string) :
  slash_free s = true -> split slash s = [s].
Proof.
  unfold slash_free.
  induction s as [|c s IH]; simpl; [reflexivity |].
  intros [Hc Hs]%andb_prop. unfold not_slash in Hc.
  apply negb_true_iff in Hc. rewrite Hc, (IH Hs). reflexivity.
Qed.

(** Splitting distributes over a separator. *)
Lemma split_append_sep (a b : string) :
  split slash (a +:+ String slash b) = split slash a ++ split slash b.
Proof.
  induction a as [|c a IH]; simpl.
  - reflexivity.
  - destruct (Ascii.eqb c slash).
    + now rewrite IH.
    + rewrite IH. pose proof (split_nonempty slash a) as Hne.
      destruct (split slash a); [contradiction | reflexivity].
Qed.

Lemma split_join (segs : list string) :
  segs <> [] -> Forall (fun s => slash_free s = true) segs ->
  split slash (join "/" segs) = segs.
Proof.
  induction segs as [|a [|b segs] IH]; intros Hne Hall.
  - contradiction.
  - simpl. apply split_slash_free. now inversion Hall.
  - inversion Hall as [|? ? Ha Hrest]; subst.
    change (join "/" (a :: b :: segs)) with (a +:+ String slash (join "/" (b :: segs))).
    rewrite split_append_sep, (split_slash_free a Ha), IH; [reflexivity | discriminate | assumption].
Qed.

(** [split] and [join] are inverse on the string side too. *)
Lemma join_split (s : string) : join "/" (split slash s) = s.
Proof.
  induction s as [|c s IH]; simpl; [reflexivity |].
  destruct (Ascii.eqb c slash) eqn:Hc.
  - apply Ascii.eqb_eq in Hc. subst c.
    pose proof (split_nonempty slash s) as Hne.
    destruct (split slash s) as [|seg rest]; [contradiction |].
    change (join "/" ("" :: seg :: rest)) with (String slash (join "/" (seg :: rest))).
    now rewrite IH.
  - pose proof (split_nonempty slash s) as Hne.
    destruct (split slash s) as [|seg rest]; [contradiction |].
    destruct rest as [|seg' rest]; simpl in *; now rewrite IH.
Qed.

Lemma filter_truthy_id (segs : list string) :
  Forall (fun s => truthy s = true) segs -> List.filter truthy segs = segs.
Proof.
  induction 1 as [|a segs Ha _ IH]; simpl; [reflexivity |].
  now rewrite Ha, IH.
Qed.

(** *** Trimming *)

Lemma trimEnd_append (p b : string) :
  truthy b = true -> trimEnd b = b -> trimEnd (p +:+ b) = p +:+ b.
Proof.
  intros Hb Ht. induction p as [|c p IH]; simpl; [exact Ht |].
  rewrite IH. destruct p; simpl; [|reflexivity].
  destruct b; [discriminate | reflexivity].
Qed.

Lemma trimEnd_no_space (s : string) :
  forallb_string (fun c => negb (is_space c)) s = true -> trimEnd s = s.
Proof.
  induction s as [|c s IH]; simpl; [reflexivity |].
  intros [Hc Hs]%andb_prop. rewrite (IH Hs).
  apply negb_true_iff in Hc. rewrite Hc. destruct s; reflexivity.
Qed.

(** *** Identifiers *)

Lemma ident_char_not_slash (c : ascii) : ident_char c = true -> not_slash c = true.
Proof.
  unfold not_slash. destruct (Ascii.eqb c slash) eqn:H; [|reflexivity].
  apply Ascii.eqb_eq in H. subst c. vm_compute. congruence.
Qed.

Lemma ident_char_not_space (c : ascii) :
  ident_char c = true -> negb (is_space c) = true.
Proof.
  destruct c as [[] [] [] [] [] [] [] []]; vm_compute; congruence.
Qed.

Lemma valid_slash_free (s : string) :
  validPattern_test s = true -> slash_free s = true.
Proof.
  unfold validPattern_test. intros [_ H]%andb_prop.
  eapply forallb_string_impl; [exact ident_char_not_slash | exact H].
Qed.

Lemma valid_truthy (s : string) : validPattern_test s = true -> truthy s = true.
Proof. unfold validPattern_test. now intros [H _]%andb_prop. Qed.

Lemma valid_trimEnd (s : string) : validPattern_test s = true -> trimEnd s = s.
Proof.
  unfold validPattern_test. intros [_ H]%andb_prop. apply trimEnd_no_space.
  eapply forallb_string_impl; [exact ident_char_not_space | exact H].
Qed.

(** Removing a [.git] suffix keeps a valid name valid, unless nothing is
    left. *)
Lemma valid_strip_dot_git (s : string) :
  validPattern_test s = true -> s <> ".git" ->
  validPattern_test (strip_dot_git s) = true.
Proof.
  intros Hv Hne. unfold strip_dot_git.
  destruct (endsWith ".git" s) eqn:He; [|exact Hv].
  unfold validPattern_test in *. apply andb_prop in Hv as [_ Hall].
  apply andb_true_intro. split.
  - apply truthy_length. unfold endsWith in He.
    apply andb_prop in He as [Hlen Heq].
    apply Nat.leb_le in Hlen. simpl in Hlen.
    rewrite length_substring_to by lia.
    destruct (Nat.eq_dec (String.length s) 4%nat) as [H4|H4]; [|lia].
    exfalso. apply Hne. rewrite H4 in Heq. simpl in Heq.
    now apply String.eqb_eq in Heq.
  - now apply forallb_string_substring_to.
Qed.

End StringFacts.

(** ** Reference parser *)

Section Parser.

Lemma trimStart_keep (c : ascii) (s : string) :
  is_space c = false -> trimStart (String c s) = String c s.
Proof. intros H. simpl. now rewrite H. Qed.

(** What is left of the function once the host prefix is removed. *)
Lemma parse_path (scheme path : string) :
  In scheme schemes ->
  truthy path = true -> trimEnd path = path ->
  parseGitHubUrl (scheme +:+ "github.com/" +:+ path) =
    let parts := List.filter truthy (split slash path) in
    if (length parts <? 2)%nat then None
    else
      let owner := nth 0 parts EmptyString in
      let repo := strip_dot_git (nth 1 parts EmptyString) in
      let branch :=
        if (4 <=? length parts)%nat && String.eqb (nth 2 parts EmptyString) "tree"
        then join "/" (skipn 3 parts)
        else "main" in
      if negb (validPattern_test owner) || negb (validPattern_test repo)
      then None
      else Some (mkRef owner repo branch).
Proof.
  intros Hs Hp Ht. unfold parseGitHubUrl.
  assert (Htrim : trim (scheme +:+ "github.com/" +:+ path)
                  = scheme +:+ "github.com/" +:+ path).
  { unfold trim.
    assert (H1 : trimStart (scheme +:+ "github.com/" +:+ path)
                 = scheme +:+ "github.com/" +:+ path).
    { unfold schemes in Hs.
      destruct Hs as [<-|[<-|[<-|[]]]]; apply trimStart_keep; reflexivity. }
    rewrite H1, <- !append_assoc. now apply trimEnd_append. }
  rewrite Htrim.
  assert (Hstrip : strip_protocol (scheme +:+ "github.com/" +:+ path)
                   = "github.com/" +:+ path).
  { unfold schemes in Hs. destruct Hs as [<-|[<-|[<-|[]]]]; reflexivity. }
  rewrite Hstrip. reflexivity.
Qed.

Lemma split_owner_repo (owner repo : string) :
  validPattern_test owner = true -> validPattern_test repo = true ->
  List.filter truthy (split slash (owner +:+ "/" +:+ repo)) = [owner; repo].
Proof.
  intros Ho Hr.
  change (owner +:+ "/" +:+ repo) with (owner +:+ String slash repo).
  rewrite split_append_sep, !split_slash_free by now apply valid_slash_free.
  simpl. now rewrite (valid_truthy _ Ho), (valid_truthy _ Hr).
Qed.

Lemma split_owner_repo_tree (owner repo : string) (segs : list string) :
  validPattern_test owner = true -> validPattern_test repo = true ->
  segs <> [] ->
  Forall (fun s => truthy s = true /\ slash_free s = true) segs ->
  List.filter truthy
    (split slash (owner +:+ "/" +:+ repo +:+ "/tree/" +:+ join "/" segs))
  = owner :: repo :: "tree" :: segs.
Proof.
  intros Ho Hr Hne Hall.
  change (owner +:+ "/" +:+ repo +:+ "/tree/" +:+ join "/" segs)
    with (owner +:+ String slash
            (repo +:+ String slash ("tree" +:+ String slash (join "/" segs)))).
  rewrite !split_append_sep.
  rewrite (split_slash_free owner), (split_slash_free repo)
    by now apply valid_slash_free.
  rewrite (split_slash_free "tree") by reflexivity.
  rewrite split_join; [|assumption|].
  - simpl. rewrite (valid_truthy _ Ho), (valid_truthy _ Hr).
    rewrite filter_truthy_id; [reflexivity |].
    eapply Forall_impl; [exact Hall|]. now intros ? [? _].
  - eapply Forall_impl; [exact Hall|]. now intros ? [_ ?].
Qed.

Lemma truthy_join (segs : list string) :
  segs <> [] -> Forall (fun s => truthy s = true /\ slash_free s = true) segs ->
  truthy (join "/" segs) = true.
Proof.
  intros Hne Hall. destruct segs as [|a segs]; [contradiction |].
  inversion Hall as [|? ? [Ha _] _]; subst.
  destruct segs; simpl; [assumption |]. destruct a; [discriminate | reflexivity].
Qed.

End Parser.

(** C7. For a locator [github.com/{owner}/{repo}] (with or without an
    [http://] or [https://] scheme) whose owner and repo are valid
    identifiers, [parseGitHubUrl] yields the branch ["main"]; for such a
    locator followed by [/tree/] and one or more slash-free, non-empty
    segments (the locator not ending in white space) it yields the segments
    rejoined with ["/"], so a single segment [b] yields [b]. *)
Theorem parse_branch (scheme owner repo : string) (segs : list string) :
  In scheme schemes ->
  validPattern_test owner = true ->
  validPattern_test repo = true ->
  repo <> ".git" ->
  parseGitHubUrl (scheme +:+ "github.com/" +:+ owner +:+ "/" +:+ repo)
    = Some (mkRef owner (strip_dot_git repo) "main")
  /\
  (segs <> [] ->
   Forall (fun s => truthy s = true /\ slash_free s = true) segs ->
   trimEnd (join "/" segs) = join "/" segs ->
   parseGitHubUrl
     (scheme +:+ "github.com/" +:+ owner +:+ "/" +:+ repo +:+ "/tree/" +:+ join "/" segs)
     = Some (mkRef owner (strip_dot_git repo) (join "/" segs))).
Proof.
  intros Hs Ho Hr Hgit.
  pose proof (valid_strip_dot_git _ Hr Hgit) as Hr'.
  split.
  - rewrite parse_path; [|assumption| |].
    + rewrite split_owner_repo by assumption. simpl.
      now rewrite Ho, Hr'.
    + apply truthy_append_r, truthy_append_r. now apply valid_truthy.
    + rewrite <- !append_assoc. apply trimEnd_append;
        [now apply valid_truthy | now apply valid_trimEnd].
  - intros Hne Hall Htrim.
    rewrite parse_path; [|assumption| |].
    + rewrite split_owner_repo_tree by assumption.
      destruct segs as [|b segs]; [contradiction |].
      cbn [length Nat.ltb Nat.leb nth skipn andb].
      change ((2 <? S (S (S (S (length segs)))))%nat) with true.
      simpl. now rewrite Ho, Hr'.
    + do 4 apply truthy_append_r. now apply truthy_join.
    + rewrite <- !append_assoc. apply trimEnd_append;
        [now apply truthy_join | assumption].
Qed.

(** C7, at a concrete locator with a branch name containing a slash. *)
Lemma parse_branch_witness :
  parseGitHubUrl "https://github.com/nodejs/node.git"
    = Some (mkRef "nodejs" "node" "main")
  /\ parseGitHubUrl "https://github.com/nodejs/node.git/tree/v20.x/staging"
    = Some (mkRef "nodejs" "node" "v20.x/staging").
Proof.
  pose proof (parse_branch "https://" "nodejs" "node.git" ["v20.x"; "staging"]) as H.
  destruct H as [H1 H2].
  - unfold schemes. simpl. tauto.
  - reflexivity.
  - reflexivity.
  - discriminate.
  - split; [exact H1 |]. apply H2.
    + discriminate.
    + repeat constructor.
    + reflexivity.
Defined.

(** ** Policy engine: paths *)

Section Paths.

Lemma join_middle (l1 l2 : list string) (seg : string) :
  join "/" (l1 ++ seg :: l2) =
    (match l1 with [] => "" | _ => join "/" l1 +:+ "/" end) +:+ seg +:+
    (match l2 with [] => "" | _ => "/" +:+ join "/" l2 end).
Proof.
  induction l1 as [|a l1 IH].
  - destruct l2; simpl; [now rewrite append_empty_r | reflexivity].
  - change (join "/" ((a :: l1) ++ seg :: l2))
      with (join "/" (a :: (l1 ++ seg :: l2))).
    assert (Hcons : forall x l, l <> [] -> join "/" (x :: l) = x +:+ "/" +:+ join "/" l).
    { intros x [|y l] H; [contradiction | reflexivity]. }
    rewrite Hcons by (destruct l1; discriminate).
    rewrite IH. destruct l1 as [|b l1].
    + simpl. now rewrite !append_assoc.
    + rewrite (Hcons a (b :: l1)) by discriminate.
      now rewrite !append_assoc.
Qed.

(** The segments of a path are exactly the slash-free pieces delimited
    by separators or by the ends of the string. *)
Lemma in_split_iff (seg s : string) :
  slash_free seg = true ->
  In seg (split slash s) <-> has_segment seg s.
Proof.
  intros Hseg. split.
  - intros Hin. apply in_split in Hin as (l1 & l2 & Hl).
    pose proof (join_split s) as Hj. rewrite Hl, join_middle in Hj.
    unfold has_segment. eexists _, _. split; [symmetry; exact Hj |]. split.
    + destruct l1; [now left | right; eauto].
    + destruct l2; [now left | right; eauto].
  - intros (pre & post & -> & Hpre & Hpost).
    assert (Htail : In seg (split slash (seg +:+ post))).
    { destruct Hpost as [-> | [q ->]].
      - rewrite append_empty_r, split_slash_free by assumption. now left.
      - change (seg +:+ "/" +:+ q) with (seg +:+ String slash q).
        rewrite split_append_sep, split_slash_free by assumption. now left. }
    destruct Hpre as [-> | [p0 ->]]; [exact Htail |].
    rewrite append_assoc.
    change (p0 +:+ "/" +:+ seg +:+ post) with (p0 +:+ String slash (seg +:+ post)).
    rewrite split_append_sep. apply in_or_app. now right.
Qed.

Lemma absolute_iff (s : string) :
  startsWith "/" s || drive_letter_test s = true <-> absolute s.
Proof.
  unfold absolute. split.
  - intros H. apply orb_prop in H as [H | H].
    + left. destruct s as [|c s]; [discriminate |]. cbn [startsWith] in H.
      apply andb_prop in H as [H _]. apply Ascii.eqb_eq in H. subst c. eauto.
    + right. destruct s as [|c [|d s]]; try discriminate.
      unfold drive_letter_test in H.
      apply andb_prop in H as [Hc Hd]. apply Ascii.eqb_eq in Hd. subst d. eauto.
  - intros [[r ->] | (c & r & Hc & ->)].
    + reflexivity.
    + unfold drive_letter_test. rewrite Hc, Ascii.eqb_refl. apply orb_true_r.
Qed.

Lemma existsb_dotdot (segments : list string) :
  existsb (fun s => String.eqb s "..") segments = true <-> In ".." segments.
Proof.
  rewrite existsb_exists. split.
  - intros (x & Hin & Hx). apply String.eqb_eq in Hx. now subst.
  - intros Hin. exists "..". split; [assumption | reflexivity].
Qed.

(** Normalizing leaves no backslash and keeps the length. *)
Lemma normalized_no_backslash (p : string) :
  forallb_string (fun c => negb (Ascii.eqb c backslash))
    (replace_all_char backslash slash p) = true.
Proof.
  induction p as [|c p IH]; simpl; [reflexivity |].
  rewrite IH, andb_true_r.
  destruct (Ascii.eqb c backslash) eqn:Hc; [reflexivity | now rewrite Hc].
Qed.

Lemma normalized_get (p : string) (i : nat) :
  String.get i (replace_all_char backslash slash p)
  = option_map (fun c => if Ascii.eqb c backslash then slash else c)
      (String.get i p).
Proof.
  revert i. induction p as [|c p IH]; intros [|i]; simpl; try reflexivity.
  apply IH.
Qed.

Lemma normalized_length (p : string) :
  String.length (replace_all_char backslash slash p) = String.length p.
Proof. induction p as [|c p IH]; simpl; [reflexivity | now rewrite IH]. Qed.

End Paths.

(** C6. For every path, with [n] the path after backslashes are replaced
    by slashes (every other character kept): [sanitizePath] returns the
    rejection value exactly when [n] is absolute (a leading slash, or a
    letter followed by a colon) or has a segment equal to [".."], and
    returns [n] otherwise. *)
Theorem sanitizePath_spec (filePath : string) :
  let n := replace_all_char backslash slash filePath in
  (forall i,
      String.get i n
      = option_map (fun c => if Ascii.eqb c backslash then slash else c)
          (String.get i filePath))
  /\ String.length n = String.length filePath
  /\ forallb_string (fun c => negb (Ascii.eqb c backslash)) n = true
  /\ ((sanitizePath filePath = None /\ (absolute n \/ has_segment ".." n))
      \/ (sanitizePath filePath = Some n /\ ~ absolute n /\ ~ has_segment ".." n)).
Proof.
  intros n.
  split; [apply normalized_get |].
  split; [apply normalized_length |]. split; [apply normalized_no_backslash |].
  unfold sanitizePath. fold n.
  destruct (startsWith "/" n || drive_letter_test n) eqn:Habs.
  - left. split; [reflexivity |]. left. now apply absolute_iff.
  - destruct (existsb (fun s => String.eqb s "..") (split slash n)) eqn:Hdd.
    + left. split; [reflexivity |]. right.
      apply in_split_iff; [reflexivity |]. now apply existsb_dotdot.
    + right. split; [reflexivity |]. split.
      * intros H%absolute_iff. congruence.
      * intros H%in_split_iff; [|reflexivity].
        apply existsb_dotdot in H. congruence.
Qed.

(** ** Rate limiter *)

Section RateLimiter.

Implicit Types (m : gmap string RateEntry) (ip : string) (now : Z).

Lemma check_opens now ip m :
  window_over now ip m ->
  checkRateLimit now ip m
    = (true, <[ip := mkEntryRL 1 (now + RATE_LIMIT_WINDOW)]> m).
Proof.
  intros Hover. unfold checkRateLimit.
  destruct (m !! ip) as [e|] eqn:He; [|reflexivity].
  specialize (Hover e He).
  destruct (Z.gtb_spec now (resetTime e)); [reflexivity | lia].
Qed.

Lemma check_counts now ip m e :
  m !! ip = Some e -> now <= resetTime e -> count e < RATE_LIMIT_MAX ->
  checkRateLimit now ip m
    = (true, <[ip := mkEntryRL (count e + 1) (resetTime e)]> m).
Proof.
  intros He Hnow Hc. unfold checkRateLimit. rewrite He.
  destruct (Z.gtb_spec now (resetTime e)); [lia |].
  destruct (Z.geb_spec (count e) RATE_LIMIT_MAX); [lia | reflexivity].
Qed.

Lemma check_denies now ip m e :
  m !! ip = Some e -> now <= resetTime e -> RATE_LIMIT_MAX <= count e ->
  checkRateLimit now ip m = (false, m).
Proof.
  intros He Hnow Hc. unfold checkRateLimit. rewrite He.
  destruct (Z.gtb_spec now (resetTime e)); [lia |].
  destruct (Z.geb_spec (count e) RATE_LIMIT_MAX); [reflexivity | lia].
Qed.

(** A check of one client leaves the entries of the others alone. *)
Lemma check_other now ip ip' m :
  ip <> ip' -> snd (checkRateLimit now ip m) !! ip' = m !! ip'.
Proof.
  intros Hne. unfold checkRateLimit.
  destruct (m !! ip) as [e|]; simpl.
  - destruct (now >? resetTime e); simpl; [now rewrite lookup_insert_ne |].
    destruct (count e >=? RATE_LIMIT_MAX); simpl; [reflexivity |].
    now rewrite lookup_insert_ne.
  - now rewrite lookup_insert_ne.
Qed.

(** The sweep keeps exactly the entries whose window is not over. *)
Lemma sweep_lookup now ip m e :
  sweep now m !! ip = Some e <-> m !! ip = Some e /\ now <= resetTime e.
Proof.
  unfold sweep. rewrite map_lookup_filter_Some. simpl.
  destruct (Z.gtb_spec now (resetTime e)); simpl; intuition (try lia; try done).
Qed.

End RateLimiter.

(** C8. With the limit of five per window: when a client's window opens
    at [t1] (no entry, or an expired one), five further checks at times not
    after [t1 + RATE_LIMIT_WINDOW] give, with the first, allow five times
    and then deny; a check at a time after the window gives allow and
    leaves the entry with count 1 and a new window. *)
Theorem rate_limit_window (m : gmap string RateEntry) (ip : string)
    (t1 t2 t3 t4 t5 t6 t7 : Z) :
  window_over t1 ip m ->
  Forall (fun t => t <= t1 + RATE_LIMIT_WINDOW) [t2; t3; t4; t5; t6] ->
  t7 > t1 + RATE_LIMIT_WINDOW ->
  RATE_LIMIT_MAX = 5 /\
  fst (check_sequence ip [t1; t2; t3; t4; t5; t6; t7] m)
    = [true; true; true; true; true; false; true] /\
  snd (check_sequence ip [t1; t2; t3; t4; t5; t6; t7] m) !! ip
    = Some (mkEntryRL 1 (t7 + RATE_LIMIT_WINDOW)).
Proof.
  intros Hopen Hin Hout.
  repeat match goal with
         | H : Forall _ (_ :: _) |- _ =>
             apply Forall_cons_1 in H; destruct H as [? H]
         end.
  split; [reflexivity |].
  unfold check_sequence.
  rewrite (check_opens _ _ _ Hopen).
  do 4 (erewrite check_counts;
        [| apply lookup_insert_eq | simpl; lia | simpl; unfold RATE_LIMIT_MAX; lia];
        cbn [count resetTime]; rewrite insert_insert_eq).
  erewrite check_denies;
    [| apply lookup_insert_eq | simpl; lia | simpl; unfold RATE_LIMIT_MAX; lia].
  rewrite check_opens.
  - simpl. split; [reflexivity |]. apply lookup_insert_eq.
  - intros e He. rewrite lookup_insert_eq in He. inversion He; subst. simpl. lia.
Qed.

(** C8, for a client seen for the first time at time 1000. *)
Lemma rate_limit_window_witness :
  RATE_LIMIT_MAX = 5 /\
  fst (check_sequence "10.0.0.7" [1000; 1001; 1500; 20000; 60999; 61000; 61001] ∅)
    = [true; true; true; true; true; false; true] /\
  snd (check_sequence "10.0.0.7" [1000; 1001; 1500; 20000; 60999; 61000; 61001] ∅)
    !! "10.0.0.7" = Some (mkEntryRL 1 (61001 + RATE_LIMIT_WINDOW)).
Proof.
  apply (rate_limit_window ∅ "10.0.0.7" 1000 1001 1500 20000 60999 61000 61001).
  - intros e He. rewrite lookup_empty in He. discriminate.
  - unfold RATE_LIMIT_WINDOW. repeat constructor; lia.
  - unfold RATE_LIMIT_WINDOW. lia.
Defined.

(** ** Remote fetcher *)

Section Fetcher.

Variable E : Env.
Variable headers : list (string * string).

Lemma fetchBuffer_hop (fuel : nat) (url target : string) :
  redirects E headers url target ->
  fetchBuffer E (S fuel) url headers = fetchBuffer E fuel target headers.
Proof.
  intros (r & Hnet & [Hlo Hhi] & Hloc & Ht). simpl. rewrite Hnet.
  destruct (Z.geb_spec (statusCode r) 300); [|lia].
  destruct (Z.ltb_spec (statusCode r) 400); [|lia].
  unfold location_truthy. now rewrite Hloc, Ht.
Qed.

(** A chain of [n] redirects costs [n] requests and is followed to its
    end. *)
Lemma fetchBuffer_chain (n fuel : nat) (url final : string) :
  redirect_chain E headers n url final ->
  fetchBuffer E (n + fuel) url headers = fetchBuffer E fuel final headers.
Proof.
  induction 1 as [|n url target final Hhop _ IH]; [reflexivity |].
  change (S n + fuel)%nat with (S (n + fuel)).
  now rewrite (fetchBuffer_hop _ _ _ Hhop).
Qed.

(** A reply that is not a redirect settles the promise at once. *)
Lemma fetchBuffer_ok (fuel : nat) (url : string) (r : HttpReply) :
  net E (proto_of url) url (buffer_options headers) = Response r ->
  statusCode r = 200 ->
  fetchBuffer E (S fuel) url headers
    = read_capped (MAX_REPO_SIZE_BYTES E) 0 [] (chunks r) (body_end r).
Proof. intros Hnet H200. simpl. now rewrite Hnet, H200. Qed.

Lemma fetchJson_rejects (url : string) (r : HttpReply) :
  net E (proto_of url) url (json_options headers) = Response r ->
  statusCode r <> 200 ->
  fetchJson E url headers = Rejected (HTTPStatus (statusCode r)).
Proof.
  intros Hnet Hne. unfold fetchJson. rewrite Hnet.
  destruct (Z.eqb_spec (statusCode r) 200); [contradiction | reflexivity].
Qed.

(** The body is kept whole when it fits the cap. *)
Lemma read_capped_fits (cap total : Z) (acc : list Byte.byte)
    (cs : list (list Byte.byte)) :
  total + Z.of_nat (length (concat cs)) <= cap ->
  read_capped cap total acc cs EndOk = Resolved (acc ++ concat cs).
Proof.
  revert total acc. induction cs as [|c cs IH]; intros total acc Hfit; simpl.
  - now rewrite app_nil_r.
  - simpl in Hfit. rewrite length_app in Hfit.
    destruct (Z.gtb_spec (total + Z.of_nat (length c)) cap); [lia |].
    rewrite IH by lia. now rewrite app_assoc.
Qed.

(** The promise rejects at the first chunk that takes the running size
    over the cap. *)
Lemma read_capped_exceeds (cap total : Z) (acc : list Byte.byte)
    (cs : list (list Byte.byte)) (fin : BodyEnd) :
  total <= cap ->
  total + Z.of_nat (length (concat cs)) > cap ->
  read_capped cap total acc cs fin = Rejected SizeExceeded.
Proof.
  revert total acc.
  induction cs as [|c cs IH]; intros total acc Hle Hbig; simpl.
  - simpl in Hbig. lia.
  - simpl in Hbig. rewrite length_app in Hbig.
    destruct (Z.gtb_spec (total + Z.of_nat (length c)) cap); [reflexivity |].
    apply IH; lia.
Qed.

End Fetcher.

(** C3, as the code has it. [fetchBuffer] follows redirects: when [n]
    replies with a 3xx status and a non-empty [Location] lead from [url] to
    [final], the fetch of [url] is the fetch of [final]. [fetchJson] does
    not: every reply whose status is not 200, a 3xx with a [Location]
    included, rejects with that status. *)
Theorem fetchers_redirects (E : Env) (headers : list (string * string))
    (url : string) :
  (forall n fuel final,
      redirect_chain E headers n url final ->
      fetchBuffer E (n + fuel) url headers = fetchBuffer E fuel final headers)
  /\
  (forall r,
      net E (proto_of url) url (json_options headers) = Response r ->
      statusCode r <> 200 ->
      fetchJson E url headers = Rejected (HTTPStatus (statusCode r))).
Proof.
  split.
  - intros n fuel final. apply fetchBuffer_chain.
  - apply fetchJson_rejects.
Qed.

(** C3, as the specification states it, fails for [fetchJson]: the API answers the
    metadata request with a 301 and a [Location]; [fetchBuffer] on the same
    address follows it, [fetchJson] rejects with the status although a
    fetch of the target resolves. *)
Lemma fetchJson_does_not_follow :
  let url := "https://api.github.com/repos/acme/demo" in
  let target := "https://api.github.com/repositories/42" in
  net Sample.moved (proto_of url) url (json_options [])
    = Response (mkReply 301 (Some target) [] EndOk)
  /\ fetchBuffer Sample.moved 2 url [] = fetchBuffer Sample.moved 1 target []
  /\ fetchJson Sample.moved target [] = Resolved (JsonValue Sample.meta)
  /\ fetchJson Sample.moved url [] = Rejected (HTTPStatus 301)
  /\ fetchJson Sample.moved url [] <> fetchJson Sample.moved target [].
Proof. repeat split; try reflexivity. discriminate. Qed.

(** C3, on the archive of a repository served through a redirect, and on
    a metadata request answered with a redirect. *)
Lemma fetchers_redirects_witness :
  fetchBuffer Sample.master_only 2
    "https://github.com/acme/demo/archive/refs/heads/master.zip" []
  = fetchBuffer Sample.master_only 1
      "https://codeload.github.com/acme/demo/zip/refs/heads/master" []
  /\ fetchJson Sample.moved "https://api.github.com/repos/acme/demo" []
     = Rejected (HTTPStatus 301).
Proof.
  split.
  - apply (proj1 (fetchers_redirects Sample.master_only []
              "https://github.com/acme/demo/archive/refs/heads/master.zip")
             1%nat 1%nat).
    eapply chain_hop; [|apply chain_end].
    eexists. split; [reflexivity |]. simpl. repeat split; lia.
  - apply (proj2 (fetchers_redirects Sample.moved []
              "https://api.github.com/repos/acme/demo")
             (mkReply 301 (Some "https://api.github.com/repositories/42") [] EndOk)).
    + reflexivity.
    + simpl. lia.
Defined.

(** ** Archive extractor *)

Section Extractor.

Variable E : Env.
Variable rootPrefix : string.

Lemma sum_sizes_snoc (fs : list ExtractedFile) (f : ExtractedFile) :
  sum_sizes (fs ++ [f]) = sum_sizes fs + size f.
Proof.
  unfold sum_sizes. induction fs as [|g fs IH]; simpl; [lia |].
  rewrite IH. lia.
Qed.

Lemma sanitizePath_truthy (p safePath : string) :
  truthy p = true -> sanitizePath p = Some safePath -> truthy safePath = true.
Proof.
  unfold sanitizePath. intros Hp H.
  destruct (startsWith "/" _ || drive_letter_test _); [discriminate |].
  destruct (existsb _ _); [discriminate |].
  inversion H; subst. destruct p; [discriminate | reflexivity].
Qed.

(** The value of [policy_rejects] once every check of the iteration has
    been decided. *)
Ltac decide_policy :=
  unfold policy_rejects;
  repeat match goal with
         | H : ?x = _ |- context [?x] => rewrite H
         end;
  reflexivity.

Lemma extract_entry_spec (st : Extraction) (entry : ZipEntry) :
  step_spec E rootPrefix st entry (extract_entry E rootPrefix st entry).
Proof.
  unfold extract_entry.
  destruct (isDirectory entry) eqn:Hdir.
  { apply step_silent. unfold candidate. now rewrite Hdir. }
  destruct (truthy (strip_root rootPrefix (entryName entry))) eqn:Hpath; simpl.
  2:{ apply step_silent. unfold candidate. now rewrite Hdir, Hpath. }
  assert (Hcand : candidate rootPrefix entry = true).
  { unfold candidate. now rewrite Hdir, Hpath. }
  destruct (sanitizePath _) as [safePath|] eqn:Hsafe.
  2:{ apply step_rejected; [assumption | decide_policy]. }
  rewrite (sanitizePath_truthy _ _ Hpath Hsafe). simpl.
  destruct (isBlockedFile E safePath) eqn:Hblocked.
  { apply step_rejected; [assumption | decide_policy]. }
  destruct (header_size entry >? MAX_SINGLE_FILE_BYTES) eqn:Hbig.
  { apply step_rejected; [assumption | decide_policy]. }
  destruct (Z.of_nat (length (files st)) >=? MAX_FILE_COUNT) eqn:Hfull.
  { apply step_rejected; [assumption | decide_policy]. }
  destruct (getData entry) as [data|] eqn:Hdata.
  2:{ apply step_thrown; [assumption | decide_policy | assumption]. }
  destruct (Z.of_nat (length data) =? 0) eqn:Hempty.
  { apply step_rejected; [assumption | decide_policy]. }
  apply (step_admitted E rootPrefix st entry
           (mkFile safePath (path_basename E safePath) data
              (Z.of_nat (length data)) (getMimeType E safePath)));
    simpl; try assumption; try reflexivity.
  - decide_policy.
  - apply Z.eqb_neq in Hempty. lia.
Qed.

Lemma invariant_step (seen : list ZipEntry) (st st' : Extraction)
    (entry : ZipEntry) :
  invariant rootPrefix seen st ->
  extract_entry E rootPrefix st entry = Continued st' ->
  invariant rootPrefix (seen ++ [entry]) st'.
Proof.
  intros [Hc Hs Hz Hn] Hstep.
  pose proof (extract_entry_spec st entry) as Hspec. rewrite Hstep in Hspec.
  inversion Hspec; subst; clear Hspec.
  - split; try assumption.
    rewrite List.filter_app, length_app. simpl.
    match goal with H : candidate _ _ = false |- _ => rewrite H end.
    simpl. lia.
  - split; simpl; try assumption.
    rewrite List.filter_app, length_app. simpl.
    match goal with H : candidate _ _ = true |- _ => rewrite H end.
    simpl. lia.
  - match goal with
    | Hrej : policy_rejects _ _ _ _ = false,
      Hpath : sanitizePath _ = Some _ |- _ =>
        unfold policy_rejects in Hrej; rewrite Hpath in Hrej;
        apply orb_false_elim in Hrej as [Hrej _];
        apply orb_false_elim in Hrej as [_ Hfull]
    end.
    destruct (Z.geb_spec (Z.of_nat (length (files st))) MAX_FILE_COUNT);
      [discriminate |].
    split; simpl.
    + rewrite length_app. simpl. lia.
    + rewrite List.filter_app, !length_app. simpl.
      match goal with H : candidate _ _ = true |- _ => rewrite H end.
      simpl. lia.
    + rewrite sum_sizes_snoc. lia.
    + apply Forall_app. split; [assumption |]. now repeat constructor.
Qed.

(** The loop keeps the invariant; when it ends without an exception it
    has seen every entry. *)
Lemma extract_loop_invariant (entries seen : list ZipEntry) (st : Extraction) :
  invariant rootPrefix seen st ->
  exists seen',
    invariant rootPrefix seen' (fst (extract_loop E rootPrefix st entries)) /\
    (snd (extract_loop E rootPrefix st entries) = false ->
     seen' = seen ++ entries).
Proof.
  revert seen st. induction entries as [|entry rest IH]; intros seen st Hinv; simpl.
  - exists seen. split; [assumption |]. intros _. now rewrite app_nil_r.
  - destruct (extract_entry E rootPrefix st entry) as [st'|] eqn:Hstep.
    + destruct (IH _ _ (invariant_step _ _ _ _ Hinv Hstep)) as (seen' & Hinv' & Hall).
      exists seen'. split; [assumption |].
      intros H. rewrite (Hall H), <- app_assoc. reflexivity.
    + exists seen. split; [assumption |]. discriminate.
Qed.

End Extractor.

Lemma extract_invariant (E : Env) (entries : list ZipEntry) :
  exists seen,
    invariant (rootPrefix_of entries) seen (fst (extract E entries)) /\
    (snd (extract E entries) = false -> seen = entries).
Proof.
  unfold extract.
  destruct (extract_loop_invariant E (rootPrefix_of entries) entries []
              (mkExtraction [] 0 0)) as (seen & Hinv & Hall).
  - split; simpl; try reflexivity; try constructor. unfold MAX_FILE_COUNT. lia.
  - exists seen. split; [assumption |]. exact Hall.
Qed.

(** C5. For every archive, the loop leaves at most [MAX_FILE_COUNT] = 500
    files in [files]; an entry that reaches the policy engine and fails one
    of its checks (the count limit included) leaves [files] and [totalSize]
    as they are and adds exactly one to [skippedCount]; and when the loop
    ends, every entry that reached the policy engine is either in [files] or
    counted in [skippedCount]. *)
Theorem extraction_bounded (E : Env) (entries : list ZipEntry) :
  let rootPrefix := rootPrefix_of entries in
  MAX_FILE_COUNT = 500
  /\ Z.of_nat (length (files (fst (extract E entries)))) <= MAX_FILE_COUNT
  /\ (forall st entry,
        candidate rootPrefix entry = true ->
        policy_rejects E rootPrefix (length (files st)) entry = true ->
        extract_entry E rootPrefix st entry
          = Continued (mkExtraction (files st) (totalSize st) (skippedCount st + 1)))
  /\ (forall st entry,
        candidate rootPrefix entry = true ->
        MAX_FILE_COUNT <= Z.of_nat (length (files st)) ->
        extract_entry E rootPrefix st entry
          = Continued (mkExtraction (files st) (totalSize st) (skippedCount st + 1)))
  /\ (snd (extract E entries) = false ->
      Z.of_nat (length (files (fst (extract E entries))))
      + skippedCount (fst (extract E entries))
      = Z.of_nat (length (List.filter (candidate rootPrefix) entries))).
Proof.
  intros rootPrefix.
  destruct (extract_invariant E entries) as (seen & [Hc Hs _ _] & Hall).
  assert (Hrejected : forall st entry,
             candidate rootPrefix entry = true ->
             policy_rejects E rootPrefix (length (files st)) entry = true ->
             extract_entry E rootPrefix st entry = Continued (skip st)).
  { intros st entry Hcand Hrej.
    destruct (extract_entry_spec E rootPrefix st entry); congruence. }
  repeat split.
  - exact Hc.
  - exact Hrejected.
  - intros st entry Hcand Hfull. apply Hrejected; [assumption |].
    unfold policy_rejects. destruct (sanitizePath _); [|reflexivity].
    destruct (Z.geb_spec (Z.of_nat (length (files st))) MAX_FILE_COUNT); [|lia].
    now rewrite !orb_true_r.
  - intros Hdone. rewrite (Hall Hdone) in Hs. exact Hs.
Qed.

(** C5, on the archive of the sample repository: the blocked file is
    skipped and counted, and so is a file met when 500 are already kept. *)
Lemma extraction_bounded_witness :
  let E := Sample.master_only in
  let kept := mkFile "a.txt" "a.txt" [Byte.x61] 1 "text/plain" in
  let full := mkExtraction (repeat kept 500) 500 0 in
  Z.of_nat (length (files (fst (extract E Sample.entries)))) <= MAX_FILE_COUNT
  /\ extract_entry E "demo-master/" (mkExtraction [] 0 0)
       (Sample.file "demo-master/notes.exe" "MZ")
     = Continued (mkExtraction [] 0 1)
  /\ extract_entry E "demo-master/" full (Sample.file "demo-master/b.txt" "b")
     = Continued (mkExtraction (repeat kept 500) 500 1)
  /\ Z.of_nat (length (files (fst (extract E Sample.entries))))
     + skippedCount (fst (extract E Sample.entries)) = 3.
Proof.
  intros E kept full.
  destruct (extraction_bounded E Sample.entries) as (_ & Hle & Hrej & Hfull & Hall).
  split; [exact Hle |]. split; [|split].
  - apply (Hrej (mkExtraction [] 0 0)); reflexivity.
  - apply (Hfull full); [reflexivity |].
    unfold full. cbn [files]. rewrite repeat_length. unfold MAX_FILE_COUNT. lia.
  - apply (Hall eq_refl).
Defined.

(** ** Bulk uploader and orchestrator *)

Section Uploader.

Variable E : Env.

Lemma start_uploads_spec (i : nat) (fs : list ExtractedFile) :
  start_uploads E i fs
    = (map EvUploadIssued (seq i (length fs)), Next (outcomes E i fs)).
Proof.
  revert i. induction fs as [|f fs IH]; intros i; simpl; [reflexivity |].
  rewrite IH. simpl. now rewrite app_nil_r.
Qed.

Lemma outcomes_length (i : nat) (fs : list ExtractedFile) :
  length (outcomes E i fs) = length fs.
Proof. revert i. induction fs as [|f fs IH]; intros i; simpl; [reflexivity | now rewrite IH]. Qed.

Lemma filter_Boolean_app {A} (l1 l2 : list (option A)) :
  filter_Boolean (l1 ++ l2) = filter_Boolean l1 ++ filter_Boolean l2.
Proof.
  induction l1 as [|[a|] l1 IH]; simpl; [reflexivity | now rewrite IH | exact IH].
Qed.

Lemma slice_batch {A} (i : nat) (l : list A) :
  slice i (i + BATCH_SIZE) l ++ skipn (i + BATCH_SIZE) l = skipn i l.
Proof.
  unfold slice. replace (i + BATCH_SIZE - i)%nat with BATCH_SIZE by lia.
  rewrite (Nat.add_comm i), <- skipn_skipn. apply firstn_skipn.
Qed.

Lemma await_batches_spec (fuel i : nat) (ps : list (option UploadedFile))
    (acc : list UploadedFile) :
  (length ps - i <= fuel * BATCH_SIZE)%nat ->
  await_batches fuel i ps acc
    = (map EvBatchAwaited (batch_starts fuel i (length ps)),
       Next (acc ++ filter_Boolean (skipn i ps))).
Proof.
  revert i acc. induction fuel as [|fuel IH]; intros i acc Hfuel.
  - simpl. destruct (Nat.ltb_spec i (length ps)); [lia |].
    rewrite skipn_all2 by lia. unfold ret. now rewrite app_nil_r.
  - cbn [await_batches batch_starts].
    destruct (Nat.ltb_spec i (length ps)).
    + unfold bind, emit. rewrite IH by (unfold BATCH_SIZE in *; lia).
      simpl. rewrite <- app_assoc, <- filter_Boolean_app, slice_batch. reflexivity.
    + rewrite skipn_all2 by lia. unfold ret. now rewrite app_nil_r.
Qed.

Lemma upload_files_spec (fs : list ExtractedFile) :
  upload_files E fs
    = (map EvUploadIssued (seq 0 (length fs))
         ++ map EvBatchAwaited (batch_starts (length fs) 0 (length fs)),
       Next (filter_Boolean (outcomes E 0 fs))).
Proof.
  unfold upload_files. rewrite start_uploads_spec. unfold bind.
  rewrite await_batches_spec by (unfold BATCH_SIZE; lia).
  now rewrite outcomes_length.
Qed.

End Uploader.

Section Download.

Variable E : Env.
Variable fuel : nat.

Lemma download_archive_spec (owner repo branch : string) :
  download_spec E fuel owner repo branch
    (download_archive E fuel owner repo branch).
Proof.
  unfold download_archive.
  destruct (fetchBuffer E fuel (zipUrl_of owner repo branch) (githubHeaders E))
    as [zipBuffer|e|] eqn:H1; simpl.
  - now apply download_first.
  - destruct (String.eqb_spec branch "main") as [Hb|Hb].
    + destruct (fetchBuffer E fuel (masterUrl_of owner repo) (githubHeaders E))
        as [zipBuffer|e2|] eqn:H2; simpl.
      * now apply (download_fallback _ _ _ _ _ e).
      * now apply (download_fallback_fails _ _ _ _ _ e e2).
      * now apply (download_fallback_hangs _ _ _ _ _ e).
    + now apply (download_fails _ _ _ _ _ e).
  - now apply download_hangs.
Qed.

End Download.

Section Stages.

Variable E : Env.
Variable fuel : nat.

Lemma download_archive_result (owner repo branch : string) (r : ImportResult) :
  result (download_archive E fuel owner repo branch) <> Some r.
Proof.
  destruct (download_archive_spec E fuel owner repo branch); discriminate.
Qed.

(** Once steps 1 and 2 are passed the handler is the archive stage
    followed by the rest. *)
Lemma import_body_archive (req : Request) (parsed : RepoReference)
    (repoMeta : RepoMeta) :
  reaches_archive E req parsed repoMeta ->
  import_body E fuel req =
    let* _ := emit (EvFetchJson (metaUrl_of (owner parsed) (repo parsed))) in
    let* zipBuffer :=
      download_archive E fuel (owner parsed) (repo parsed)
        (effective_branch req parsed) in
    process_archive E (owner parsed) (repo parsed)
      (effective_branch req parsed) repoMeta zipBuffer.
Proof.
  intros [Hurl Hparsed Hmeta Hsize]. unfold import_body.
  rewrite Hurl, Hparsed. cbn [negb]. rewrite Hmeta.
  assert (Hgt : (meta_size repoMeta * 1024 >? MAX_REPO_SIZE_BYTES E) = false).
  { destruct (Z.gtb_spec (meta_size repoMeta * 1024) (MAX_REPO_SIZE_BYTES E));
      [lia | reflexivity]. }
  unfold effective_branch. simpl. rewrite Hgt.
  destruct (download_archive _ _ _ _ _) as [l [zipBuffer|resp|]]; simpl;
    try reflexivity.
  now destruct (process_archive _ _ _ _ _ _).
Qed.

(** A run that ends with the 201 response went through every stage. *)
Lemma import_body_result (req : Request) (r : ImportResult) :
  result (import_body E fuel req) = Some r ->
  exists parsed repoMeta zipBuffer,
    reaches_archive E req parsed repoMeta /\
    snd (download_archive E fuel (owner parsed) (repo parsed)
           (effective_branch req parsed)) = Next zipBuffer /\
    result (process_archive E (owner parsed) (repo parsed)
              (effective_branch req parsed) repoMeta zipBuffer) = Some r.
Proof.
  unfold import_body.
  destruct (truthy (or_else (body_repoUrl req) "")) eqn:Hurl; [|discriminate].
  cbn [negb].
  destruct (parseGitHubUrl _) as [parsed|] eqn:Hparsed; [|discriminate].
  destruct (fetchJson E _ _) as [[|repoMeta]|e|] eqn:Hmeta; simpl; try discriminate.
  destruct (Z.gtb_spec (meta_size repoMeta * 1024) (MAX_REPO_SIZE_BYTES E)) as [Hgt|Hgt];
    [discriminate |].
  intros H. exists parsed, repoMeta.
  fold (effective_branch req parsed) in H.
  destruct (download_archive E fuel (owner parsed) (repo parsed)
              (effective_branch req parsed)) as [l [zipBuffer|resp|]] eqn:Hd;
    simpl in H.
  - exists zipBuffer. split; [now split |]. split; [reflexivity |].
    destruct (process_archive _ _ _ _ _ _) as [l' o]. exact H.
  - exfalso. eapply download_archive_result. rewrite Hd. exact H.
  - discriminate.
Qed.

Lemma process_archive_result (owner repo branch : string) (repoMeta : RepoMeta)
    (zipBuffer : list Byte.byte) (r : ImportResult) :
  result (process_archive E owner repo branch repoMeta zipBuffer) = Some r ->
  exists entries existing,
    AdmZip_getEntries E zipBuffer = Some entries /\
    snd (extract E entries) = false /\
    Container_findOne E (containerName_of owner repo) = Some existing /\
    r = mkResult (container_id E)
          (if existing : bool
           then containerName_of owner repo +:+ "-" +:+ randomBytes_hex E 3
           else containerName_of owner repo)
          (randomBytes_hex E 6)
          ("#/sandbox/" +:+ container_id E)
          (Z.of_nat (length (filter_Boolean
                               (outcomes E 0 (files (fst (extract E entries)))))))
          (skippedCount (fst (extract E entries)))
          (totalSize (fst (extract E entries)))
          (mkInfo owner repo branch (meta_description repoMeta)
             (meta_stargazers_count repoMeta) (meta_language repoMeta)).
Proof.
  unfold process_archive.
  destruct (AdmZip_getEntries E zipBuffer) as [entries|]; [|discriminate].
  destruct (extract E entries) as [ex [|]] eqn:Hex; [discriminate |].
  destruct (Z.of_nat (length (files ex)) =? 0); [discriminate |].
  destruct (Container_findOne E _) as [existing|] eqn:Hfind; [|discriminate].
  rewrite upload_files_spec. simpl.
  destruct (Z.of_nat (length (filter_Boolean (outcomes E 0 (files ex)))) =? 0);
    [discriminate |].
  destruct (container_save E); [|discriminate].
  simpl. intros H. inversion H; subst.
  exists entries, existing. rewrite Hex. simpl. auto.
Qed.

End Stages.

(** ** Orchestrator: what does not depend on the content store *)

Section Independence.

Variable E : Env.
Variable upload : nat -> string -> list Byte.byte -> option CloudinaryResult.

Lemma fetchBuffer_with_upload (fuel : nat) (url : string)
    (headers : list (string * string)) :
  fetchBuffer (with_upload E upload) fuel url headers
  = fetchBuffer E fuel url headers.
Proof.
  revert url. induction fuel as [|fuel IH]; intros url; simpl; [reflexivity |].
  destruct (net E _ _ _) as [|r]; [reflexivity |].
  destruct (if _ : bool then location_truthy r else None); [apply IH | reflexivity].
Qed.

Lemma download_archive_with_upload (fuel : nat) (owner repo branch : string) :
  download_archive (with_upload E upload) fuel owner repo branch
  = download_archive E fuel owner repo branch.
Proof.
  unfold download_archive.
  change (githubHeaders (with_upload E upload)) with (githubHeaders E).
  now rewrite !fetchBuffer_with_upload.
Qed.

Lemma extract_with_upload (entries : list ZipEntry) :
  extract (with_upload E upload) entries = extract E entries.
Proof.
  unfold extract. generalize (mkExtraction [] 0 0) as st.
  generalize (rootPrefix_of entries) as rootPrefix.
  induction entries as [|entry rest IH]; intros rootPrefix st; simpl; [reflexivity |].
  change (extract_entry (with_upload E upload) rootPrefix st entry)
    with (extract_entry E rootPrefix st entry).
  destruct (extract_entry E rootPrefix st entry); [apply IH | reflexivity].
Qed.

Lemma reaches_archive_with_upload (req : Request) (parsed : RepoReference)
    (repoMeta : RepoMeta) :
  reaches_archive (with_upload E upload) req parsed repoMeta ->
  reaches_archive E req parsed repoMeta.
Proof. intros [H1 H2 H3 H4]. now split. Qed.

End Independence.

Lemma reaches_archive_unique (E : Env) (req : Request)
    (parsed parsed' : RepoReference) (repoMeta repoMeta' : RepoMeta) :
  reaches_archive E req parsed repoMeta ->
  reaches_archive E req parsed' repoMeta' ->
  parsed = parsed' /\ repoMeta = repoMeta'.
Proof.
  intros [_ Hp Hm _] [_ Hp' Hm' _].
  rewrite Hp in Hp'. inversion Hp'; subst.
  rewrite Hm in Hm'. inversion Hm'; subst. now split.
Qed.

Lemma length_filter_Boolean {A} (l : list (option A)) :
  (length (filter_Boolean l)
   + length (List.filter (fun o => match o with None => true | Some _ => false end) l)
   = length l)%nat.
Proof.
  induction l as [|[a|] l IH]; simpl; [reflexivity | |]; lia.
Qed.

(** A run that ends with the 201 response, and what the response is. *)
Lemma import_body_created (E : Env) (fuel : nat) (req : Request) (r : ImportResult) :
  result (import_body E fuel req) = Some r ->
  exists parsed repoMeta zipBuffer entries existing,
    reaches_archive E req parsed repoMeta /\
    snd (download_archive E fuel (owner parsed) (repo parsed)
           (effective_branch req parsed)) = Next zipBuffer /\
    AdmZip_getEntries E zipBuffer = Some entries /\
    snd (extract E entries) = false /\
    Container_findOne E (containerName_of (owner parsed) (repo parsed))
      = Some existing /\
    r = mkResult (container_id E)
          (if existing : bool
           then containerName_of (owner parsed) (repo parsed)
                +:+ "-" +:+ randomBytes_hex E 3
           else containerName_of (owner parsed) (repo parsed))
          (randomBytes_hex E 6)
          ("#/sandbox/" +:+ container_id E)
          (Z.of_nat (length (filter_Boolean
                               (outcomes E 0 (files (fst (extract E entries)))))))
          (skippedCount (fst (extract E entries)))
          (totalSize (fst (extract E entries)))
          (mkInfo (owner parsed) (repo parsed) (effective_branch req parsed)
             (meta_description repoMeta) (meta_stargazers_count repoMeta)
             (meta_language repoMeta)).
Proof.
  intros H.
  apply import_body_result in H as (parsed & repoMeta & zipBuffer & Hra & Hd & H).
  apply process_archive_result in H as (entries & existing & Hzip & Hex & Hfind & ->).
  exists parsed, repoMeta, zipBuffer, entries, existing. auto 10.
Qed.

Section Fetches.

Variable E : Env.

Lemma archive_fetches_uploads {A} (issues batches : list nat) (o : Outcome A) :
  archive_fetches (map EvUploadIssued issues ++ map EvBatchAwaited batches, o) = [].
Proof.
  unfold archive_fetches, events. simpl. rewrite omap_app.
  assert (H1 : omap (fun e => match e with EvFetchBuffer url => Some url | _ => None end)
                 (map EvUploadIssued issues) = []).
  { induction issues; simpl; [reflexivity | assumption]. }
  assert (H2 : omap (fun e => match e with EvFetchBuffer url => Some url | _ => None end)
                 (map EvBatchAwaited batches) = []).
  { induction batches; simpl; [reflexivity | assumption]. }
  now rewrite H1, H2.
Qed.

(** Steps 4 to 7 fetch nothing. *)
Lemma process_archive_fetches (owner repo branch : string) (repoMeta : RepoMeta)
    (zipBuffer : list Byte.byte) :
  archive_fetches (process_archive E owner repo branch repoMeta zipBuffer) = [].
Proof.
  unfold process_archive.
  destruct (AdmZip_getEntries E zipBuffer) as [entries|]; [|reflexivity].
  destruct (extract E entries) as [ex [|]]; [reflexivity |].
  destruct (Z.of_nat (length (files ex)) =? 0); [reflexivity |].
  destruct (Container_findOne E _) as [existing|]; [|reflexivity].
  rewrite upload_files_spec. simpl.
  destruct (Z.of_nat (length (filter_Boolean (outcomes E 0 (files ex)))) =? 0);
    [|destruct (container_save E)]; simpl; rewrite app_nil_r;
    apply archive_fetches_uploads.
Qed.

Lemma archive_fetches_bind {A B} (c : Handler A) (k : A -> Handler B) :
  archive_fetches (bind c k)
  = archive_fetches c ++
    match snd c with
    | Next a => archive_fetches (k a)
    | _ => []
    end.
Proof.
  destruct c as [l [a|resp|]]; simpl.
  - destruct (k a) as [l' o] eqn:Hk. unfold archive_fetches, events. simpl.
    apply omap_app.
  - now rewrite app_nil_r.
  - now rewrite app_nil_r.
Qed.

End Fetches.

(** C2, as the code has it. When the first archive fetch fails, the
    handler fetches the [master] archive exactly when the branch it
    downloads is the string ["main"], whether that string was defaulted or
    supplied by the caller; for any other branch it makes no further fetch
    and answers 404 with a branch-not-found error. *)
Theorem fallback_iff_main (E : Env) (fuel : nat) (req : Request)
    (parsed : RepoReference) (repoMeta : RepoMeta) (e : FetchError) :
  let owner := owner parsed in
  let repo := repo parsed in
  let branch := effective_branch req parsed in
  reaches_archive E req parsed repoMeta ->
  fetchBuffer E fuel (zipUrl_of owner repo branch) (githubHeaders E) = Rejected e ->
  archive_fetches (import_body E fuel req)
    = (if String.eqb branch "main"
       then [zipUrl_of owner repo branch; masterUrl_of owner repo]
       else [zipUrl_of owner repo branch])
  /\ (branch <> "main" ->
      response (import_body E fuel req)
        = Some (mkResponse 404 (ErrorBody (ErrBranchNotFound branch false))))
  /\ (forall e2,
        branch = "main" ->
        fetchBuffer E fuel (masterUrl_of owner repo) (githubHeaders E) = Rejected e2 ->
        response (import_body E fuel req)
          = Some (mkResponse 404 (ErrorBody (ErrBranchNotFound branch true)))).
Proof.
  intros owner repo branch Hra Hfail.
  rewrite (import_body_archive E fuel req parsed repoMeta Hra).
  fold owner repo branch.
  assert (Hresp : forall c : Handler (list Byte.byte),
             response (let* _ := emit (EvFetchJson (metaUrl_of owner repo)) in
                       let* zipBuffer := c in
                       process_archive E owner repo branch repoMeta zipBuffer)
             = match snd c with
               | Next zipBuffer =>
                   response (process_archive E owner repo branch repoMeta zipBuffer)
               | Sent resp => Some resp
               | Hang => None
               end).
  { intros [l [zipBuffer|resp|]]; simpl; try reflexivity.
    now destruct (process_archive _ _ _ _ _ _). }
  rewrite Hresp, !archive_fetches_bind. simpl.
  destruct (download_archive_spec E fuel owner repo branch)
    as [zipBuffer H1|e1 zipBuffer H1 Hb H2|e1 e2 H1 Hb H2|e1 H1 Hb|H1|e1 H1 Hb H2];
    try congruence; simpl; rewrite ?process_archive_fetches.
  - rewrite Hb. simpl. repeat split; try reflexivity; intros; congruence.
  - rewrite Hb. simpl. repeat split; try reflexivity; intros; congruence.
  - pose proof Hb as Hb'. apply String.eqb_neq in Hb'. rewrite Hb'.
    repeat split; try reflexivity; intros; congruence.
  - rewrite Hb. simpl. repeat split; try reflexivity; intros; congruence.
Qed.

(** C2, as the specification states it, fails on a branch the caller supplied that
    happens to be ["main"]: in the request body, or as a [/tree/main]
    suffix of the locator. The first fetch fails, and the handler fetches
    the [master] archive and answers 201. *)
Lemma explicit_main_falls_back :
  let main := "https://github.com/acme/demo/archive/refs/heads/main.zip" in
  let master := "https://github.com/acme/demo/archive/refs/heads/master.zip" in
  let in_body := Sample.request "https://github.com/acme/demo" (Some "main") in
  let in_url := Sample.request "https://github.com/acme/demo/tree/main" None in
  body_branch in_body = Some "main"
  /\ fetchBuffer Sample.master_only 3 main [] = Rejected (HTTPStatus 404)
  /\ archive_fetches (snd (import Sample.master_only 3 ∅ in_body)) = [main; master]
  /\ option_map status (response (snd (import Sample.master_only 3 ∅ in_body))) = Some 201
  /\ archive_fetches (snd (import Sample.master_only 3 ∅ in_url)) = [main; master]
  /\ option_map status (response (snd (import Sample.master_only 3 ∅ in_url))) = Some 201.
Proof. vm_compute. repeat split; reflexivity. Qed.

(** C2, on a request for the branch [dev] of a repository that has only
    [master]. *)
Lemma fallback_iff_main_witness :
  let req := Sample.request "https://github.com/acme/demo" (Some "dev") in
  archive_fetches (import_body Sample.master_only 3 req)
    = ["https://github.com/acme/demo/archive/refs/heads/dev.zip"]
  /\ response (import_body Sample.master_only 3 req)
     = Some (mkResponse 404 (ErrorBody (ErrBranchNotFound "dev" false))).
Proof.
  intros req.
  destruct (fallback_iff_main Sample.master_only 3 req
              (mkRef "acme" "demo" "main") Sample.meta (HTTPStatus 404))
    as (Hfetches & Hresp & _).
  - split; [reflexivity | reflexivity | reflexivity |]. vm_compute. discriminate.
  - reflexivity.
  - split; [exact Hfetches |]. apply Hresp. discriminate.
Defined.

(** The branch of the 201 response is the branch the handler set out to
    download, whichever archive it got. *)
Lemma reported_branch (E : Env) (fuel : nat) (req : Request) (r : ImportResult) :
  result (import_body E fuel req) = Some r ->
  exists parsed,
    parseGitHubUrl (or_else (body_repoUrl req) "") = Some parsed /\
    info_branch (res_repoInfo r) = effective_branch req parsed.
Proof.
  intros H.
  apply import_body_created in H
    as (parsed & repoMeta & zipBuffer & entries & existing & [_ Hp _ _] & _ & _ & _ & _ & ->).
  exists parsed. split; [assumption | reflexivity].
Qed.

(** C1. The request names no branch, the [main] archive is missing and
    the [master] archive is served: the import answers 201, its archive is
    the [master] one, and the response reports the branch ["main"]. *)
Theorem fallback_reports_main :
  let main := "https://github.com/acme/demo/archive/refs/heads/main.zip" in
  let master := "https://github.com/acme/demo/archive/refs/heads/master.zip" in
  let req := Sample.request "https://github.com/acme/demo" None in
  let run := snd (import Sample.master_only 3 ∅ req) in
  body_branch req = None
  /\ fetchBuffer Sample.master_only 3 main [] = Rejected (HTTPStatus 404)
  /\ fetchBuffer Sample.master_only 3 master [] = Resolved (Sample.bytes "PK")
  /\ archive_fetches run = [main; master]
  /\ option_map status (response run) = Some 201
  /\ option_map (fun r => info_branch (res_repoInfo r)) (result run) = Some "main".
Proof. vm_compute. repeat split; reflexivity. Qed.

(** C9. [parseGitHubUrl] checks the owner and the repo against the
    identifier pattern and nothing else: a [/tree/] suffix gives a branch
    outside the pattern; a non-empty branch of the request body replaces the
    parsed one whatever it is; and the first archive address the handler
    fetches is the template with that branch placed in it unchanged. *)
Theorem branch_not_validated :
  (forall raw r,
      parseGitHubUrl raw = Some r ->
      validPattern_test (owner r) = true /\ validPattern_test (repo r) = true)
  /\ (exists raw r,
        parseGitHubUrl raw = Some r /\ validPattern_test (branch r) = false)
  /\ (forall req parsed b,
        body_branch req = Some b -> truthy b = true ->
        effective_branch req parsed = b)
  /\ (forall E fuel req parsed repoMeta,
        reaches_archive E req parsed repoMeta ->
        head (archive_fetches (import_body E fuel req))
          = Some ("https://github.com/" +:+ owner parsed +:+ "/" +:+ repo parsed +:+
                  "/archive/refs/heads/" +:+ effective_branch req parsed +:+ ".zip")).
Proof.
  split; [|split; [|split]].
  - intros raw r H. unfold parseGitHubUrl in H.
    destruct (negb (startsWith _ _)); [discriminate |].
    destruct (_ <? _)%nat; [discriminate |].
    destruct (validPattern_test (nth 0 _ _)) eqn:Ho; [|discriminate].
    destruct (validPattern_test (strip_dot_git _)) eqn:Hr; [|discriminate].
    simpl in H. inversion H; subst. now split.
  - exists "https://github.com/acme/demo/tree/a b/../$(x)?y#z",
      (mkRef "acme" "demo" "a b/../$(x)?y#z").
    split; reflexivity.
  - intros req parsed b Hb Ht. unfold effective_branch, or_else. now rewrite Hb, Ht.
  - intros E fuel req parsed repoMeta Hra.
    rewrite (import_body_archive E fuel req parsed repoMeta Hra).
    rewrite !archive_fetches_bind. simpl.
    destruct (download_archive_spec E fuel (owner parsed) (repo parsed)
                (effective_branch req parsed)); reflexivity.
Qed.

(** C9, on a request whose body carries a branch that is no identifier. *)
Lemma branch_not_validated_witness :
  let req := Sample.request "https://github.com/acme/demo" (Some "../../x y?") in
  effective_branch req (mkRef "acme" "demo" "main") = "../../x y?"
  /\ head (archive_fetches (import_body Sample.master_only 3 req))
     = Some "https://github.com/acme/demo/archive/refs/heads/../../x y?.zip".
Proof.
  intros req.
  destruct branch_not_validated as (_ & _ & Hbody & Hurl).
  split.
  - apply Hbody; reflexivity.
  - apply (Hurl Sample.master_only 3%nat req (mkRef "acme" "demo" "main") Sample.meta).
    split; [reflexivity | reflexivity | reflexivity |]. vm_compute. discriminate.
Defined.

(** The uploads are all issued, in the order of [files], before the
    handler waits for the first batch. *)
Lemma uploads_issued_first (E : Env) (fs : list ExtractedFile) :
  events (upload_files E fs)
  = map EvUploadIssued (seq 0 (length fs))
    ++ map EvBatchAwaited (batch_starts (length fs) 0 (length fs)).
Proof. now rewrite upload_files_spec. Qed.

(** C4. An archive of eleven files: the promises are awaited in batches
    of ten, starting at 0 and at 10, but the upload of the eleventh file,
    which belongs to the second batch, is issued before the handler has
    waited for the first batch. *)
Theorem eleventh_upload_not_held_back :
  let req := Sample.request "https://github.com/acme/demo" None in
  let trace := events (snd (import Sample.eleven 3 ∅ req)) in
  BATCH_SIZE = 10%nat
  /\ List.filter (fun e => match e with EvBatchAwaited _ => true | _ => false end) trace
     = [EvBatchAwaited 0; EvBatchAwaited 10]
  /\ position (is_issue 10) trace = Some 12%nat
  /\ position (is_batch_awaited 0) trace = Some 13%nat.
Proof. vm_compute. repeat split; reflexivity. Qed.

(** C10. Two runs of the same request that differ only in how the
    content store answers, both ending with the 201 response: the second
    response is the first with another [fileCount] and nothing else changed.
    Both runs download the same archive, and the extraction of its entries,
    which is the same in both, gives [skippedCount] and [totalSize] of both:
    [totalSize] is the bytes of all the admitted files and [skippedCount]
    the entries that reached the policy engine and were not admitted;
    [fileCount] is the number of admitted files less the uploads that failed
    in that run. *)
Theorem upload_failures_invisible (E : Env)
    (upload : nat -> string -> list Byte.byte -> option CloudinaryResult)
    (fuel : nat) (req : Request) (r r' : ImportResult) :
  result (import_body E fuel req) = Some r ->
  result (import_body (with_upload E upload) fuel req) = Some r' ->
  r' = mkResult (res_containerId r) (res_containerName r) (res_password r)
         (res_sandboxUrl r) (res_fileCount r') (res_skippedCount r)
         (res_totalSize r) (res_repoInfo r)
  /\ exists parsed zipBuffer entries,
      parseGitHubUrl (or_else (body_repoUrl req) "") = Some parsed
      /\ snd (download_archive E fuel (owner parsed) (repo parsed)
                (effective_branch req parsed)) = Next zipBuffer
      /\ snd (download_archive (with_upload E upload) fuel (owner parsed)
                (repo parsed) (effective_branch req parsed)) = Next zipBuffer
      /\ AdmZip_getEntries E zipBuffer = Some entries
      /\ AdmZip_getEntries (with_upload E upload) zipBuffer = Some entries
      /\
      let ex := fst (extract E entries) in
      let admitted := Z.of_nat (length (files ex)) in
      fst (extract (with_upload E upload) entries) = ex
      /\ res_skippedCount r = skippedCount ex
      /\ skippedCount ex
         = Z.of_nat (length (List.filter (candidate (rootPrefix_of entries)) entries))
           - admitted
      /\ res_totalSize r = sum_sizes (files ex)
      /\ res_fileCount r = admitted - Z.of_nat (failed_uploads E (files ex))
      /\ res_fileCount r'
         = admitted - Z.of_nat (failed_uploads (with_upload E upload) (files ex)).
Proof.
  intros H H'.
  apply import_body_created in H
    as (parsed & repoMeta & zipBuffer & entries & existing
        & Hra & Hd & Hzip & Hdone & Hfind & ->).
  apply import_body_created in H'
    as (parsed' & repoMeta' & zipBuffer' & entries' & existing'
        & Hra' & Hd' & Hzip' & _ & Hfind' & ->).
  apply reaches_archive_with_upload in Hra'.
  destruct (reaches_archive_unique _ _ _ _ _ _ Hra Hra') as [<- <-].
  pose proof Hd' as Hd2.
  rewrite download_archive_with_upload, Hd in Hd'. inversion Hd'; subst zipBuffer'.
  pose proof Hzip' as Hzip2.
  change (AdmZip_getEntries (with_upload E upload) zipBuffer)
    with (AdmZip_getEntries E zipBuffer) in Hzip'.
  rewrite Hzip in Hzip'. inversion Hzip'; subst entries'.
  change (Container_findOne (with_upload E upload))
    with (Container_findOne E) in Hfind'.
  rewrite Hfind in Hfind'. inversion Hfind'; subst existing'.
  rewrite !extract_with_upload. cbn [res_containerId res_containerName res_password
    res_sandboxUrl res_fileCount res_skippedCount res_totalSize res_repoInfo].
  split; [reflexivity |].
  destruct (extract_invariant E entries) as (seen & [_ Hseen Hsize _] & Hall).
  rewrite (Hall Hdone) in Hseen.
  exists parsed, zipBuffer, entries. cbn zeta.
  destruct Hra as [_ Hparsed _ _].
  pose proof (length_filter_Boolean (outcomes E 0 (files (fst (extract E entries))))) as Hf.
  pose proof (length_filter_Boolean
                (outcomes (with_upload E upload) 0 (files (fst (extract E entries))))) as Hf'.
  rewrite outcomes_length in Hf, Hf'. unfold failed_uploads.
  split; [exact Hparsed |]. split; [exact Hd |]. split; [exact Hd2 |].
  split; [exact Hzip |]. split; [exact Hzip2 |].
  split; [now rewrite extract_with_upload |].
  repeat split; try congruence; lia.
Qed.

(** C10, on an import of three entries where one is rejected by the
    policy and, in the second run, the second upload fails. *)
Lemma upload_failures_invisible_witness :
  let E := Sample.env Sample.net_all Sample.entries Sample.upload_ok in
  let req := Sample.request "https://github.com/acme/demo" None in
  exists r r',
    result (import_body E 3 req) = Some r
    /\ result (import_body (with_upload E Sample.upload_second_fails) 3 req) = Some r'
    /\ (res_fileCount r, res_skippedCount r, res_totalSize r) = (2, 1, 20)
    /\ (res_fileCount r', res_skippedCount r', res_totalSize r') = (1, 1, 20)
    /\ r' = mkResult (res_containerId r) (res_containerName r) (res_password r)
              (res_sandboxUrl r) (res_fileCount r') (res_skippedCount r)
              (res_totalSize r) (res_repoInfo r).
Proof.
  intros E req.
  eexists _, _. split; [reflexivity |]. split; [reflexivity |].
  split; [reflexivity |]. split; [reflexivity |].
  apply (upload_failures_invisible E Sample.upload_second_fails 3 req);
    reflexivity.
Defined.

(** * Further properties of the route *)

Section ParserMore.

Lemma split_all_slash_free (s : string) :
  Forall (fun seg => slash_free seg = true) (split slash s).
Proof.
  unfold slash_free.
  induction s as [|c s IH]; simpl.
  - repeat constructor.
  - destruct (Ascii.eqb c slash) eqn:Hc.
    + constructor; [reflexivity | assumption].
    + destruct (split slash s) as [|seg rest].
      * constructor; [|constructor]. simpl. unfold not_slash. now rewrite Hc.
      * inversion IH; subst. constructor; [|assumption].
        simpl. unfold not_slash at 1. rewrite Hc. simpl. assumption.
Qed.

Lemma parts_segments (s : string) :
  Forall (fun seg => truthy seg = true /\ slash_free seg = true)
    (List.filter truthy (split slash s)).
Proof.
  apply Forall_forall. intros seg Hin. apply list_elem_of_In in Hin.
  apply filter_In in Hin as [Hin Ht]. split; [assumption |].
  pose proof (split_all_slash_free s) as Hall.
  rewrite Forall_forall in Hall. apply Hall. now apply list_elem_of_In.
Qed.

Lemma branch_of_parts_segmented (parts : list string) :
  Forall (fun seg => truthy seg = true /\ slash_free seg = true) parts ->
  segmented
    (if (4 <=? length parts)%nat && String.eqb (nth 2 parts EmptyString) "tree"
     then join "/" (skipn 3 parts) else "main").
Proof.
  intros Hall.
  destruct ((4 <=? length parts)%nat && _) eqn:Htree.
  - apply andb_prop in Htree as [Hlen _]. apply Nat.leb_le in Hlen.
    exists (skipn 3 parts). split; [|split; [|reflexivity]].
    + intros Hnil. apply (f_equal (@length string)) in Hnil.
      rewrite length_skipn in Hnil. simpl in Hnil. lia.
    + now apply Forall_drop.
  - exists ["main"]. split; [discriminate |]. split; [|reflexivity].
    repeat constructor.
Qed.

(** What a successful parse says of its result. *)
Lemma parse_inv (raw : string) (r : RepoReference) :
  parseGitHubUrl raw = Some r ->
  validPattern_test (owner r) = true /\
  validPattern_test (repo r) = true /\
  segmented (branch r).
Proof.
  unfold parseGitHubUrl.
  destruct (negb (startsWith _ _)); [discriminate |].
  set (parts := List.filter truthy (split slash _)).
  destruct (length parts <? 2)%nat; [discriminate |].
  destruct (validPattern_test (nth 0 parts _)) eqn:Ho; [|discriminate].
  destruct (validPattern_test (strip_dot_git _)) eqn:Hr; [|discriminate].
  cbn [negb orb]. intros H. inversion H; subst; clear H. cbn [owner repo branch].
  split; [assumption |]. split; [assumption |].
  apply branch_of_parts_segmented, parts_segments.
Qed.

End ParserMore.

(** X1. The branch of a parsed reference is never empty and none of its
    segments is: it neither starts nor ends with a slash, and the doubled
    slashes of the locator are gone. *)
Theorem parse_branch_segmented (raw : string) (r : RepoReference) :
  parseGitHubUrl raw = Some r ->
  truthy (branch r) = true /\ ~ In EmptyString (split slash (branch r)).
Proof.
  intros H. apply parse_inv in H as (_ & _ & segs & Hne & Hall & ->).
  split; [now apply truthy_join |].
  rewrite split_join; [|assumption|].
  - intros Hin. apply list_elem_of_In in Hin.
    rewrite Forall_forall in Hall. apply Hall in Hin as [Ht _]. discriminate.
  - eapply Forall_impl; [exact Hall |]. now intros ? [_ ?].
Qed.

(** On a locator with doubled and trailing slashes. *)
Lemma parse_branch_segmented_witness :
  let r := mkRef "nodejs" "node" "v20.x/staging" in
  truthy (branch r) = true /\ ~ In EmptyString (split slash (branch r)).
Proof.
  intros r.
  apply (parse_branch_segmented "github.com/nodejs/node//tree//v20.x//staging/" r).
  reflexivity.
Defined.

Section RoundTrip.

Lemma strip_dot_git_id (s : string) :
  endsWith ".git" s = false -> strip_dot_git s = s.
Proof. intros H. unfold strip_dot_git. now rewrite H. Qed.

End RoundTrip.

(** X2. Printing a parsed reference as
    [https://github.com/{owner}/{repo}/tree/{branch}] and parsing it again
    gives the reference back, provided the repo does not itself end in
    [.git] (one suffix is removed at each parse) and the branch does not end
    in white space (which [trim] would remove). *)
Theorem parse_canonical (raw : string) (r : RepoReference) :
  parseGitHubUrl raw = Some r ->
  endsWith ".git" (repo r) = false ->
  trimEnd (branch r) = branch r ->
  parseGitHubUrl (canonical_url r) = Some r.
Proof.
  intros H Hgit Htrim. destruct r as [o p b]. simpl in *.
  apply parse_inv in H as (Ho & Hr & segs & Hne & Hall & Hb). simpl in *. subst b.
  pose proof (parse_path "https://"
                (o +:+ "/" +:+ p +:+ "/tree/" +:+ join "/" segs)) as Hpath.
  unfold canonical_url. cbn [owner repo branch].
  change ("https://github.com/" +:+ o +:+ "/" +:+ p +:+ "/tree/" +:+ join "/" segs)
    with ("https://" +:+ "github.com/" +:+ (o +:+ "/" +:+ p +:+ "/tree/" +:+ join "/" segs)).
  rewrite Hpath; clear Hpath.
  - rewrite split_owner_repo_tree by assumption.
    destruct segs as [|s segs]; [contradiction |].
    cbn [length Nat.ltb Nat.leb nth skipn andb].
    change ((2 <? S (S (S (S (length segs)))))%nat) with true.
    simpl. rewrite (strip_dot_git_id _ Hgit), Ho, Hr. reflexivity.
  - unfold schemes. simpl. tauto.
  - do 4 apply truthy_append_r. now apply truthy_join.
  - rewrite <- !append_assoc. apply trimEnd_append;
      [now apply truthy_join | assumption].
Qed.

(** On a reference parsed from a locator with a [.git] suffix, doubled
    slashes and surrounding white space. *)
Lemma parse_canonical_witness :
  parseGitHubUrl "https://github.com/nodejs/node/tree/v20.x/staging"
  = Some (mkRef "nodejs" "node" "v20.x/staging").
Proof.
  apply (parse_canonical "  github.com/nodejs/node.git//tree/v20.x/staging/ "
           (mkRef "nodejs" "node" "v20.x/staging")); reflexivity.
Defined.

Section Sanitize.

Lemma replace_all_char_fixed (c d : ascii) (s : string) :
  forallb_string (fun a => negb (Ascii.eqb a c)) s = true ->
  replace_all_char c d s = s.
Proof.
  induction s as [|a s IH]; simpl; [reflexivity |].
  intros [Ha Hs]%andb_prop. apply negb_true_iff in Ha. now rewrite Ha, IH.
Qed.

End Sanitize.

(** X3. [sanitizePath] is idempotent: a path it returns is returned
    unchanged when sanitized again. *)
Theorem sanitizePath_idempotent (filePath n : string) :
  sanitizePath filePath = Some n -> sanitizePath n = Some n.
Proof.
  unfold sanitizePath. intros H.
  destruct (startsWith "/" _ || drive_letter_test _) eqn:Habs; [discriminate |].
  destruct (existsb _ _) eqn:Hdd; [discriminate |].
  inversion H as [Hn]. rewrite Hn in *.
  assert (Hfix : replace_all_char backslash slash n = n).
  { rewrite <- Hn at 2. rewrite <- Hn. apply replace_all_char_fixed.
    apply normalized_no_backslash. }
  rewrite Hfix, Habs, Hdd. reflexivity.
Qed.

(** On a path with backslashes. *)
Lemma sanitizePath_idempotent_witness :
  sanitizePath "src/lib/a.js" = Some "src/lib/a.js".
Proof. apply (sanitizePath_idempotent "src\lib\a.js"). reflexivity. Defined.

Section FetcherMore.

Variable E : Env.
Variable headers : list (string * string).

Lemma fetchBuffer_final (fuel : nat) (url : string) (r : HttpReply) :
  net E (proto_of url) url (buffer_options headers) = Response r ->
  final_reply r ->
  fetchBuffer E (S fuel) url headers =
    if negb (statusCode r =? 200) then Rejected (HTTPStatus (statusCode r))
    else read_capped (MAX_REPO_SIZE_BYTES E) 0 [] (chunks r) (body_end r).
Proof.
  intros Hnet Hfinal. simpl. rewrite Hnet.
  destruct Hfinal as [Hout | Hloc].
  - destruct (Z.geb_spec (statusCode r) 300); [|reflexivity].
    destruct (Z.ltb_spec (statusCode r) 400); [lia | reflexivity].
  - rewrite Hloc. now destruct (_ && _).
Qed.

(** Too few requests for the chain: the promise has not settled. *)
Lemma fetchBuffer_chain_pending (n fuel : nat) (url final : string) :
  redirect_chain E headers n url final ->
  (fuel <= n)%nat ->
  fetchBuffer E fuel url headers = Pending.
Proof.
  intros Hchain. revert fuel.
  induction Hchain as [url|n url target final Hhop _ IH]; intros fuel Hle.
  - now replace fuel with 0%nat by lia.
  - destruct fuel as [|fuel]; [reflexivity |].
    rewrite (fetchBuffer_hop E headers _ _ _ Hhop). apply IH. lia.
Qed.

(** The chunks are read in order, and the first prefix over the cap ends
    the reading. *)
Lemma read_capped_prefix (cap total : Z) (acc : list Byte.byte)
    (cs rest : list (list Byte.byte)) (fin : BodyEnd) :
  cs <> [] ->
  total + body_size cs > cap ->
  read_capped cap total acc (cs ++ rest) fin = Rejected SizeExceeded.
Proof.
  unfold body_size. revert total acc.
  induction cs as [|c cs IH]; intros total acc Hne Hbig; [contradiction |].
  simpl in *. rewrite length_app in Hbig.
  destruct (Z.gtb_spec (total + Z.of_nat (length c)) cap); [reflexivity |].
  destruct cs as [|c' cs].
  - simpl in Hbig. lia.
  - apply IH; [discriminate | lia].
Qed.

End FetcherMore.

(** X4. A fetch that runs into a cycle of redirects never settles: if
    one or more redirects lead from an address back to itself, the promise
    of [fetchBuffer] is pending however many requests are made. *)
Theorem redirect_cycle_never_settles (E : Env)
    (headers : list (string * string)) (n : nat) (url : string) :
  redirect_chain E headers (S n) url url ->
  forall fuel, fetchBuffer E fuel url headers = Pending.
Proof.
  intros Hcycle fuel.
  induction fuel as [fuel IH] using lt_wf_ind.
  destruct (Nat.le_gt_cases fuel (S n)) as [Hle | Hgt].
  - now apply (fetchBuffer_chain_pending E headers (S n) fuel url url).
  - replace fuel with (S n + (fuel - S n))%nat by lia.
    rewrite (fetchBuffer_chain E headers _ _ _ _ Hcycle). apply IH. lia.
Qed.

(** On two addresses that redirect to each other. *)
Lemma redirect_cycle_never_settles_witness :
  fetchBuffer Cases.looping 1000 "https://a.example/x" [] = Pending.
Proof.
  refine (redirect_cycle_never_settles Cases.looping [] 1 "https://a.example/x"
            _ 1000%nat).
  eapply chain_hop; [|eapply chain_hop; [|apply chain_end]].
  - eexists. split; [reflexivity |]. simpl. repeat split; lia.
  - eexists. split; [reflexivity |]. simpl. repeat split; lia.
Defined.

(** X5. After the redirects are followed, a reply whose status is not
    exactly 200 rejects with that status: another 2xx, or a 3xx that has no
    [Location], is a failure. *)
Theorem non_200_rejects (E : Env) (headers : list (string * string))
    (n fuel : nat) (url final : string) (r : HttpReply) :
  redirect_chain E headers n url final ->
  net E (proto_of final) final (buffer_options headers) = Response r ->
  final_reply r ->
  statusCode r <> 200 ->
  fetchBuffer E (n + S fuel) url headers = Rejected (HTTPStatus (statusCode r)).
Proof.
  intros Hchain Hnet Hfinal Hne.
  rewrite (fetchBuffer_chain E headers _ _ _ _ Hchain).
  rewrite (fetchBuffer_final E headers _ _ _ Hnet Hfinal).
  destruct (Z.eqb_spec (statusCode r) 200); [contradiction | reflexivity].
Qed.

(** On a redirect to a 204, and on a 302 without a [Location]. *)
Lemma non_200_rejects_witness :
  fetchBuffer Cases.odd 2 "https://a.example/x" [] = Rejected (HTTPStatus 204)
  /\ fetchBuffer Cases.odd 1 "https://c.example/z" [] = Rejected (HTTPStatus 302).
Proof.
  split.
  - apply (non_200_rejects Cases.odd [] 1 0 "https://a.example/x"
             "https://b.example/empty" (mkReply 204 None [] EndOk)).
    + eapply chain_hop; [|apply chain_end].
      eexists. split; [reflexivity |]. simpl. repeat split; lia.
    + reflexivity.
    + left. simpl. lia.
    + simpl. lia.
  - apply (non_200_rejects Cases.odd [] 0 0 "https://c.example/z"
             "https://c.example/z" (mkReply 302 None [] EndOk)).
    + apply chain_end.
    + reflexivity.
    + right. reflexivity.
    + simpl. lia.
Defined.

(** X6. The size cap of the archive fetch. On a 200 reply the promise
    resolves to the chunks put together when they fit the cap and the
    stream ends; it rejects with the size error as soon as the chunks
    received so far exceed the cap, whatever follows them. *)
Theorem size_cap (E : Env) (headers : list (string * string))
    (fuel : nat) (url : string) (r : HttpReply) :
  net E (proto_of url) url (buffer_options headers) = Response r ->
  statusCode r = 200 ->
  (body_size (chunks r) <= MAX_REPO_SIZE_BYTES E ->
   body_end r = EndOk ->
   fetchBuffer E (S fuel) url headers = Resolved (concat (chunks r)))
  /\
  (forall received rest,
      chunks r = received ++ rest ->
      received <> [] ->
      body_size received > MAX_REPO_SIZE_BYTES E ->
      fetchBuffer E (S fuel) url headers = Rejected SizeExceeded).
Proof.
  intros Hnet H200.
  rewrite (fetchBuffer_ok E headers _ _ _ Hnet H200).
  split.
  - intros Hfit Hend. rewrite Hend.
    now rewrite read_capped_fits by (unfold body_size in Hfit; lia).
  - intros received rest Hsplit Hne Hbig. rewrite Hsplit.
    apply read_capped_prefix; [assumption | lia].
Qed.

(** With a limit of 1 MB: a six-byte archive, and one of a mebibyte and a
    byte followed by more. *)
Lemma size_cap_witness :
  fetchBuffer Cases.one_megabyte 1 "https://a.example/small.zip" []
    = Resolved (Sample.bytes "PKdata")
  /\ fetchBuffer Cases.one_megabyte 1 "https://a.example/large.zip" []
     = Rejected SizeExceeded.
Proof.
  split.
  - apply (proj1 (size_cap Cases.one_megabyte [] 0 "https://a.example/small.zip"
                    (mkReply 200 None [Sample.bytes "PK"; Sample.bytes "data"] EndOk)
                    eq_refl eq_refl)).
    + vm_compute. discriminate.
    + reflexivity.
  - apply (proj2 (size_cap Cases.one_megabyte [] 0 "https://a.example/large.zip"
                    (mkReply 200 None [Cases.big_chunk; Sample.bytes "more"] EndError)
                    eq_refl eq_refl)
             [Cases.big_chunk] [Sample.bytes "more"]).
    + reflexivity.
    + discriminate.
    + unfold body_size, Cases.big_chunk. cbn [concat]. 
      rewrite app_nil_r, repeat_length.
      change (MAX_REPO_SIZE_BYTES Cases.one_megabyte) with 1048576. lia.
Defined.

Section RateLimiterMore.

Implicit Types (m : gmap string RateEntry) (ip : string) (now : Z).

(** The answer and the client's new entry depend on the client's entry
    only. *)
Lemma check_local now ip m1 m2 :
  m1 !! ip = m2 !! ip ->
  fst (checkRateLimit now ip m1) = fst (checkRateLimit now ip m2) /\
  snd (checkRateLimit now ip m1) !! ip = snd (checkRateLimit now ip m2) !! ip.
Proof.
  intros Heq. unfold checkRateLimit. rewrite <- Heq.
  destruct (m1 !! ip) as [e|] eqn:He; simpl.
  - destruct (now >? resetTime e); simpl; [now rewrite !lookup_insert_eq |].
    destruct (count e >=? RATE_LIMIT_MAX); simpl.
    + split; [reflexivity | congruence].
    + now rewrite !lookup_insert_eq.
  - now rewrite !lookup_insert_eq.
Qed.

(** Checks inside an open window: the remaining quota is granted, then
    every check is denied. *)
Lemma check_sequence_within (ts : list Z) ip m e :
  m !! ip = Some e ->
  1 <= count e <= RATE_LIMIT_MAX ->
  Forall (fun t => t <= resetTime e) ts ->
  fst (check_sequence ip ts m)
  = repeat true (min (length ts) (Z.to_nat (RATE_LIMIT_MAX - count e)))
    ++ repeat false (length ts - Z.to_nat (RATE_LIMIT_MAX - count e)).
Proof.
  revert m e. induction ts as [|t ts IH]; intros m e He Hc Hall; [reflexivity |].
  inversion Hall as [|? ? Ht Hts]; subst.
  cbn [check_sequence].
  destruct (Z.eq_dec (count e) RATE_LIMIT_MAX) as [Hfull | Hroom].
  - rewrite (check_denies _ _ _ _ He Ht) by lia.
    specialize (IH m e He Hc Hts).
    destruct (check_sequence ip ts m) as [answers final]. simpl in *.
    rewrite IH. replace (Z.to_nat (RATE_LIMIT_MAX - count e)) with 0%nat by lia.
    rewrite !Nat.min_0_r, !Nat.sub_0_r. reflexivity.
  - rewrite (check_counts _ _ _ _ He Ht) by lia.
    specialize (IH (<[ip := mkEntryRL (count e + 1) (resetTime e)]> m)
                  (mkEntryRL (count e + 1) (resetTime e))).
    rewrite lookup_insert_eq in IH. specialize (IH eq_refl).
    cbn [count resetTime] in IH. specialize (IH ltac:(lia) Hts).
    destruct (check_sequence ip ts _) as [answers final]. simpl in *.
    rewrite IH.
    replace (Z.to_nat (RATE_LIMIT_MAX - count e))
      with (S (Z.to_nat (RATE_LIMIT_MAX - (count e + 1)))) by lia.
    reflexivity.
Qed.

End RateLimiterMore.

(** X7. However many checks a client makes inside one window, the first
    [RATE_LIMIT_MAX] are allowed and every later one is denied. *)
Theorem window_quota (m : gmap string RateEntry) (ip : string)
    (t1 : Z) (ts : list Z) :
  window_over t1 ip m ->
  Forall (fun t => t <= t1 + RATE_LIMIT_WINDOW) ts ->
  fst (check_sequence ip (t1 :: ts) m)
  = repeat true (min (S (length ts)) (Z.to_nat RATE_LIMIT_MAX))
    ++ repeat false (S (length ts) - Z.to_nat RATE_LIMIT_MAX).
Proof.
  intros Hopen Hall. cbn [check_sequence].
  rewrite (check_opens _ _ _ Hopen).
  pose proof (check_sequence_within ts ip
                (<[ip := mkEntryRL 1 (t1 + RATE_LIMIT_WINDOW)]> m)
                (mkEntryRL 1 (t1 + RATE_LIMIT_WINDOW))) as H.
  rewrite lookup_insert_eq in H. specialize (H eq_refl).
  cbn [count resetTime] in H.
  specialize (H ltac:(unfold RATE_LIMIT_MAX; lia) Hall).
  destruct (check_sequence ip ts _) as [answers final]. simpl in *.
  rewrite H. reflexivity.
Qed.

(** Eight checks in one window. *)
Lemma window_quota_witness :
  fst (check_sequence "10.0.0.7" [0; 1; 2; 3; 4; 5; 6; 60000] ∅)
  = [true; true; true; true; true; false; false; false].
Proof.
  apply (window_quota ∅ "10.0.0.7" 0 [1; 2; 3; 4; 5; 6; 60000]).
  - intros e He. rewrite lookup_empty in He. discriminate.
  - unfold RATE_LIMIT_WINDOW. repeat constructor; lia.
Defined.

(** X8. The periodic sweep cannot be observed by a later check: the
    answer to a client and the entry the check leaves for it are the same
    whether or not the map was swept at an earlier time. *)
Theorem sweep_unobservable (m : gmap string RateEntry) (ip : string)
    (swept now : Z) :
  swept <= now ->
  fst (checkRateLimit now ip (sweep swept m)) = fst (checkRateLimit now ip m)
  /\ snd (checkRateLimit now ip (sweep swept m)) !! ip
     = snd (checkRateLimit now ip m) !! ip.
Proof.
  intros Hle.
  destruct (m !! ip) as [e|] eqn:He.
  - destruct (Z.gtb_spec swept (resetTime e)) as [Hgone | Hkept].
    + assert (Hnone : sweep swept m !! ip = None).
      { destruct (sweep swept m !! ip) as [e'|] eqn:He'; [|reflexivity].
        apply sweep_lookup in He' as [He' Hle']. rewrite He in He'.
        inversion He'; subst. lia. }
      unfold checkRateLimit. rewrite Hnone, He.
      destruct (Z.gtb_spec now (resetTime e)); [|lia].
      simpl. now rewrite !lookup_insert_eq.
    + apply check_local. rewrite He. apply sweep_lookup. split; [assumption | lia].
  - apply check_local. rewrite He.
    destruct (sweep swept m !! ip) as [e'|] eqn:He'; [|reflexivity].
    apply sweep_lookup in He' as [He' _]. congruence.
Qed.

(** A sweep that removes the expired entry of the client. *)
Lemma sweep_unobservable_witness :
  let m := <["10.0.0.7" := mkEntryRL 5 60000]> ∅ in
  fst (checkRateLimit 400000 "10.0.0.7" (sweep 300000 m))
    = fst (checkRateLimit 400000 "10.0.0.7" m)
  /\ snd (checkRateLimit 400000 "10.0.0.7" (sweep 300000 m)) !! "10.0.0.7"
     = snd (checkRateLimit 400000 "10.0.0.7" m) !! "10.0.0.7".
Proof.
  intros m. apply (sweep_unobservable m "10.0.0.7" 300000 400000). lia.
Defined.

(** X9. The counts stay between 1 and the limit: a check and a sweep
    keep this true of every entry, and it holds of the empty map. *)
Theorem counts_stay_bounded (m : gmap string RateEntry) (ip : string) (now : Z) :
  counts_bounded m ->
  counts_bounded (snd (checkRateLimit now ip m))
  /\ counts_bounded (sweep now m).
Proof.
  intros Hm. split.
  - intros ip' e' He'. unfold checkRateLimit in He'.
    assert (Hfresh : forall x, <[ip := mkEntryRL 1 x]> m !! ip' = Some e' ->
                               1 <= count e' <= RATE_LIMIT_MAX).
    { intros x H. destruct (decide (ip = ip')) as [->|Hne].
      - rewrite lookup_insert_eq in H. inversion H; subst. simpl.
        unfold RATE_LIMIT_MAX. lia.
      - rewrite lookup_insert_ne in H by assumption. eauto. }
    destruct (m !! ip) as [e|] eqn:He; simpl in He'; [|eauto].
    destruct (now >? resetTime e); simpl in He'; [eauto |].
    destruct (Z.geb_spec (count e) RATE_LIMIT_MAX); simpl in He'; [eauto |].
    destruct (decide (ip = ip')) as [->|Hne].
    + rewrite lookup_insert_eq in He'. inversion He'; subst. simpl.
      specialize (Hm _ _ He). lia.
    + rewrite lookup_insert_ne in He' by assumption. eauto.
  - intros ip' e' He'. apply sweep_lookup in He' as [He' _]. eauto.
Qed.

(** From the empty map. *)
Lemma counts_stay_bounded_witness :
  counts_bounded (snd (checkRateLimit 1000 "10.0.0.7" ∅))
  /\ counts_bounded (sweep 1000 ∅).
Proof.
  apply (counts_stay_bounded ∅ "10.0.0.7" 1000).
  intros ip e He. rewrite lookup_empty in He. discriminate.
Defined.

(** X10. Clients do not interfere: a check by one client changes neither
    the entry of another client nor the answer the other client gets
    next. *)
Theorem clients_isolated (m : gmap string RateEntry) (ip ip' : string)
    (now now' : Z) :
  ip <> ip' ->
  snd (checkRateLimit now ip m) !! ip' = m !! ip'
  /\ fst (checkRateLimit now' ip' (snd (checkRateLimit now ip m)))
     = fst (checkRateLimit now' ip' m).
Proof.
  intros Hne. split; [now apply check_other |].
  apply check_local. now apply check_other.
Qed.

(** A client over quota and another one. *)
Lemma clients_isolated_witness :
  let m := <["10.0.0.8" := mkEntryRL 5 60000]> ∅ in
  snd (checkRateLimit 1000 "10.0.0.7" m) !! "10.0.0.8" = m !! "10.0.0.8"
  /\ fst (checkRateLimit 2000 "10.0.0.8" (snd (checkRateLimit 1000 "10.0.0.7" m)))
     = fst (checkRateLimit 2000 "10.0.0.8" m).
Proof.
  intros m. apply (clients_isolated m "10.0.0.7" "10.0.0.8" 1000 2000). discriminate.
Defined.

Section ExtractorMore.

Variable E : Env.
Variable rootPrefix : string.

(** An iteration that goes on either leaves [files] and [totalSize] alone
    or appends the file of the entry. *)
Lemma extract_entry_cases (st st' : Extraction) (entry : ZipEntry) :
  extract_entry E rootPrefix st entry = Continued st' ->
  (files st' = files st /\ totalSize st' = totalSize st /\
   skippedCount st <= skippedCount st')
  \/ exists f,
       kept_of E rootPrefix entry f /\
       files st' = files st ++ [f] /\
       totalSize st' = totalSize st + size f /\
       skippedCount st' = skippedCount st.
Proof.
  unfold extract_entry.
  destruct (isDirectory entry) eqn:Hdir.
  { intros H. inversion H; subst. left. repeat split; lia. }
  destruct (negb (truthy _)).
  { intros H. inversion H; subst. left. repeat split; lia. }
  destruct (sanitizePath _) as [safePath|] eqn:Hsafe.
  2:{ intros H. inversion H; subst. left. simpl. repeat split; lia. }
  destruct (truthy safePath) eqn:Htruthy; cbn [negb].
  2:{ intros H. inversion H; subst. left. simpl. repeat split; lia. }
  destruct (isBlockedFile E safePath) eqn:Hblocked.
  { intros H. inversion H; subst. left. simpl. repeat split; lia. }
  destruct (Z.gtb_spec (header_size entry) MAX_SINGLE_FILE_BYTES) as [Hbig|Hbig].
  { intros H. inversion H; subst. left. simpl. repeat split; lia. }
  destruct (Z.of_nat (length (files st)) >=? MAX_FILE_COUNT).
  { intros H. inversion H; subst. left. simpl. repeat split; lia. }
  destruct (getData entry) as [data|] eqn:Hdata; [|discriminate].
  destruct (Z.eqb_spec (Z.of_nat (length data)) 0) as [Hzero|Hzero].
  { intros H. inversion H; subst. left. simpl. repeat split; lia. }
  intros H. inversion H; subst. right.
  eexists. split; [|simpl; repeat split; reflexivity].
  split; simpl; try assumption; try reflexivity; lia.
Qed.

(** Induction over the loop: a property of the entries seen and of the
    local variables that every iteration keeps holds when the loop is
    left. *)
Lemma extract_loop_ind (I : list ZipEntry -> Extraction -> Prop) :
  (forall seen st entry st',
      I seen st ->
      extract_entry E rootPrefix st entry = Continued st' ->
      I (seen ++ [entry]) st') ->
  forall entries seen st,
    I seen st ->
    exists done rest,
      entries = done ++ rest /\
      I (seen ++ done) (fst (extract_loop E rootPrefix st entries)) /\
      (snd (extract_loop E rootPrefix st entries) = false -> rest = []).
Proof.
  intros Hstep. induction entries as [|entry entries IH]; intros seen st HI.
  - exists [], []. simpl. rewrite app_nil_r. auto.
  - simpl. destruct (extract_entry E rootPrefix st entry) as [st'|] eqn:Hentry.
    + destruct (IH _ _ (Hstep _ _ _ _ HI Hentry)) as (done & rest & -> & HI' & Hrest).
      exists (entry :: done), rest. rewrite <- app_assoc in HI'. auto.
    + exists [], (entry :: entries). simpl. rewrite app_nil_r.
      split; [reflexivity |]. split; [assumption | discriminate].
Qed.

(** The files kept are, in order, the files of a subsequence of the
    entries seen. *)
Lemma extract_loop_kept (entries : list ZipEntry) :
  exists kept,
    sublist kept entries /\
    Forall2 (kept_of E rootPrefix) kept
      (files (fst (extract_loop E rootPrefix (mkExtraction [] 0 0) entries))).
Proof.
  destruct (extract_loop_ind
              (fun seen st =>
                 exists kept, sublist kept seen /\
                              Forall2 (kept_of E rootPrefix) kept (files st)))
    with (entries := entries) (seen := @nil ZipEntry) (st := mkExtraction [] 0 0)
    as (done & rest & -> & (kept & Hsub & Hall) & _).
  - intros seen st entry st' (kept & Hsub & Hall) Hentry.
    apply extract_entry_cases in Hentry as [(Hfiles & _) | (f & Hf & Hfiles & _)];
      rewrite Hfiles.
    + exists kept. split; [|assumption]. now apply sublist_inserts_r.
    + exists (kept ++ [entry]). split.
      * apply sublist_app; [assumption | reflexivity].
      * apply Forall2_app; [assumption |].
        constructor; [assumption | constructor].
  - exists []. split; [constructor | constructor].
  - exists kept. split; [|assumption]. now apply sublist_inserts_r.
Qed.

End ExtractorMore.

Section PathsMore.

(** What a path returned by [sanitizePath] is. *)
Lemma sanitizePath_some (p n : string) :
  sanitizePath p = Some n ->
  n = replace_all_char backslash slash p /\
  ~ absolute n /\ ~ has_segment ".." n.
Proof.
  unfold sanitizePath. intros H.
  destruct (startsWith "/" _ || drive_letter_test _) eqn:Habs; [discriminate |].
  destruct (existsb _ _) eqn:Hdd; [discriminate |].
  inversion H as [Hn]. rewrite Hn in *. split; [reflexivity |]. split.
  - intros Ha%absolute_iff. congruence.
  - intros Hs%in_split_iff; [|reflexivity].
    apply existsb_dotdot in Hs. congruence.
Qed.

Lemma assoc_In (k v : string) (l : list (string * string)) :
  assoc k l = Some v -> In (k, v) l.
Proof.
  induction l as [|[k' v'] l IH]; simpl; [discriminate |].
  destruct (String.eqb_spec k k') as [->|Hne].
  - intros H. inversion H; subst. now left.
  - intros H. right. now apply IH.
Qed.

(** Only the extension [.sh] has the shell script type, and it is
    blocked. *)
Lemma shellscript_blocked (E : Env) (p : string) :
  getMimeType E p = "text/x-shellscript" -> isBlockedFile E p = true.
Proof.
  unfold getMimeType, isBlockedFile.
  destruct (assoc _ mimeMap) as [m|] eqn:Hm; [|discriminate].
  destruct (truthy m); [|discriminate].
  intros ->. apply assoc_In in Hm.
  assert (Hext : toLowerCase (path_extname E p) = ".sh").
  { unfold mimeMap in Hm. simpl in Hm.
    repeat (destruct Hm as [Hm|Hm]; [inversion Hm; try reflexivity |]).
    contradiction. }
  rewrite Hext. reflexivity.
Qed.

End PathsMore.

(** X11. Every file the extraction keeps comes from an entry of the
    archive, and the files are in the order of their entries: [files] is,
    entry by entry, what the loop keeps of a subsequence of the entries (the
    path sanitized, the data of the entry, its length as size, the base name
    and the type of the path). *)
Theorem extracted_in_order (E : Env) (entries : list ZipEntry) :
  exists kept,
    sublist kept entries /\
    Forall2 (kept_of E (rootPrefix_of entries)) kept
      (files (fst (extract E entries))).
Proof. apply extract_loop_kept. Qed.

(** X12. No path kept by the extraction can leave the directory it is
    placed in: each is non-empty, has no backslash, is not absolute and has
    no [..] segment. *)
Theorem extracted_paths_safe (E : Env) (entries : list ZipEntry) :
  Forall
    (fun f =>
       truthy (relativePath f) = true
       /\ forallb_string (fun c => negb (Ascii.eqb c backslash)) (relativePath f) = true
       /\ ~ absolute (relativePath f)
       /\ ~ has_segment ".." (relativePath f))
    (files (fst (extract E entries))).
Proof.
  destruct (extract_loop_kept E (rootPrefix_of entries) entries) as (kept & _ & Hall).
  fold (extract E entries) in Hall.
  eapply Forall2_Forall_r; [exact Hall |].
  apply Forall_forall. intros entry _ f Hf.
  destruct (sanitizePath_some _ _ (kept_path _ _ _ _ Hf)) as (Hn & Habs & Hdd).
  split; [exact (kept_truthy _ _ _ _ Hf) |]. split; [|now split].
  rewrite Hn. apply normalized_no_backslash.
Qed.

(** X13. No extracted file is a blocked one, and so none has the type
    [text/x-shellscript]: the [.sh] row of the type table is never used for
    an imported file, [.sh] being a blocked extension. *)
Theorem no_shell_script_extracted (E : Env) (entries : list ZipEntry) :
  Forall
    (fun f =>
       isBlockedFile E (relativePath f) = false
       /\ mimetype f <> "text/x-shellscript")
    (files (fst (extract E entries))).
Proof.
  destruct (extract_loop_kept E (rootPrefix_of entries) entries) as (kept & _ & Hall).
  fold (extract E entries) in Hall.
  eapply Forall2_Forall_r; [exact Hall |].
  apply Forall_forall. intros entry _ f Hf.
  pose proof (kept_allowed _ _ _ _ Hf) as Hallowed.
  split; [assumption |].
  rewrite (kept_mime _ _ _ _ Hf). intros Hsh%shellscript_blocked. congruence.
Qed.

Section Sizes.

Lemma sum_sizes_bound (fs : list ExtractedFile) (b : Z) :
  Forall (fun f => size f <= b) fs ->
  sum_sizes fs <= Z.of_nat (length fs) * b.
Proof.
  unfold sum_sizes. induction 1 as [|f fs Hf _ IH]; simpl; [lia |]. nia.
Qed.

End Sizes.

(** X14. The limit of 10 MiB per file is checked on the size the entry
    declares. When every entry declares the size its data has, each
    extracted file is at most 10 MiB and [totalSize] is at most 500 times
    that. *)
Theorem sizes_bounded_when_honest (E : Env) (entries : list ZipEntry) :
  Forall honest entries ->
  Forall (fun f => size f <= MAX_SINGLE_FILE_BYTES)
    (files (fst (extract E entries)))
  /\ totalSize (fst (extract E entries))
     <= MAX_FILE_COUNT * MAX_SINGLE_FILE_BYTES.
Proof.
  intros Hhonest.
  assert (Hsizes : Forall (fun f => size f <= MAX_SINGLE_FILE_BYTES)
                     (files (fst (extract E entries)))).
  { destruct (extract_loop_kept E (rootPrefix_of entries) entries)
      as (kept & Hsub & Hall).
    fold (extract E entries) in Hall.
    eapply Forall2_Forall_r; [exact Hall |].
    apply Forall_forall. intros entry Hin f Hf.
    rewrite Forall_forall in Hhonest.
    assert (Hentry : entry ∈ entries) by (eapply elem_of_sublist; eassumption).
    specialize (Hhonest _ Hentry _ (kept_data _ _ _ _ Hf)).
    rewrite (kept_size _ _ _ _ Hf), <- Hhonest. exact (kept_declared _ _ _ _ Hf). }
  split; [assumption |].
  destruct (extract_invariant E entries) as (seen & [Hcount _ Hsize _] & _).
  rewrite Hsize. pose proof (sum_sizes_bound _ _ Hsizes) as Hsum.
  unfold MAX_SINGLE_FILE_BYTES, MAX_FILE_COUNT in *. nia.
Qed.

(** On the archive of the sample repository. *)
Lemma sizes_bounded_when_honest_witness :
  Forall (fun f => size f <= MAX_SINGLE_FILE_BYTES)
    (files (fst (extract Sample.master_only Sample.entries)))
  /\ totalSize (fst (extract Sample.master_only Sample.entries))
     <= MAX_FILE_COUNT * MAX_SINGLE_FILE_BYTES.
Proof.
  apply (sizes_bounded_when_honest Sample.master_only Sample.entries).
  repeat constructor; intros data H; inversion H; reflexivity.
Defined.

(** X15. The root folder is read off the first entry. When the first
    entry lies under a folder [root], every entry under that folder loses
    [root/] and keeps the rest of its name. *)
Theorem root_folder_stripped (first : ZipEntry) (others : list ZipEntry)
    (root rest p : string) :
  slash_free root = true ->
  entryName first = root +:+ "/" +:+ rest ->
  rootPrefix_of (first :: others) = root +:+ "/"
  /\ strip_root (rootPrefix_of (first :: others)) (root +:+ "/" +:+ p) = p.
Proof.
  intros Hroot Hname.
  assert (Hprefix : rootPrefix_of (first :: others) = root +:+ "/").
  { unfold rootPrefix_of. rewrite Hname.
    change (root +:+ "/" +:+ rest) with (root +:+ String slash rest).
    rewrite split_append_sep, (split_slash_free _ Hroot). reflexivity. }
  split; [assumption |]. rewrite Hprefix. unfold strip_root.
  assert (Htruthy : truthy (root +:+ "/") = true) by now apply truthy_append_r.
  rewrite Htruthy. cbn [andb].
  rewrite <- append_assoc.
  assert (Hstarts : forall a b, startsWith a (a +:+ b) = true).
  { induction a as [|c a IH]; intros b; simpl; [reflexivity |].
    now rewrite Ascii.eqb_refl, IH. }
  assert (Hfrom : forall a b, substring_from (String.length a) (a +:+ b) = b).
  { induction a as [|c a IH]; intros b; simpl; [reflexivity | apply IH]. }
  now rewrite Hstarts, Hfrom.
Qed.

(** On the archive of the sample repository. *)
Lemma root_folder_stripped_witness :
  rootPrefix_of Sample.entries = "demo-master/"
  /\ strip_root (rootPrefix_of Sample.entries) "demo-master/src/app.js" = "src/app.js".
Proof.
  apply (root_folder_stripped (Sample.dir "demo-master/") (tl Sample.entries)
           "demo-master" "" "src/app.js"); reflexivity.
Defined.

Section UploadName.

Lemma name_char_replaced (c : ascii) :
  name_char (if name_char c then c else "_"%char) = true.
Proof. destruct (name_char c) eqn:Hc; [exact Hc | reflexivity]. Qed.

Lemma replace_unsafe_safe (s : string) :
  forallb_string name_char (replace_unsafe s) = true.
Proof.
  induction s as [|c s IH]; [reflexivity |].
  cbn [replace_unsafe forallb_string]. fold (name_char c).
  now rewrite name_char_replaced, IH.
Qed.

Lemma length_substring_to_le (n : nat) (s : string) :
  (String.length (substring_to n s) <= n)%nat.
Proof.
  revert n. induction s as [|c s IH]; intros [|n]; simpl; try lia.
  specialize (IH n). lia.
Qed.

Lemma ext_chars_with_dot (a b : string) :
  forallb_string ext_char (a +:+ String dot b) = false.
Proof.
  induction a as [|c a IH]; cbn [String.append forallb_string].
  - unfold ext_char. now rewrite Ascii.eqb_refl, orb_true_r.
  - rewrite IH. apply andb_false_r.
Qed.

Lemma strip_extension_no_dot (s : string) :
  forallb_string (fun c => negb (Ascii.eqb c dot)) s = true ->
  strip_extension s = s.
Proof.
  induction s as [|c s IH]; simpl; [reflexivity |].
  intros [Hc Hs]%andb_prop. apply negb_true_iff in Hc.
  rewrite Hc, (IH Hs). reflexivity.
Qed.

Lemma forallb_string_app (f : ascii -> bool) (a b : string) :
  forallb_string f (a +:+ b) = forallb_string f a && forallb_string f b.
Proof.
  induction a as [|c a IH]; cbn [String.append forallb_string]; [reflexivity |].
  now rewrite IH, andb_assoc.
Qed.

Lemma pretty_N_char_digit (d : N) : is_digit (pretty_N_char d) = true.
Proof.
  destruct d as [|p]; [reflexivity |].
  do 4 (try destruct p as [p|p|]; try reflexivity).
Qed.

Lemma pretty_N_go_digits (x : N) :
  forall s, forallb_string is_digit s = true ->
            forallb_string is_digit (pretty_N_go x s) = true.
Proof.
  induction x as [x IH] using (well_founded_induction N.lt_wf_0). intros s Hs.
  destruct (N.eq_dec x 0%N) as [->|Hx]; [now rewrite pretty_N_go_0 |].
  rewrite pretty_N_go_step by lia. apply IH.
  - apply N.div_lt; lia.
  - cbn [forallb_string]. now rewrite pretty_N_char_digit, Hs.
Qed.

(** A number that is not negative prints as a string of digits. *)
Lemma pretty_digits (n : Z) :
  0 <= n -> forallb_string is_digit (pretty n) = true.
Proof.
  intros Hn. destruct n as [|p|p]; [reflexivity | | lia].
  change (pretty (Z.pos p)) with (pretty (N.pos p)).
  unfold pretty, pretty_N. destruct (decide (N.pos p = 0%N)); [discriminate |].
  now apply pretty_N_go_digits.
Qed.

Lemma digit_name_char (c : ascii) : is_digit c = true -> name_char c = true.
Proof. unfold name_char. intros ->. now rewrite orb_true_r. Qed.

End UploadName.

(** X16. The [public_id] under which a file is sent to the content store
    is the time stamp, the random number and the sanitized name joined by
    [-]; the sanitized name has at most 100 characters, and the whole
    [public_id] is made of letters, digits, [_] and [-], the two numbers
    being non-negative. *)
Theorem upload_name_safe (E : Env) (i : nat) (buffer : list Byte.byte)
    (filename : string) :
  0 <= upload_Date_now E i ->
  0 <= upload_random E i ->
  exists sanitizedName publicId,
    publicId = pretty (upload_Date_now E i) +:+ "-"
               +:+ pretty (upload_random E i) +:+ "-" +:+ sanitizedName
    /\ uploadToCloudinary E i buffer filename
       = cloudinary_upload E i publicId buffer
    /\ (String.length sanitizedName <= 100)%nat
    /\ forallb_string name_char publicId = true.
Proof.
  intros Hnow Hrandom.
  exists (substring_to 100 (replace_unsafe (strip_extension filename))).
  eexists. split; [reflexivity |]. split; [reflexivity |].
  split; [apply length_substring_to_le |].
  rewrite !forallb_string_app.
  rewrite (forallb_string_impl _ _ _ digit_name_char (pretty_digits _ Hnow)).
  rewrite (forallb_string_impl _ _ _ digit_name_char (pretty_digits _ Hrandom)).
  rewrite forallb_string_substring_to by apply replace_unsafe_safe.
  reflexivity.
Qed.

(** X16, on the first upload of a sample import, for a file name with a
    space and three dots. *)
Lemma upload_name_safe_witness :
  let E := Sample.master_only in
  exists sanitizedName publicId,
    publicId = pretty (upload_Date_now E 0) +:+ "-"
               +:+ pretty (upload_random E 0) +:+ "-" +:+ sanitizedName
    /\ uploadToCloudinary E 0 (Sample.bytes "x") "my file.v2.tar.gz"
       = cloudinary_upload E 0 publicId (Sample.bytes "x")
    /\ (String.length sanitizedName <= 100)%nat
    /\ forallb_string name_char publicId = true.
Proof.
  intros E.
  apply (upload_name_safe E 0 (Sample.bytes "x") "my file.v2.tar.gz");
    vm_compute; discriminate.
Defined.

(** The [public_id] of that upload. *)
Example upload_name_ex :
  uploadToCloudinary Sample.master_only 0 (Sample.bytes "x") "my file.v2.tar.gz"
  = Sample.upload_ok 0 "1700000002000-104729-my_file_v2_tar" (Sample.bytes "x").
Proof. reflexivity. Qed.

(** X17. [strip_extension], the [/\.[^/.]+$/] of the upload name, removes
    exactly the last extension: a name [base.ext] whose [ext] is non-empty
    and has neither dot nor slash becomes [base] (so [a.tar.gz] becomes
    [a.tar] and a dot file [.env] becomes the empty name), and a name
    without a dot is kept. *)
Theorem strip_extension_last (base ext : string) :
  (truthy ext = true ->
   forallb_string ext_char ext = true ->
   strip_extension (base +:+ "." +:+ ext) = base)
  /\ (forallb_string (fun c => negb (Ascii.eqb c dot)) base = true ->
      strip_extension base = base).
Proof.
  split; [|apply strip_extension_no_dot].
  intros Hne Hext.
  change (base +:+ "." +:+ ext) with (base +:+ String dot ext).
  induction base as [|c base IH]; cbn [String.append strip_extension].
  - fold ext_char. now rewrite Ascii.eqb_refl, Hne, Hext.
  - fold ext_char. now rewrite ext_chars_with_dot, andb_false_r, IH.
Qed.

(** Two extensions, a dot file, no extension. *)
Lemma strip_extension_last_witness :
  strip_extension "a.tar.gz" = "a.tar"
  /\ strip_extension ".env" = ""
  /\ strip_extension "Makefile" = "Makefile".
Proof.
  split; [|split].
  - apply (proj1 (strip_extension_last "a.tar" "gz")); reflexivity.
  - apply (proj1 (strip_extension_last "" "env")); reflexivity.
  - apply (proj2 (strip_extension_last "Makefile" "")); reflexivity.
Defined.

Section HandlerMore.

Variable E : Env.

(** The promises that resolved to a record are those of the uploads that
    succeeded. *)
Lemma outcomes_succeeded (i : nat) (fs : list ExtractedFile) :
  Forall2 recorded (succeeded E i fs) (filter_Boolean (outcomes E i fs)).
Proof.
  revert i. induction fs as [|f fs IH]; intros i; [constructor |].
  cbn [succeeded outcomes]. unfold upload_one.
  destruct (uploadToCloudinary E i (buffer f) (filename f)) as [result|];
    cbn [filter_Boolean]; [|apply IH].
  constructor; [|apply IH]. now repeat split.
Qed.

Lemma error_answers (codes : list Z) (l : list Event) (code : Z)
    (e : ImportError) :
  In code codes -> code <> 201 ->
  answers_with codes (l, Sent (mkResponse code (ErrorBody e))).
Proof.
  intros Hin Hne. eexists. split; [reflexivity |]. simpl. split; [assumption |].
  split; [contradiction | intros [r Hr]; discriminate].
Qed.

(** Steps 4 to 7 always answer, with 201, 400 or 500. *)
Lemma process_archive_answers (owner repo branch : string) (repoMeta : RepoMeta)
    (zipBuffer : list Byte.byte) :
  answers_with [201; 400; 500]
    (process_archive E owner repo branch repoMeta zipBuffer).
Proof.
  unfold process_archive.
  destruct (AdmZip_getEntries E zipBuffer) as [entries|];
    [|apply error_answers; simpl; [tauto | lia]].
  destruct (extract E entries) as [ex [|]];
    [apply error_answers; simpl; [tauto | lia] |].
  destruct (Z.of_nat (length (files ex)) =? 0);
    [apply error_answers; simpl; [tauto | lia] |].
  destruct (Container_findOne E _) as [existing|];
    [|apply error_answers; simpl; [tauto | lia]].
  rewrite upload_files_spec. simpl.
  destruct (Z.of_nat (length (filter_Boolean (outcomes E 0 (files ex)))) =? 0);
    [apply error_answers; simpl; [tauto | lia] |].
  destruct (container_save E); simpl;
    [|apply error_answers; simpl; [tauto | lia]].
  eexists. split; [reflexivity |]. simpl. split; [tauto |].
  split; [eauto | reflexivity].
Qed.

End HandlerMore.

Section RouteMore.

Variable E : Env.
Variable fuel : nat.

Lemma answers_with_incl (codes codes' : list Z) (h : Handler Empty_set) :
  incl codes codes' -> answers_with codes h -> answers_with codes' h.
Proof. intros Hincl (resp & H1 & H2 & H3). exists resp. auto. Qed.

(** Whatever the request, the handler answers with one of its codes or
    waits for a fetch that does not settle. *)
Lemma import_body_answers (req : Request) :
  answers_with [201; 400; 404; 413; 500] (import_body E fuel req)
  \/ snd (import_body E fuel req) = Hang.
Proof.
  unfold import_body.
  destruct (negb (truthy _)); [left; apply error_answers; simpl; [tauto | lia] |].
  destruct (parseGitHubUrl _) as [parsed|];
    [|left; apply error_answers; simpl; [tauto | lia]].
  destruct (fetchJson E _ _) as [[|repoMeta]|e|]; simpl;
    [left; apply error_answers; simpl; [tauto | lia] |
    |left; apply error_answers; simpl; [tauto | lia] | now right].
  destruct (_ >? _); [left; apply error_answers; simpl; [tauto | lia] |].
  destruct (download_archive_spec E fuel (owner parsed) (repo parsed)
              (or_else (body_branch req) (branch parsed)));
    simpl; try (now right);
    try (left; apply error_answers; simpl; [tauto | lia]).
  - left.
    destruct (process_archive_answers E (owner parsed) (repo parsed)
                (or_else (body_branch req) (branch parsed)) repoMeta zipBuffer)
      as (resp & Hsnd & Hin & H201).
    destruct (process_archive _ _ _ _ _ _) as [l o]. simpl in *. subst o.
    exists resp. split; [reflexivity |]. split; [|assumption].
    simpl in *. tauto.
  - left.
    destruct (process_archive_answers E (owner parsed) (repo parsed)
                (or_else (body_branch req) (branch parsed)) repoMeta zipBuffer)
      as (resp & Hsnd & Hin & H201).
    destruct (process_archive _ _ _ _ _ _) as [l o]. simpl in *. subst o.
    exists resp. split; [reflexivity |]. split; [|assumption].
    simpl in *. tauto.
Qed.

End RouteMore.

(** X18. Whatever the request and the environment, a response of the
    import route has one of the status codes 201, 400, 404, 413, 429 and
    500; it carries the import result exactly when the code is 201, and the
    code is 429 exactly when the rate limiter denied the client. *)
Theorem import_status (E : Env) (fuel : nat)
    (rateLimitMap : gmap string RateEntry) (req : Request) (resp : HttpResponse) :
  response (snd (import E fuel rateLimitMap req)) = Some resp ->
  In (status resp) import_statuses
  /\ (status resp = 201 <-> exists r, body resp = ResultBody r)
  /\ (status resp = 429
      <-> fst (checkRateLimit (Date_now E) (clientIp req) rateLimitMap) = false).
Proof.
  unfold import, import_statuses.
  destruct (checkRateLimit _ _ _) as [[|] m']; simpl.
  - destruct (import_body_answers E fuel req) as [(resp' & Hsnd & Hin & H201) | Hhang].
    + unfold response. rewrite Hsnd. intros H. inversion H; subst resp'.
      split; [simpl in *; tauto |]. split; [assumption |].
      split; [|discriminate]. intros H429. rewrite H429 in Hin.
      simpl in Hin. intuition discriminate.
    + unfold response. rewrite Hhang. discriminate.
  - intros H. inversion H; subst. simpl. split; [tauto |].
    split; [|tauto]. split; [discriminate | intros [r Hr]; discriminate].
Qed.

(** On the 201 response of the sample import. *)
Lemma import_status_witness :
  let req := Sample.request "https://github.com/acme/demo" None in
  let resp :=
    mkResponse 201 (ResultBody
      (mkResult "65f0c0ffee" "gh-acme-demo" "a1b2c3d4e5f6" "#/sandbox/65f0c0ffee"
         2 1 20 (mkInfo "acme" "demo" "main" "a demo" 7 "JavaScript"))) in
  In (status resp) import_statuses
  /\ (status resp = 201 <-> exists r, body resp = ResultBody r)
  /\ (status resp = 429
      <-> fst (checkRateLimit (Date_now Sample.master_only) (clientIp req) ∅) = false).
Proof.
  intros req resp.
  apply (import_status Sample.master_only 3 ∅ req resp). reflexivity.
Defined.

Section ResultMore.

Variable E : Env.

Lemma extract_skipped_nonneg (entries : list ZipEntry) :
  0 <= skippedCount (fst (extract E entries)).
Proof.
  destruct (extract_loop_ind E (rootPrefix_of entries)
              (fun _ st => 0 <= skippedCount st))
    with (entries := entries) (seen := @nil ZipEntry) (st := mkExtraction [] 0 0)
    as (done & rest & _ & H & _).
  - intros seen st entry st' Hst Hentry.
    apply extract_entry_cases in Hentry as [(_ & _ & Hle) | (f & _ & _ & _ & Heq)]; lia.
  - simpl. lia.
  - exact H.
Qed.

Lemma sum_sizes_at_least (fs : list ExtractedFile) :
  Forall (fun f => 0 < size f) fs -> Z.of_nat (length fs) <= sum_sizes fs.
Proof.
  unfold sum_sizes. induction 1 as [|f fs Hf _ IH]; simpl; lia.
Qed.

(** The 201 response counts at least one uploaded file. *)
Lemma process_archive_uploaded (owner repo branch : string) (repoMeta : RepoMeta)
    (zipBuffer : list Byte.byte) (r : ImportResult) :
  result (process_archive E owner repo branch repoMeta zipBuffer) = Some r ->
  res_fileCount r <> 0.
Proof.
  unfold process_archive.
  destruct (AdmZip_getEntries E zipBuffer) as [entries|]; [|discriminate].
  destruct (extract E entries) as [ex [|]] eqn:Hex; [discriminate |].
  destruct (Z.of_nat (length (files ex)) =? 0); [discriminate |].
  destruct (Container_findOne E _) as [existing|] eqn:Hfind; [|discriminate].
  rewrite upload_files_spec. simpl.
  destruct (Z.eqb_spec (Z.of_nat (length (filter_Boolean (outcomes E 0 (files ex))))) 0)
    as [Hzero|Hsome]; [discriminate |].
  destruct (container_save E); [|discriminate].
  simpl. intros H. inversion H; subst. exact Hsome.
Qed.

End ResultMore.

(** X19. The counters of a 201 response: at least one file and at most
    500 were uploaded, [skippedCount] is not negative, [totalSize] is at
    least the number of files kept (no kept file is empty) and so at least
    [fileCount]; the reference reported is made of valid identifiers and
    [sandboxUrl] is made of the id of the container. *)
Theorem result_counters (E : Env) (fuel : nat) (req : Request) (r : ImportResult) :
  result (import_body E fuel req) = Some r ->
  1 <= res_fileCount r <= MAX_FILE_COUNT
  /\ 0 <= res_skippedCount r
  /\ res_fileCount r <= res_totalSize r
  /\ validPattern_test (info_owner (res_repoInfo r)) = true
  /\ validPattern_test (info_repo (res_repoInfo r)) = true
  /\ res_sandboxUrl r = "#/sandbox/" +:+ res_containerId r.
Proof.
  intros H.
  assert (Hsome : res_fileCount r <> 0).
  { apply import_body_result in H as (parsed & repoMeta & zipBuffer & _ & _ & H).
    now apply process_archive_uploaded in H. }
  apply import_body_created in H
    as (parsed & repoMeta & zipBuffer & entries & existing
        & [_ Hparsed _ _] & _ & _ & _ & _ & ->).
  cbn [res_fileCount res_skippedCount res_totalSize res_repoInfo res_sandboxUrl
       res_containerId info_owner info_repo] in *.
  destruct (extract_invariant E entries) as (seen & [Hcount _ Hsize Hpos] & _).
  pose proof (length_filter_Boolean (outcomes E 0 (files (fst (extract E entries))))) as Hf.
  rewrite outcomes_length in Hf.
  pose proof (sum_sizes_at_least _ Hpos) as Hsum.
  pose proof (extract_skipped_nonneg E entries) as Hskipped.
  apply parse_inv in Hparsed as (Ho & Hr & _).
  repeat split; try assumption; try reflexivity; lia.
Qed.

(** On the result of the sample import. *)
Lemma result_counters_witness :
  let r :=
    mkResult "65f0c0ffee" "gh-acme-demo" "a1b2c3d4e5f6" "#/sandbox/65f0c0ffee"
      2 1 20 (mkInfo "acme" "demo" "main" "a demo" 7 "JavaScript") in
  1 <= res_fileCount r <= MAX_FILE_COUNT
  /\ 0 <= res_skippedCount r
  /\ res_fileCount r <= res_totalSize r
  /\ validPattern_test (info_owner (res_repoInfo r)) = true
  /\ validPattern_test (info_repo (res_repoInfo r)) = true
  /\ res_sandboxUrl r = "#/sandbox/" +:+ res_containerId r.
Proof.
  intros r.
  apply (result_counters Sample.master_only 3
           (Sample.request "https://github.com/acme/demo" None) r).
  reflexivity.
Defined.

(** X20. No archive is requested before the gates are passed: if the
    handler calls [fetchBuffer] at all, the locator parsed, the metadata was
    fetched and the size it reports is within the limit. *)
Theorem no_download_before_gates (E : Env) (fuel : nat) (req : Request) :
  archive_fetches (import_body E fuel req) <> [] ->
  exists parsed repoMeta, reaches_archive E req parsed repoMeta.
Proof.
  unfold import_body.
  destruct (truthy (or_else (body_repoUrl req) "")) eqn:Hurl;
    [|intros H; now contradiction H].
  cbn [negb].
  destruct (parseGitHubUrl _) as [parsed|] eqn:Hparsed;
    [|intros H; now contradiction H].
  destruct (fetchJson E _ _) as [[|repoMeta]|e|] eqn:Hmeta; simpl;
    [intros H; now contradiction H| |intros H; now contradiction H
    |intros H; now contradiction H].
  destruct (Z.gtb_spec (meta_size repoMeta * 1024) (MAX_REPO_SIZE_BYTES E))
    as [Hbig|Hfits]; [intros H; now contradiction H|].
  intros _. exists parsed, repoMeta. now split.
Qed.

(** On the sample import, which downloads an archive. *)
Lemma no_download_before_gates_witness :
  exists parsed repoMeta,
    reaches_archive Sample.master_only
      (Sample.request "https://github.com/acme/demo" None) parsed repoMeta.
Proof.
  apply (no_download_before_gates Sample.master_only 3). discriminate.
Defined.



(** X21. A request over quota is answered 429 with no fetch and no
    upload, and leaves the map as it was, whatever its body. *)
Theorem over_quota_request (E : Env) (fuel : nat)
    (rateLimitMap : gmap string RateEntry) (req : Request) (e : RateEntry) :
  rateLimitMap !! clientIp req = Some e ->
  Date_now E <= resetTime e ->
  RATE_LIMIT_MAX <= count e ->
  import E fuel rateLimitMap req
    = (rateLimitMap, ([], Sent (mkResponse 429 (ErrorBody ErrTooManyRequests)))).
Proof.
  intros He Hnow Hfull. unfold import.
  now rewrite (check_denies _ _ _ _ He Hnow Hfull).
Qed.

(** On a client whose five requests of the window are used. *)
Lemma over_quota_request_witness :
  let m := <["203.0.113.9" := mkEntryRL 5 1700000000500]> ∅ in
  let req := Sample.request "https://github.com/acme/demo" None in
  import Sample.master_only 3 m req
    = (m, ([], Sent (mkResponse 429 (ErrorBody ErrTooManyRequests)))).
Proof.
  intros m req.
  apply (over_quota_request Sample.master_only 3 m req (mkEntryRL 5 1700000000500)).
  - reflexivity.
  - simpl. lia.
  - simpl. unfold RATE_LIMIT_MAX. lia.
Defined.

(** X22. A request that is let in uses up quota whatever becomes of it:
    inside the window of a client under quota, the count of the client is
    one more after the request, be the request malformed, refused later or
    successful; and a request that opens a window leaves the count 1. *)
Theorem request_counted (E : Env) (fuel : nat)
    (rateLimitMap : gmap string RateEntry) (req : Request) :
  (forall e,
      rateLimitMap !! clientIp req = Some e ->
      Date_now E <= resetTime e ->
      count e < RATE_LIMIT_MAX ->
      fst (import E fuel rateLimitMap req) !! clientIp req
      = Some (mkEntryRL (count e + 1) (resetTime e)))
  /\ (window_over (Date_now E) (clientIp req) rateLimitMap ->
      fst (import E fuel rateLimitMap req) !! clientIp req
      = Some (mkEntryRL 1 (Date_now E + RATE_LIMIT_WINDOW))).
Proof.
  split.
  - intros e He Hnow Hroom. unfold import.
    rewrite (check_counts _ _ _ _ He Hnow Hroom). simpl. apply lookup_insert_eq.
  - intros Hopen. unfold import.
    rewrite (check_opens _ _ _ Hopen). simpl. apply lookup_insert_eq.
Qed.

(** A request without a locator, from a client seen twice in the window,
    and the same request from a new client. *)
Lemma request_counted_witness :
  let m := <["203.0.113.9" := mkEntryRL 2 1700000000500]> ∅ in
  let req := mkRequest (Some "203.0.113.9") None None None in
  fst (import Sample.master_only 3 m req) !! "203.0.113.9"
    = Some (mkEntryRL 3 1700000000500)
  /\ fst (import Sample.master_only 3 ∅ req) !! "203.0.113.9"
     = Some (mkEntryRL 1 (1700000000000 + RATE_LIMIT_WINDOW)).
Proof.
  intros m req.
  destruct (request_counted Sample.master_only 3 m req) as [Hin _].
  destruct (request_counted Sample.master_only 3 ∅ req) as [_ Hnew].
  split.
  - apply (Hin (mkEntryRL 2 1700000000500)).
    + reflexivity.
    + simpl. lia.
    + simpl. unfold RATE_LIMIT_MAX. lia.
  - apply Hnew. intros e He. rewrite lookup_empty in He. discriminate.
Defined.

Section UploadsMore.

Variable E : Env.

Lemma outcomes_all_fail (i : nat) (fs : list ExtractedFile) :
  (forall i name buffer, cloudinary_upload E i name buffer = None) ->
  filter_Boolean (outcomes E i fs) = [].
Proof.
  intros Hnone. revert i. induction fs as [|f fs IH]; intros i; [reflexivity |].
  simpl. unfold upload_one, uploadToCloudinary. rewrite Hnone. apply IH.
Qed.

Lemma extract_loop_no_candidate (rootPrefix : string) (st : Extraction)
    (entries : list ZipEntry) :
  Forall (fun e => candidate rootPrefix e = false) entries ->
  extract_loop E rootPrefix st entries = (st, false).
Proof.
  induction 1 as [|entry entries Hentry _ IH]; [reflexivity |].
  simpl.
  assert (Hstep : extract_entry E rootPrefix st entry = Continued st).
  { unfold extract_entry, candidate in *.
    destruct (isDirectory entry); [reflexivity |].
    simpl in Hentry. now rewrite Hentry. }
  now rewrite Hstep.
Qed.

End UploadsMore.

(** X23. When the content store refuses every upload, the import that
    got as far as uploading answers 500 with the upload error, after every
    upload was issued; no request ends with a 201. *)
Theorem all_uploads_fail (E : Env) (owner repo branch : string)
    (repoMeta : RepoMeta) (zipBuffer : list Byte.byte)
    (entries : list ZipEntry) (existing : bool) :
  (forall i name buffer, cloudinary_upload E i name buffer = None) ->
  AdmZip_getEntries E zipBuffer = Some entries ->
  snd (extract E entries) = false ->
  files (fst (extract E entries)) <> [] ->
  Container_findOne E (containerName_of owner repo) = Some existing ->
  let n := length (files (fst (extract E entries))) in
  process_archive E owner repo branch repoMeta zipBuffer
    = (map EvUploadIssued (seq 0 n) ++ map EvBatchAwaited (batch_starts n 0 n),
       Sent (mkResponse 500 (ErrorBody ErrUploadFailed)))
  /\ forall fuel req, result (import_body E fuel req) = None.
Proof.
  intros Hnone Hzip Hdone Hfiles Hfind n. split.
  - unfold process_archive. rewrite Hzip.
    destruct (extract E entries) as [ex thrown] eqn:Hex. simpl in *. subst thrown.
    destruct (Z.eqb_spec (Z.of_nat (length (files ex))) 0) as [Hzero|_].
    { destruct (files ex); [contradiction | simpl in Hzero; lia]. }
    rewrite Hfind, upload_files_spec. simpl.
    rewrite (outcomes_all_fail E 0 _ Hnone). simpl. now rewrite app_nil_r.
  - intros fuel req.
    destruct (result (import_body E fuel req)) as [r|] eqn:Hr; [|reflexivity].
    exfalso.
    assert (Hsome : res_fileCount r <> 0).
    { apply import_body_result in Hr as (parsed & meta & zip & _ & _ & Hr).
      now apply process_archive_uploaded in Hr. }
    apply import_body_created in Hr
      as (parsed & meta & zip & entries' & existing' & _ & _ & _ & _ & _ & ->).
    simpl in Hsome. now rewrite (outcomes_all_fail E 0 _ Hnone) in Hsome.
Qed.

(** On the sample archive and a store that refuses everything. *)
Lemma all_uploads_fail_witness :
  process_archive Cases.refusing "acme" "demo" "main" Sample.meta (Sample.bytes "PK")
    = ([EvUploadIssued 0; EvUploadIssued 1; EvBatchAwaited 0],
       Sent (mkResponse 500 (ErrorBody ErrUploadFailed)))
  /\ result (import_body Cases.refusing 3
               (Sample.request "https://github.com/acme/demo" None)) = None.
Proof.
  destruct (all_uploads_fail Cases.refusing "acme" "demo" "main" Sample.meta
              (Sample.bytes "PK") Sample.entries false) as [H1 H2];
    try reflexivity; try discriminate.
  split; [exact H1 | apply H2].
Defined.

(** X24. An archive in which no entry reaches the policy engine, such as
    an empty one or one of folders only, is answered 400 with the
    no-valid-files error; nothing is skipped, nothing is uploaded. *)
Theorem nothing_to_import (E : Env) (owner repo branch : string)
    (repoMeta : RepoMeta) (zipBuffer : list Byte.byte) (entries : list ZipEntry) :
  AdmZip_getEntries E zipBuffer = Some entries ->
  Forall (fun e => candidate (rootPrefix_of entries) e = false) entries ->
  extract E entries = (mkExtraction [] 0 0, false)
  /\ process_archive E owner repo branch repoMeta zipBuffer
     = ([], Sent (mkResponse 400 (ErrorBody ErrNoValidFiles))).
Proof.
  intros Hzip Hnone.
  assert (Hex : extract E entries = (mkExtraction [] 0 0, false)).
  { unfold extract. now apply extract_loop_no_candidate. }
  split; [assumption |].
  unfold process_archive. now rewrite Hzip, Hex.
Qed.

(** On an archive of three folders. *)
Lemma nothing_to_import_witness :
  extract Cases.hollow Cases.folders = (mkExtraction [] 0 0, false)
  /\ process_archive Cases.hollow "acme" "demo" "main" Sample.meta (Sample.bytes "PK")
     = ([], Sent (mkResponse 400 (ErrorBody ErrNoValidFiles))).
Proof.
  apply (nothing_to_import Cases.hollow "acme" "demo" "main" Sample.meta
           (Sample.bytes "PK") Cases.folders).
  - reflexivity.
  - repeat constructor.
Defined.

(** X25. The files of the container are the records of the uploads that
    succeeded, one for each and in the order of the extracted files: the
    record of a file carries its path, name, type and size, the public id
    the store handed back as file name and as public id, and the address
    the store handed back as path. A failed upload leaves no record and does
    not stop the others. *)
Theorem uploaded_in_order (E : Env) (fs : list ExtractedFile) :
  exists uploadedFiles,
    snd (upload_files E fs) = Next uploadedFiles
    /\ Forall2 recorded (succeeded E 0 fs) uploadedFiles
    /\ (length uploadedFiles + failed_uploads E fs = length fs)%nat.
Proof.
  exists (filter_Boolean (outcomes E 0 fs)).
  rewrite upload_files_spec. split; [reflexivity |].
  split; [apply outcomes_succeeded |].
  unfold failed_uploads. rewrite length_filter_Boolean. apply outcomes_length.
Qed.

Example sizeHuman_ex : pretty (Math_round_div 1536 1024) +:+ "MB" = "2MB".
Proof. reflexivity. Qed.

Section InfoRoute.

Variable E : Env.

(** After the gates the import answers 201, 400, 404 or 500, or waits. *)
Lemma archive_stage_answers (fuel : nat) (owner repo branch : string)
    (repoMeta : RepoMeta) :
  let h :=
    let* zipBuffer := download_archive E fuel owner repo branch in
    process_archive E owner repo branch repoMeta zipBuffer in
  answers_with [201; 400; 404; 500] h \/ snd h = Hang.
Proof.
  cbn zeta.
  destruct (download_archive_spec E fuel owner repo branch);
    simpl; try (now right);
    try (left; apply error_answers; simpl; [tauto | lia]).
  - left.
    destruct (process_archive_answers E owner repo branch repoMeta zipBuffer)
      as (resp & Hsnd & Hin & H201).
    destruct (process_archive _ _ _ _ _ _) as [l o]. simpl in *. subst o.
    exists resp. split; [reflexivity |]. split; [|assumption].
    simpl in *. tauto.
  - left.
    destruct (process_archive_answers E owner repo branch repoMeta zipBuffer)
      as (resp & Hsnd & Hin & H201).
    destruct (process_archive _ _ _ _ _ _) as [l o]. simpl in *. subst o.
    exists resp. split; [reflexivity |]. split; [|assumption].
    simpl in *. tauto.
Qed.

Lemma parsed_truthy (url : string) (parsed : RepoReference) :
  parseGitHubUrl url = Some parsed -> truthy url = true.
Proof. destruct url; [discriminate | reflexivity]. Qed.

Lemma or_else_some (s b : string) : truthy s = true -> or_else (Some s) b = s.
Proof. intros H. unfold or_else. now rewrite H. Qed.

(** A request the rate limiter lets in is handled by the body of the
    route. *)
Lemma import_admitted (fuel : nat) (rateLimitMap : gmap string RateEntry)
    (req : Request) :
  fst (checkRateLimit (Date_now E) (clientIp req) rateLimitMap) = true ->
  snd (import E fuel rateLimitMap req) = import_body E fuel req.
Proof.
  unfold import. destruct (checkRateLimit _ _ _) as [allowed m']. simpl.
  now intros ->.
Qed.

End InfoRoute.

(** X26. The two routes agree on the size gate. For a client the rate
    limiter lets in and a locator whose metadata is fetched and is not
    [null], the info route answers 200, and its [isTooBig] is true exactly
    when the import route answers 413 for that locator. *)
Theorem info_gate_agrees (E : Env) (fuel : nat)
    (rateLimitMap : gmap string RateEntry) (url : string) (req : Request)
    (forks_count : Z) (default_branch : option string)
    (parsed : RepoReference) (repoMeta : RepoMeta) :
  body_repoUrl req = Some url ->
  parseGitHubUrl url = Some parsed ->
  fetchJson E (metaUrl_of (owner parsed) (repo parsed)) (githubHeaders E)
    = Resolved (JsonValue repoMeta) ->
  fst (checkRateLimit (Date_now E) (clientIp req) rateLimitMap) = true ->
  exists r,
    snd (info E (Some url) forks_count default_branch)
      = Some (mkInfoResponse 200 (InfoResultBody r))
    /\ (inf_isTooBig r = true
        <-> option_map status (response (snd (import E fuel rateLimitMap req)))
            = Some 413).
Proof.
  intros Hreq Hparsed Hmeta Hallowed.
  rewrite (import_admitted E fuel rateLimitMap req Hallowed).
  pose proof (parsed_truthy _ _ Hparsed) as Hurl.
  unfold info. rewrite (or_else_some url "" Hurl), Hurl. cbn [negb].
  rewrite Hparsed. cbn zeta.
  rewrite Hmeta. eexists. split; [reflexivity |]. cbn [inf_isTooBig].
  unfold import_body. rewrite Hreq, (or_else_some url "" Hurl), Hurl. cbn [negb].
  rewrite Hparsed. cbn zeta. rewrite Hmeta.
  destruct (meta_size repoMeta * 1024 >? MAX_REPO_SIZE_BYTES E) eqn:Hbig.
  - simpl. rewrite Hbig. simpl. tauto.
  - split; [discriminate |]. simpl. rewrite Hbig.
    destruct (archive_stage_answers E fuel (owner parsed) (repo parsed)
                (or_else (body_branch req) (branch parsed)) repoMeta)
      as [(resp & Hsnd & Hin & _) | Hhang]; cbn zeta in *.
    + destruct (let* zipBuffer := download_archive _ _ _ _ _ in _) as [l o].
      simpl in *. subst o. unfold response. simpl. intros H. inversion H as [H413].
      rewrite H413 in Hin. simpl in Hin. intuition discriminate.
    + destruct (let* zipBuffer := download_archive _ _ _ _ _ in _) as [l o].
      simpl in *. subst o. discriminate.
Qed.

(** On the sample repository and a client without an entry. *)
Lemma info_gate_agrees_witness :
  let url := "https://github.com/acme/demo" in
  exists r,
    snd (info Sample.master_only (Some url) 3 (Some "master"))
      = Some (mkInfoResponse 200 (InfoResultBody r))
    /\ (inf_isTooBig r = true
        <-> option_map status
              (response (snd (import Sample.master_only 3 ∅ (Sample.request url None))))
            = Some 413).
Proof.
  intros url.
  apply (info_gate_agrees Sample.master_only 3 ∅ url (Sample.request url None)
           3 (Some "master") (mkRef "acme" "demo" "main") Sample.meta);
    reflexivity.
Defined.

(** X27. The two routes fail differently on the same locator, for a
    client the rate limiter lets in. One that does not parse is answered 400
    by both, without any request; one whose metadata cannot be fetched is
    answered 500 by the info route and 404 by the import route, each after
    the one request to the same address; one whose metadata is [null] is
    answered 500 by both, after that request. *)
Theorem info_import_failures (E : Env) (fuel : nat)
    (rateLimitMap : gmap string RateEntry) (url : string)
    (req : Request) (forks_count : Z) (default_branch : option string) :
  body_repoUrl req = Some url ->
  fst (checkRateLimit (Date_now E) (clientIp req) rateLimitMap) = true ->
  let run := snd (import E fuel rateLimitMap req) in
  (parseGitHubUrl url = None ->
   fst (info E (Some url) forks_count default_branch) = []
   /\ option_map inf_status (snd (info E (Some url) forks_count default_branch))
      = Some 400
   /\ events run = []
   /\ option_map status (response run) = Some 400)
  /\ (forall parsed e,
        parseGitHubUrl url = Some parsed ->
        fetchJson E (metaUrl_of (owner parsed) (repo parsed)) (githubHeaders E)
          = Rejected e ->
        info E (Some url) forks_count default_branch
          = ([EvFetchJson (metaUrl_of (owner parsed) (repo parsed))],
             Some (mkInfoResponse 500 (InfoErrorBody InfoFailed)))
        /\ run
           = ([EvFetchJson (metaUrl_of (owner parsed) (repo parsed))],
              Sent (mkResponse 404
                      (ErrorBody (ErrRepoNotFound (owner parsed) (repo parsed))))))
  /\ (forall parsed,
        parseGitHubUrl url = Some parsed ->
        fetchJson E (metaUrl_of (owner parsed) (repo parsed)) (githubHeaders E)
          = Resolved JsonNull ->
        info E (Some url) forks_count default_branch
          = ([EvFetchJson (metaUrl_of (owner parsed) (repo parsed))],
             Some (mkInfoResponse 500 (InfoErrorBody InfoFailed)))
        /\ run
           = ([EvFetchJson (metaUrl_of (owner parsed) (repo parsed))],
              Sent (mkResponse 500 (ErrorBody ErrInternal)))).
Proof.
  intros Hreq Hallowed run. unfold run.
  rewrite (import_admitted E fuel rateLimitMap req Hallowed).
  split; [|split].
  - intros Hnone. unfold info, import_body. rewrite Hreq.
    destruct (truthy (or_else (Some url) "")); cbn [negb];
      [|repeat split; reflexivity].
    assert (Hor : or_else (Some url) "" = url \/ or_else (Some url) "" = "").
    { unfold or_else. destruct (truthy url); auto. }
    destruct Hor as [-> | ->]; [rewrite Hnone | ]; repeat split; reflexivity.
  - intros parsed e Hparsed Hmeta.
    pose proof (parsed_truthy _ _ Hparsed) as Hurl.
    unfold info, import_body.
    rewrite Hreq, (or_else_some url "" Hurl), Hurl. cbn [negb].
    rewrite Hparsed. cbn zeta. rewrite Hmeta. split; reflexivity.
  - intros parsed Hparsed Hmeta.
    pose proof (parsed_truthy _ _ Hparsed) as Hurl.
    unfold info, import_body.
    rewrite Hreq, (or_else_some url "" Hurl), Hurl. cbn [negb].
    rewrite Hparsed. cbn zeta. rewrite Hmeta. split; reflexivity.
Qed.

(** A locator on another host, a repository the API does not know, and an
    API that answers [null]. *)
Lemma info_import_failures_witness :
  let bad := Sample.request "https://gitlab.com/acme/demo" None in
  let gone := Sample.request "https://github.com/acme/gone" None in
  let demo := Sample.request "https://github.com/acme/demo" None in
  option_map inf_status (snd (info Sample.master_only (Some "https://gitlab.com/acme/demo") 0 None))
    = Some 400
  /\ option_map status (response (snd (import Sample.master_only 3 ∅ bad))) = Some 400
  /\ info Sample.master_only (Some "https://github.com/acme/gone") 0 None
     = ([EvFetchJson "https://api.github.com/repos/acme/gone"],
        Some (mkInfoResponse 500 (InfoErrorBody InfoFailed)))
  /\ snd (import Sample.master_only 3 ∅ gone)
     = ([EvFetchJson "https://api.github.com/repos/acme/gone"],
        Sent (mkResponse 404 (ErrorBody (ErrRepoNotFound "acme" "gone"))))
  /\ info Cases.null_metadata (Some "https://github.com/acme/demo") 0 None
     = ([EvFetchJson "https://api.github.com/repos/acme/demo"],
        Some (mkInfoResponse 500 (InfoErrorBody InfoFailed)))
  /\ snd (import Cases.null_metadata 3 ∅ demo)
     = ([EvFetchJson "https://api.github.com/repos/acme/demo"],
        Sent (mkResponse 500 (ErrorBody ErrInternal))).
Proof.
  intros bad gone demo.
  destruct (info_import_failures Sample.master_only 3 ∅ "https://gitlab.com/acme/demo"
              bad 0 None) as (Hbad & _ & _); [reflexivity | reflexivity |].
  destruct (info_import_failures Sample.master_only 3 ∅ "https://github.com/acme/gone"
              gone 0 None) as (_ & Hgone & _); [reflexivity | reflexivity |].
  destruct (info_import_failures Cases.null_metadata 3 ∅ "https://github.com/acme/demo"
              demo 0 None) as (_ & _ & Hnull); [reflexivity | reflexivity |].
  destruct (Hbad eq_refl) as (_ & H1 & _ & H2).
  destruct (Hgone (mkRef "acme" "gone" "main") (HTTPStatus 404) eq_refl eq_refl)
    as [H3 H4].
  destruct (Hnull (mkRef "acme" "demo" "main") eq_refl eq_refl) as [H5 H6].
  auto 10.
Defined.

(** X28. The size the info route shows is the size in KB divided by
    1024 and rounded to the nearest integer, a half going up; and
    [isTooBig] is true exactly when the size is more than the limit in MB
    times 1024, so a size shown above the limit is too big, and a size that
    is too big is shown as the limit or more. *)
Theorem info_size_shown (E : Env) (query_url : option string) (forks_count : Z)
    (default_branch : option string) (r : InfoResult) :
  snd (info E query_url forks_count default_branch)
    = Some (mkInfoResponse 200 (InfoResultBody r)) ->
  exists k,
    inf_sizeHuman r = pretty k +:+ "MB"
    /\ 1024 * k - 512 <= inf_size r < 1024 * k + 512
    /\ (inf_isTooBig r = true <-> MAX_REPO_SIZE_MB E * 1024 < inf_size r)
    /\ (MAX_REPO_SIZE_MB E < k -> inf_isTooBig r = true)
    /\ (inf_isTooBig r = true -> MAX_REPO_SIZE_MB E <= k).
Proof.
  unfold info.
  destruct (negb (truthy _)); [discriminate |].
  destruct (parseGitHubUrl _) as [parsed|]; [|discriminate].
  cbn zeta. destruct (fetchJson E _ _) as [[|repoMeta]|e|]; try discriminate.
  simpl. intros H. inversion H; subst; clear H. simpl.
  exists (Math_round_div (meta_size repoMeta) 1024).
  split; [reflexivity |].
  unfold Math_round_div, MAX_REPO_SIZE_BYTES.
  pose proof (Z.div_mod (2 * meta_size repoMeta + 1024) (2 * 1024) ltac:(lia)) as Hdiv.
  pose proof (Z.mod_pos_bound (2 * meta_size repoMeta + 1024) (2 * 1024) ltac:(lia)) as Hmod.
  set (k := (2 * meta_size repoMeta + 1024) / (2 * 1024)) in *.
  assert (Hbig : (meta_size repoMeta * 1024 >? MAX_REPO_SIZE_MB E * 1024 * 1024) = true
                 <-> MAX_REPO_SIZE_MB E * 1024 < meta_size repoMeta).
  { destruct (Z.gtb_spec (meta_size repoMeta * 1024) (MAX_REPO_SIZE_MB E * 1024 * 1024));
      split; intros; try reflexivity; try discriminate; lia. }
  split; [lia |]. split; [exact Hbig |]. split.
  - intros Hk. apply Hbig. lia.
  - intros Htoo. apply Hbig in Htoo. lia.
Qed.

(** On the sample repository of 120 KB. *)
Lemma info_size_shown_witness :
  let r :=
    mkInfoResult "acme" "demo" "main" "a demo" 7 3 "JavaScript" 120 "0MB"
      false "main" in
  exists k,
    inf_sizeHuman r = pretty k +:+ "MB"
    /\ 1024 * k - 512 <= inf_size r < 1024 * k + 512
    /\ (inf_isTooBig r = true <-> MAX_REPO_SIZE_MB Sample.master_only * 1024 < inf_size r)
    /\ (MAX_REPO_SIZE_MB Sample.master_only < k -> inf_isTooBig r = true)
    /\ (inf_isTooBig r = true -> MAX_REPO_SIZE_MB Sample.master_only <= k).
Proof.
  intros r.
  apply (info_size_shown Sample.master_only (Some "github.com/acme/demo") 3 None r).
  reflexivity.
Defined.

Section Batches.

Context {A : Type}.

Lemma batches_concat (fuel i : nat) (ps : list A) :
  (length ps - i <= fuel * BATCH_SIZE)%nat ->
  concat (map (fun j => slice j (j + BATCH_SIZE) ps)
            (batch_starts fuel i (length ps)))
  = skipn i ps.
Proof.
  revert i. induction fuel as [|fuel IH]; intros i Hfuel.
  - simpl. destruct (Nat.ltb_spec i (length ps)); [lia |].
    now rewrite skipn_all2 by lia.
  - cbn [batch_starts].
    destruct (Nat.ltb_spec i (length ps)).
    + cbn [map concat]. rewrite IH by (unfold BATCH_SIZE in *; lia).
      apply slice_batch.
    + now rewrite skipn_all2 by lia.
Qed.

Lemma batch_starts_bounds (fuel i n : nat) :
  Forall (fun j => (i <= j < n)%nat) (batch_starts fuel i n).
Proof.
  revert i. induction fuel as [|fuel IH]; intros i; simpl.
  - destruct (i <? n)%nat; constructor.
  - destruct (Nat.ltb_spec i n); [|constructor].
    constructor; [lia |].
    eapply Forall_impl; [apply IH |]. simpl. intros j Hj. unfold BATCH_SIZE in *. lia.
Qed.

End Batches.

Section BatchIndices.

Lemma batch_starts_indices (fuel j n : nat) :
  (n - j * BATCH_SIZE <= fuel * BATCH_SIZE)%nat ->
  batch_starts fuel (j * BATCH_SIZE) n
  = map (fun k => (k * BATCH_SIZE)%nat)
      (seq j ((n + BATCH_SIZE - 1) / BATCH_SIZE - j)).
Proof.
  unfold BATCH_SIZE.
  pose proof (Nat.div_mod_eq (n + 10 - 1) 10) as Hdiv.
  pose proof (Nat.mod_upper_bound (n + 10 - 1) 10 ltac:(lia)) as Hmod.
  set (q := ((n + 10 - 1) / 10)%nat) in *.
  revert j. induction fuel as [|fuel IH]; intros j Hfuel.
  - simpl. destruct (Nat.ltb_spec (j * 10) n); [lia |].
    replace (q - j)%nat with 0%nat by lia. reflexivity.
  - cbn [batch_starts]. destruct (Nat.ltb_spec (j * 10) n).
    + replace (q - j)%nat with (S (q - S j)) by lia.
      cbn [seq map]. f_equal.
      change (j * 10 + BATCH_SIZE)%nat with (j * 10 + 10)%nat.
      replace (j * 10 + 10)%nat with (S j * 10)%nat by lia.
      apply IH. lia.
    + replace (q - j)%nat with 0%nat by lia. reflexivity.
Qed.

Lemma batch_starts_batch_indices (n : nat) :
  batch_starts n 0 n = batch_indices n.
Proof.
  unfold batch_indices.
  rewrite <- (Nat.sub_0_r ((n + BATCH_SIZE - 1) / BATCH_SIZE)).
  apply (batch_starts_indices n 0 n). unfold BATCH_SIZE. lia.
Qed.

Lemma filter_Boolean_concat {A} (ls : list (list (option A))) :
  filter_Boolean (concat ls) = concat (map filter_Boolean ls).
Proof.
  induction ls as [|l ls IH]; [reflexivity |].
  cbn [concat map]. now rewrite filter_Boolean_app, IH.
Qed.

End BatchIndices.

(** X29. The loop over the batches waits once for each slice of ten
    promises, at 0, 10, 20 and so on, and these slices cut the array of
    promises into consecutive parts: put together they are the whole array,
    each has at least one promise and at most ten, and what the loop
    collects is what is left of each slice without its [null]s, in order,
    which is the whole array without its [null]s. *)
Theorem batches_partition (uploadPromises : list (option UploadedFile)) :
  let n := length uploadPromises in
  let batch := fun i => slice i (i + BATCH_SIZE) uploadPromises in
  await_batches n 0 uploadPromises []
    = (map EvBatchAwaited (batch_indices n),
       Next (concat (map (fun i => filter_Boolean (batch i)) (batch_indices n))))
  /\ concat (map batch (batch_indices n)) = uploadPromises
  /\ concat (map (fun i => filter_Boolean (batch i)) (batch_indices n))
     = filter_Boolean uploadPromises
  /\ Forall (fun i => (1 <= length (batch i) <= BATCH_SIZE)%nat)
       (batch_indices n).
Proof.
  intros n batch.
  assert (Hconcat : concat (map batch (batch_indices n)) = uploadPromises).
  { unfold batch, n. rewrite <- batch_starts_batch_indices.
    rewrite batches_concat by (unfold BATCH_SIZE; lia). reflexivity. }
  assert (Hkept : concat (map (fun i => filter_Boolean (batch i)) (batch_indices n))
                  = filter_Boolean uploadPromises).
  { transitivity (filter_Boolean (concat (map batch (batch_indices n))));
      [|now rewrite Hconcat].
    rewrite filter_Boolean_concat, map_map. reflexivity. }
  split; [|split; [exact Hconcat | split; [exact Hkept |]]].
  - rewrite Hkept. unfold n.
    rewrite await_batches_spec by (unfold BATCH_SIZE; lia).
    now rewrite batch_starts_batch_indices.
  - unfold n. rewrite <- batch_starts_batch_indices.
    eapply Forall_impl; [apply batch_starts_bounds |].
    intros i Hi. unfold batch, slice. simpl in Hi.
    rewrite length_firstn, length_skipn. unfold BATCH_SIZE. lia.
Qed.

Example parse_ex1 :
  parseGitHubUrl "  https://github.com/torvalds/linux.git/tree/feature/x  "
  = Some (mkRef "torvalds" "linux" "feature/x").
Proof. reflexivity. Qed.

Example parse_ex2 : parseGitHubUrl "github.com/a/b/tree" = Some (mkRef "a" "b" "main").
Proof. reflexivity. Qed.

Example parse_ex3 : parseGitHubUrl "http://gitlab.com/a/b" = None.
Proof. reflexivity. Qed.

Example sanitize_ex1 : sanitizePath "src\..\x" = None.
Proof. reflexivity. Qed.

Example sanitize_ex2 : sanitizePath "src\a..b\x" = Some "src/a..b/x".
Proof. reflexivity. Qed.

Example sanitize_ex3 : sanitizePath "C:\x" = None.
Proof. reflexivity. Qed.
